(** * HWSearch: the 8-puzzle core of [src/App.tsx]

    A shallow embedding of the puzzle engine (state model, move generator,
    solvability test, scramble generator, A* solver and the click-to-move
    handler) together with the proofs of its specification.  The component
    around the engine (its state and handlers, the image slicer and the
    grid) is embedded as well, with further properties of both. *)

From Stdlib Require Import ZArith QArith Ascii Lqa SpecFloat.
From stdpp Require Import gmap strings pretty list numbers sorting relations.

Local Open Scope Z_scope.

(** ** Data model *)

(** [type State = number[]]: a length-9 array with 0 as the blank.  Every
    number the core stores in a state is an integer, so cells are [Z]. *)
Abbreviation State := (list Z).

Definition GOAL : State := [1; 2; 3; 4; 5; 6; 7; 8; 0].

(** A Configuration: the cells hold each of 0..8 exactly once. *)
Definition valid (s : State) : Prop := s ≡ₚ GOAL.

(** ** Array primitives *)

(** [s.indexOf(v)]: the first index holding [v], or -1. *)
Fixpoint indexOf_from (i : Z) (s : list Z) (v : Z) : Z :=
  match s with
  | [] => -1
  | x :: s' => if x =? v then i else indexOf_from (i + 1) s' v
  end.

Definition indexOf (s : list Z) (v : Z) : Z := indexOf_from 0 s v.

(** [t[i]] for an index that is in range.  On a length-9 state the core
    never reads or writes outside the array: see [neighbors_in_range],
    [tryMove_in_range] and [random_index_range]. *)
Definition aget (t : list Z) (i : Z) : Z := nth (Z.to_nat i) t 0.

(** [t[i] = x], in range. *)
Definition aset (t : list Z) (i : Z) (x : Z) : list Z := <[Z.to_nat i := x]> t.

(** The destructuring swap [[t[i], t[j]] = [t[j], t[i]]]: both reads happen
    first, then [t[i]] and [t[j]] are written in that order. *)
Definition swap (t : list Z) (i j : Z) : list Z :=
  let x := aget t j in
  let y := aget t i in
  aset (aset t i x) j y.

(** ** State model *)

Definition pos (s : State) (v : Z) : Z := indexOf s v.

(** [Math.floor(i / 3)] and [i % 3]; JavaScript's [%] truncates, so it is
    [Z.rem]. *)
Definition row (i : Z) : Z := i / 3.
Definition col (i : Z) : Z := Z.rem i 3.

Definition manhattan (s : State) : Z :=
  fold_left
    (fun d v =>
       let i := pos s v in
       let gi := v - 1 in
       d + (Z.abs (row i - row gi) + Z.abs (col i - col gi)))
    [1; 2; 3; 4; 5; 6; 7; 8] 0.

(** ** Move generator *)

Definition deltas : list (Z * Z) := [(1, 0); (-1, 0); (0, 1); (0, -1)].

Definition neighbors (s : State) : list State :=
  let z := pos s 0 in
  let r := row z in
  let c := col z in
  fold_left
    (fun out d =>
       let nr := r + fst d in
       let nc := c + snd d in
       if (nr <? 0) || (nr >? 2) || (nc <? 0) || (nc >? 2) then out
       else
         let nz := nr * 3 + nc in
         out ++ [swap s z nz])
    deltas [].

(** ** Identity key *)

(** [s.join(",")]: the decimal numerals separated by commas.  JavaScript
    writes an integer digit by digit as long as it is below 10^21, and
    exactly as long as it is a safe integer (below 2^53 in absolute value,
    see [safe_integer]); the cells of a state are 0..8. *)
Definition key (s : State) : string := String.concat "," (pretty <$> s).

(** [str.split(",")]. *)
Fixpoint split_comma (acc : string) (str : string) : list string :=
  match str with
  | EmptyString => [acc]
  | String c str' =>
      if Ascii.eqb c ","%char then acc :: split_comma "" str'
      else split_comma (acc +:+ String c "") str'
  end.

Definition digit_of (c : ascii) : Z := Z.of_N (N_of_ascii c) - 48.

(** [Number(str)] on the decimal numerals that [key] writes for safe
    integers: digits with an optional sign. *)
Definition Number (str : string) : Z :=
  let fix go (acc : Z) (str : string) : Z :=
    match str with
    | EmptyString => acc
    | String c str' => go (acc * 10 + digit_of c) str'
    end in
  match str with
  | String "-"%char str' => - go 0 str'
  | _ => go 0 str
  end.

(** [cur.split(",").map(Number)]. *)
Definition unkey (cur : string) : State := Number <$> split_comma "" cur.

(** ** Solvability classifier *)

(** The double loop of [inversions] over the array [a], index by index. *)
Definition inversions_loop (a : list Z) : Z :=
  fold_left
    (fun inv i =>
       fold_left
         (fun inv j => if nth i a 0 >? nth j a 0 then inv + 1 else inv)
         (seq (S i) (length a - S i)) inv)
    (seq 0 (length a)) 0.

Definition inversions (s : State) : Z :=
  inversions_loop (filter (λ x, x ≠ 0) s).

Definition isSolvable (s : State) : bool := Z.rem (inversions s) 2 =? 0.

(** ** Scramble generator *)

(** The numbers of JavaScript are IEEE 754 doubles: [spec_float] of the
    Standard Library at precision 53 with the exponents of binary64. *)
Definition prec : Z := 53.
Definition emax : Z := 1024.

(** [x * y] on doubles: the exact product rounded to the nearest double,
    ties to even. *)
Definition fmul (x y : spec_float) : spec_float := SFmul prec emax x y.

(** The double of an integer; it is exact below 2^53. *)
Definition of_int (n : Z) : spec_float := binary_normalize prec emax n 0 false.

(** [Math.floor(x)] of a finite double, as an integer. *)
Definition floor (x : spec_float) : Z :=
  match x with
  | S754_finite s m e => Z.shiftl (cond_Zopp s (Z.pos m)) e
  | _ => 0
  end.

(** Neither an infinity nor NaN. *)
Definition finite (x : spec_float) : Prop :=
  match x with
  | S754_zero _ | S754_finite _ _ _ => True
  | _ => False
  end.

(** What [Math.random()] returns: a double [u] with [0 <= u < 1], that is 0
    or [m * 2^e] in canonical form with [m < 2^(-e)]. *)
Definition is_random (u : spec_float) : Prop :=
  match u with
  | S754_zero false => True
  | S754_finite false m e =>
      bounded prec emax m e = true ∧ e < 0 ∧ Z.pos m < 2 ^ (- e)
  | _ => False
  end.

(** [Math.floor(Math.random() * (i + 1))] for a draw [u] of [Math.random()]:
    the product is the rounded one of double precision. *)
Definition random_index (u : spec_float) (i : Z) : Z :=
  floor (fmul u (of_int (i + 1))).

(** The doubles 0.5 and 0.3333333333333333. *)
Definition half : spec_float := S754_finite false 4503599627370496 (-53).
Definition third : spec_float := S754_finite false 6004799503160661 (-54).

(** The Fisher-Yates loop, for [i] from [a.length - 1] down to 1; [rnd k] is
    the [k]-th draw of the random source. *)
Fixpoint fisher_yates (rnd : nat → spec_float) (k : nat) (n : nat) (a : list Z)
    : list Z :=
  match n with
  | O => a
  | S n' =>
      let i := Z.of_nat n in
      let j := random_index (rnd k) i in
      fisher_yates rnd (S k) n' (swap a i j)
  end.

Definition shuffleSolvable (rnd : nat → spec_float) : State :=
  let a := fisher_yates rnd 0 (length GOAL - 1) GOAL in
  if negb (isSolvable a) then
    let i := indexOf a 1 in
    let j := indexOf a 2 in
    swap a i j
  else a.

(** ** A* solver *)

(** A node of the open list; the field [s] of the source is [st]. *)
Record Node := mkNode { f : Z; g : Z; st : State }.

(** The variables of one call: [open], [parent] and [gbest]. *)
Record Search := mkSearch {
  open : list Node;
  parent : gmap string (option string);
  gbest : gmap string Z
}.

(** The scan of [popMin]: [mi] is the index of the least [f] seen so far, and
    a later node replaces it only when its [f] is strictly smaller. *)
Fixpoint scanMin (l : list Node) (i mi : nat) (fmi : Z) : nat :=
  match l with
  | [] => mi
  | n :: l' =>
      if f n <? fmi then scanMin l' (S i) i (f n) else scanMin l' (S i) mi fmi
  end.

(** [popMin()] on a non-empty [open]: the node at [mi] and the array with
    that one element spliced out. *)
Definition popMin (op : list Node) : option (Node * list Node) :=
  match op with
  | [] => None
  | n0 :: rest =>
      let mi := scanMin rest 1 0 (f n0) in
      Some (nth mi op n0, delete mi op)
  end.

(** The result of running a loop on a budget of iterations. *)
Inductive outcome (A : Type) : Type :=
| OutOfFuel : outcome A
| Done : A → outcome A.
Arguments OutOfFuel {A}.
Arguments Done {A} _.

(** The reconstruction loop: [while (parent.get(cur))]; a key is followed
    only when its entry is a non-empty string. *)
Fixpoint reconstruct (fuel : nat) (par : gmap string (option string))
    (cur : string) (path : list State) : outcome (list State) :=
  match fuel with
  | O => OutOfFuel
  | S fuel' =>
      match par !! cur with
      | Some (Some p) =>
          if String.eqb p "" then Done path
          else reconstruct fuel' par p (path ++ [unkey cur])
      | _ => Done path
      end
  end.

(** One pass of the [for (const n of neighbors(s))] body. *)
Definition relax (gs : Z) (s : State) (q : Search) (n : State) : Search :=
  let ng := gs + 1 in
  let nk := key n in
  let better :=
    match gbest q !! nk with
    | None => true
    | Some old => ng <? old
    end in
  if better then
    let nf := ng + manhattan n in
    {| open := open q ++ [mkNode nf ng n];
       parent := <[nk := Some (key s)]> (parent q);
       gbest := <[nk := ng]> (gbest q) |}
  else q.

Definition expand (gs : Z) (s : State) (q : Search) : Search :=
  fold_left (relax gs s) (neighbors s) q.

(** The main loop, [while (open.length)]; [None] is the [null] result. *)
Fixpoint search (rfuel fuel : nat) (q : Search) : outcome (option (list State)) :=
  match fuel with
  | O => OutOfFuel
  | S fuel' =>
      match popMin (open q) with
      | None => Done None
      | Some (nd, rest) =>
          if String.eqb (key (st nd)) (key GOAL) then
            match reconstruct rfuel (parent q) (key (st nd)) [] with
            | OutOfFuel => OutOfFuel
            | Done path => Done (Some (rev path))
            end
          else
            search rfuel fuel'
              (expand (g nd) (st nd)
                 {| open := rest; parent := parent q; gbest := gbest q |})
      end
  end.

Definition init (start : State) : Search :=
  {| open := [mkNode (manhattan start) 0 start];
     parent := {[ key start := None ]};
     gbest := {[ key start := 0 ]} |}.

Definition aStar (fuel : nat) (start : State) : outcome (option (list State)) :=
  if String.eqb (key start) (key GOAL) then Done (Some [])
  else search fuel fuel (init start).

(** ** Click-to-move handler *)

(** [tryMove(i)] of the component, on its [busy] flag and its [state];
    [Some s] is the call [setState(s)], [None] an early [return]. *)
Definition tryMove (busy : bool) (state : State) (i : Z) : option State :=
  if busy then None
  else
    let z := indexOf state 0 in
    let zr := row z in
    let zc := col z in
    let ir := row i in
    let ic := col i in
    if negb (Z.abs (zr - ir) + Z.abs (zc - ic) =? 1) then None
    else Some (swap state z i).

(** ** The move generator on arrays held by reference *)

(** [neighbors] once more, with its arrays in a store: [s.slice()] allocates
    a new array, and the swap writes into the array it is given.  It is
    used to show that the argument of [neighbors] is left as it was. *)
Abbreviation Heap := (gmap nat (list Z)).

Definition slice (h : Heap) (l : nat) : Heap * nat :=
  let l' := fresh (dom h) in
  (<[l' := default [] (h !! l)]> h, l').

Definition swap_ref (h : Heap) (l : nat) (i j : Z) : Heap :=
  <[l := swap (default [] (h !! l)) i j]> h.

Definition neighbors_ref (h : Heap) (ls : nat) : Heap * list nat :=
  let s := default [] (h !! ls) in
  let z := pos s 0 in
  let r := row z in
  let c := col z in
  fold_left
    (fun acc d =>
       let nr := r + fst d in
       let nc := c + snd d in
       if (nr <? 0) || (nr >? 2) || (nc <? 0) || (nc >? 2) then acc
       else
         let nz := nr * 3 + nc in
         let ht := slice (fst acc) ls in
         (swap_ref (fst ht) (snd ht) z nz, snd acc ++ [snd ht]))
    deltas (h, []).

(** ** The component *)

(** The state of [App], its handlers, the image slicer and the grid.  They
    are kept in a module of their own: [size], [state], [r], [c] and [v] are
    names of the source. *)
Module Component.

(** A rectangle of the canvas: corner, width and height. *)
Record Rect := mkRect { rx : Z; ry : Z; rw : Z; rh : Z }.

(** What a data URL of [sliceImage] shows: a rectangle cut from the canvas,
    or the solid square made for the blank. *)
Inductive Tile : Type :=
| Slice (rect : Rect)
| Blank.

(** The state of [App]: [tiles], [state] and [busy], and with them the rest
    of the path that a [doSolve] waiting on its timer has still to show. *)
Record App := mkApp {
  tiles : option (list Tile);
  state : State;
  busy : bool;
  pending : list State
}.

(** The component as it is mounted. *)
Definition mounted : App :=
  {| tiles := None; state := GOAL; busy := false; pending := [] |}.

(** [setState(s)]. *)
Definition setState (a : App) (s : State) : App :=
  {| tiles := tiles a; state := s; busy := busy a; pending := pending a |}.

(** [doShuffle()]. *)
Definition doShuffle (rnd : nat → spec_float) (a : App) : App :=
  setState a (shuffleSolvable rnd).

(** [doSolve()] up to its first [await], [r] being what [aStar(state)]
    returned: on [null], and on a path with no state, [busy] is set and
    cleared again at once; otherwise the first state is shown and the rest
    waits for the timer. *)
Definition doSolve (r : option (list State)) (a : App) : App :=
  match r with
  | None => a
  | Some [] => a
  | Some (s :: rest) =>
      {| tiles := tiles a; state := s; busy := true; pending := rest |}
  end.

(** [doSolve()] when its timer fires: the next state of the path is shown,
    or, the path being finished, [busy] is cleared. *)
Definition resume (a : App) : App :=
  match pending a with
  | s :: rest =>
      {| tiles := tiles a; state := s; busy := busy a; pending := rest |}
  | [] =>
      {| tiles := tiles a; state := state a; busy := false; pending := [] |}
  end.

(** A click on the cell [i] of the grid. *)
Definition click (i : Z) (a : App) : App :=
  match tryMove (busy a) (state a) i with
  | Some s => setState a s
  | None => a
  end.

(** What can happen to the component: an image has been sliced, a button
    that is not disabled is pressed, a cell of the grid is clicked, or the
    timer of a running [doSolve] fires. *)
Inductive step : App → App → Prop :=
| step_tiles a ts :
    step a {| tiles := Some ts; state := state a; busy := busy a;
              pending := pending a |}
| step_shuffle a rnd :
    is_Some (tiles a) → (∀ k, is_random (rnd k)) →
    step a (doShuffle rnd a)
| step_solve a fuel r :
    is_Some (tiles a) → busy a = false → aStar fuel (state a) = Done r →
    step a (doSolve r a)
| step_reset a :
    is_Some (tiles a) → busy a = false → step a (setState a GOAL)
| step_click a i :
    0 ≤ i < Z.of_nat (length (state a)) → step a (click i a)
| step_timer a :
    busy a = true → step a (resume a).

(** [const size = 600]. *)
Definition size : Z := 600.

(** The fit-cover crop of [sliceImage]: the rectangle [(sx, sy, sw, sh)] of
    the image that is drawn onto the canvas.  The sides of an image are
    integers: the halves are exact in double precision, and the rounding of
    the ratio [arImg] does not change how it compares with 1. *)
Definition crop (width height : Z) : Q * Q * Q * Q :=
  let arImg := (inject_Z width / inject_Z height)%Q in
  let sx := 0%Q in
  let sy := 0%Q in
  let sw := inject_Z width in
  let sh := inject_Z height in
  if Qlt_le_dec 1 arImg then
    let sw := inject_Z height in
    let sx := ((inject_Z width - sw) / 2)%Q in
    (sx, sy, sw, sh)
  else
    let sh := inject_Z width in
    let sy := ((inject_Z height - sh) / 2)%Q in
    (sx, sy, sw, sh).

(** The nine squares cut from the canvas, row by row; [size / 3] is exact. *)
Definition slice_urls : list Tile :=
  fold_left
    (λ urls r,
       fold_left
         (λ urls c2,
            urls ++ [Slice (mkRect (c2 * (size / 3)) (r * (size / 3))
                              (size / 3) (size / 3))])
         [0; 1; 2] urls)
    [0; 1; 2] [].

(** The argument of [setTiles]: [[...urls.slice(0, 8), blank]]. *)
Definition sliceImage : list Tile := take 8 slice_urls ++ [Blank].

(** [l[i]], which is [undefined] outside the array. *)
Definition js_get {A} (l : list A) (i : Z) : option A :=
  if i <? 0 then None else l !! Z.to_nat i.

(** A cell of [grid]. *)
Record Cell := mkCell { v : Z; idx : Z; r : Z; c : Z; url : option Tile }.

(** The memo [grid]. *)
Definition grid (tiles : option (list Tile)) (state : State) : list Cell :=
  imap
    (λ i v,
       let idx := Z.of_nat i in
       let r := row idx in
       let c := col idx in
       let url := ts ← tiles; js_get ts (if v =? 0 then 8 else v - 1) in
       mkCell v idx r c url)
    state.

(** [Array.from({ length: 12 }, (_, i) => `/photos/img${i + 1}.jpg`)]. *)
Definition PORTFOLIO : list string :=
  (λ i : nat, "/photos/img" +:+ pretty (Z.of_nat i + 1) +:+ ".jpg") <$> seq 0 12.

(** The [src] that [loadRandomPhoto] gives the image, for a draw [u] of
    [Math.random()]; [None] is [undefined]. *)
Definition loadRandomPhoto (u : spec_float) : option string :=
  js_get PORTFOLIO (floor (fmul u (of_int (Z.of_nat (length PORTFOLIO))))).

(** The states the component can be in. *)
Definition app_reachable (a : App) : Prop := rtc step mounted a.

(** What holds of every state of the component. *)
Definition app_inv (a : App) : Prop :=
  valid (state a) ∧ isSolvable (state a) = true ∧
  Forall (λ s, valid s ∧ isSolvable s = true) (pending a) ∧
  (busy a = false → pending a = []).

(** The point [(x, y)] lies in a rectangle. *)
Definition inside (rect : Rect) (x y : Z) : Prop :=
  rx rect ≤ x < rx rect + rw rect ∧ ry rect ≤ y < ry rect + rh rect.

(** The square of the canvas that lies where a cell lies in the grid. *)
Definition own_slice (cell : Cell) : Tile :=
  Slice (mkRect (c cell * (size / 3)) (r cell * (size / 3)) (size / 3) (size / 3)).

(** A run in which Shuffle is pressed while [doSolve] waits for its last
    timer: an image is loaded, the tile at cell 7 is clicked, Solve is
    pressed, and Shuffle is pressed before the timer fires. *)
Definition shuffled_while_solving : App :=
  doShuffle (λ _, half)
    (doSolve (Some [GOAL])
       (click 7 {| tiles := Some []; state := GOAL; busy := false;
                   pending := [] |})).

End Component.

(** * Specification vocabulary *)

(** The four candidate directions of the move generator. *)
Inductive direction : Type := Down | Up | Right | Left.

(** The cell reached from cell [z] by one step in a direction, when that
    cell is on the 3x3 grid. *)
Definition target (z : Z) (d : direction) : option Z :=
  match d with
  | Down => if row z <? 2 then Some (z + 3) else None
  | Up => if 0 <? row z then Some (z - 3) else None
  | Right => if col z <? 2 then Some (z + 1) else None
  | Left => if 0 <? col z then Some (z - 1) else None
  end.

(** Manhattan distance between two cells of the grid. *)
Definition cell_dist (i j : Z) : Z :=
  Z.abs (row i - row j) + Z.abs (col i - col j).

(** Two cells share a side. *)
Definition adjacent (i j : Z) : Prop := cell_dist i j = 1.

(** The cells [nz] that [neighbors] swaps the blank at [z] with, in the order
    in which the loop over [deltas] produces them. *)
Definition moves (z : Z) : list Z :=
  fold_left
    (fun out d =>
       let nr := row z + fst d in
       let nc := col z + snd d in
       if (nr <? 0) || (nr >? 2) || (nc <? 0) || (nc >? 2) then out
       else out ++ [nr * 3 + nc])
    deltas [].

(** A legal move: [n] is one of the successors of [s]. *)
Definition edge (s n : State) : Prop := n ∈ neighbors s.

(** [is_walk s p]: the states of [p] are visited in order from [s], each by
    one legal move from the one before ([s] itself is not part of [p]). *)
Fixpoint is_walk (s : State) (p : list State) : Prop :=
  match p with
  | [] => True
  | n :: p' => edge s n ∧ is_walk n p'
  end.

(** The state a walk [p] from [s] ends in. *)
Definition walk_end (s : State) (p : list State) : State := List.last p s.

(** [t] can be reached from [s] by legal moves. *)
Definition reachable (s t : State) : Prop :=
  ∃ p, is_walk s p ∧ walk_end s p = t.

(** [p] solves [s] in the least possible number of moves. *)
Definition optimal_solution (s : State) (p : list State) : Prop :=
  is_walk s p ∧ walk_end s p = GOAL ∧
  ∀ p', is_walk s p' → walk_end s p' = GOAL → (length p ≤ length p')%nat.

(** The inversion count written by recursion on the array: every element is
    compared with the ones after it. *)
Definition gtz (x y : Z) : Z := if x >? y then 1 else 0.

Fixpoint count_gt (x : Z) (l : list Z) : Z :=
  match l with
  | [] => 0
  | y :: l' => gtz x y + count_gt x l'
  end.

Fixpoint inv_list (a : list Z) : Z :=
  match a with
  | [] => 0
  | x :: a' => count_gt x a' + inv_list a'
  end.

(** The exchange of the labels 1 and 2. *)
Definition relabel (x : Z) : Z :=
  if x =? 1 then 2 else if x =? 2 then 1 else x.

(** How often [v] occurs in [l]. *)
Fixpoint occ (v : Z) (l : list Z) : Z :=
  match l with
  | [] => 0
  | y :: l' => (if y =? v then 1 else 0) + occ v l'
  end.

(** The pairs of positions that hold [u] and, further on, [v]. *)
Fixpoint ordered_pairs (u v : Z) (l : list Z) : Z :=
  match l with
  | [] => 0
  | x :: l' => (if x =? u then occ v l' else 0) + ordered_pairs u v l'
  end.

(** A cell value that prints as one decimal digit. *)
Definition digit (x : Z) : Prop := 0 ≤ x ≤ 9.

(** ** Vocabulary of the search proof *)

(** Every configuration, as a list. *)
Definition all_states : list State := permutations GOAL.

(** A cost no recorded [g] reaches: recorded costs stay below the number of
    recorded configurations. *)
Definition cost_bound : nat := S (length all_states).

(** What the best-cost map can still lose at [s]: its recorded cost, or
    [cost_bound] while [s] is undiscovered. *)
Definition slack (q : Search) (s : State) : nat :=
  match gbest q !! key s with
  | None => cost_bound
  | Some gb => Z.to_nat gb
  end.

(** The variant of the main loop: a push pays for itself twice over by the
    cost it lowers, a pop shortens the open list. *)
Definition potential (q : Search) : nat :=
  (2 * sum_list_with (slack q) all_states + length (open q))%nat.

(** A number of iterations that is enough for both loops of the solver. *)
Definition fuel_bound : nat :=
  (2 * (cost_bound * length all_states) + cost_bound + 2)%nat.

(** [s] has a node in the open list that carries its recorded cost. *)
Definition live (q : Search) (s : State) (gb : Z) : Prop :=
  ∃ nd, nd ∈ open q ∧ st nd = s ∧ g nd = gb.

(** [s] was expanded at its recorded cost: each successor is recorded at
    no more than one move beyond. *)
Definition closed (q : Search) (s : State) (gb : Z) : Prop :=
  s ≠ GOAL ∧ ∀ n, edge s n → ∃ gn, gbest q !! key n = Some gn ∧ gn ≤ gb + 1.

(** Every recorded configuration is live or closed, [pending] being the
    node under expansion. *)
Definition frontier_inv (q : Search) (pending : State → Z → Prop) : Prop :=
  ∀ s gb, valid s → gbest q !! key s = Some gb →
          live q s gb ∨ closed q s gb ∨ pending s gb.

(** A node of the search: a configuration reached from the start, with a
    cost that is recorded or has been improved on since. *)
Definition node_ok (start : State) (q : Search) (s : State) (gs : Z) : Prop :=
  valid s ∧ 0 ≤ gs ∧ gs < Z.of_nat (size (gbest q)) ∧ reachable start s ∧
  ∃ gb, gbest q !! key s = Some gb ∧ gb ≤ gs.

(** The invariant of the open list and the two maps. *)
Record search_inv (start : State) (q : Search) : Prop := {
  inv_start : gbest q !! key start = Some 0 ∧ parent q !! key start = Some None;
  inv_open : ∀ nd, nd ∈ open q →
    node_ok start q (st nd) (g nd) ∧ f nd = g nd + manhattan (st nd);
  inv_gbest : ∀ k gb, gbest q !! k = Some gb →
    0 ≤ gb < Z.of_nat (size (gbest q)) ∧ ∃ s, valid s ∧ k = key s;
  inv_parent : ∀ s gb, valid s → gbest q !! key s = Some gb → s ≠ start →
    ∃ p gp, valid p ∧ parent q !! key s = Some (Some (key p)) ∧ edge p s ∧
            gbest q !! key p = Some gp ∧ gp + 1 ≤ gb
}.

(** What a result of the solver has to be: [null] only when the goal is out
    of reach, and otherwise a shortest solution. *)
Definition result_ok (start : State) (r : option (list State)) : Prop :=
  match r with
  | None => ¬ reachable start GOAL
  | Some path => optimal_solution start path
  end.

(** The invariant inside the loop over the successors of the popped node
    [(s0, g0)]; [seen] are the successors handled so far. *)
Record expanding (start s0 : State) (g0 : Z) (q : Search) (seen : list State)
    : Prop := {
  ex_inv : search_inv start q;
  ex_node : node_ok start q s0 g0;
  ex_goal : s0 ≠ GOAL;
  ex_frontier : frontier_inv q (λ s gb, s = s0 ∧ gb = g0);
  ex_seen : ∀ n, n ∈ seen → ∃ gn, gbest q !! key n = Some gn ∧ gn ≤ g0 + 1
}.

(** The state left by [relax] when it records a better cost for [n]. *)
Definition improved (g0 : Z) (s0 : State) (q : Search) (n : State) : Search :=
  {| open := open q ++ [mkNode (g0 + 1 + manhattan n) (g0 + 1) n];
     parent := <[key n := Some (key s0)]> (parent q);
     gbest := <[key n := g0 + 1]> (gbest q) |}.


(** ** A table of distances to the goal *)

(** A trie over the cells of a configuration; a leaf holds a distance. *)
Inductive trie : Type :=
| TEmpty
| TLeaf (d : nat)
| TNode (c0 c1 c2 c3 c4 c5 c6 c7 c8 : trie).

Definition sel (z : Z) (t : trie) : trie :=
  match t with
  | TNode c0 c1 c2 c3 c4 c5 c6 c7 c8 =>
      match z with
      | 0 => c0 | 1 => c1 | 2 => c2 | 3 => c3 | 4 => c4
      | 5 => c5 | 6 => c6 | 7 => c7 | 8 => c8 | _ => TEmpty
      end
  | _ => TEmpty
  end.

Definition upd (z : Z) (t c : trie) : trie :=
  match t with
  | TNode c0 c1 c2 c3 c4 c5 c6 c7 c8 =>
      match z with
      | 0 => TNode c c1 c2 c3 c4 c5 c6 c7 c8
      | 1 => TNode c0 c c2 c3 c4 c5 c6 c7 c8
      | 2 => TNode c0 c1 c c3 c4 c5 c6 c7 c8
      | 3 => TNode c0 c1 c2 c c4 c5 c6 c7 c8
      | 4 => TNode c0 c1 c2 c3 c c5 c6 c7 c8
      | 5 => TNode c0 c1 c2 c3 c4 c c6 c7 c8
      | 6 => TNode c0 c1 c2 c3 c4 c5 c c7 c8
      | 7 => TNode c0 c1 c2 c3 c4 c5 c6 c c8
      | 8 => TNode c0 c1 c2 c3 c4 c5 c6 c7 c
      | _ => t
      end
  | _ =>
      match z with
      | 0 => TNode c TEmpty TEmpty TEmpty TEmpty TEmpty TEmpty TEmpty TEmpty
      | 1 => TNode TEmpty c TEmpty TEmpty TEmpty TEmpty TEmpty TEmpty TEmpty
      | 2 => TNode TEmpty TEmpty c TEmpty TEmpty TEmpty TEmpty TEmpty TEmpty
      | 3 => TNode TEmpty TEmpty TEmpty c TEmpty TEmpty TEmpty TEmpty TEmpty
      | 4 => TNode TEmpty TEmpty TEmpty TEmpty c TEmpty TEmpty TEmpty TEmpty
      | 5 => TNode TEmpty TEmpty TEmpty TEmpty TEmpty c TEmpty TEmpty TEmpty
      | 6 => TNode TEmpty TEmpty TEmpty TEmpty TEmpty TEmpty c TEmpty TEmpty
      | 7 => TNode TEmpty TEmpty TEmpty TEmpty TEmpty TEmpty TEmpty c TEmpty
      | 8 => TNode TEmpty TEmpty TEmpty TEmpty TEmpty TEmpty TEmpty TEmpty c
      | _ => t
      end
  end.

Fixpoint tlookup (s : list Z) (t : trie) : option nat :=
  match s with
  | [] => match t with TLeaf d => Some d | _ => None end
  | z :: s' => tlookup s' (sel z t)
  end.

Fixpoint tinsert (s : list Z) (d : nat) (t : trie) : trie :=
  match s with
  | [] => TLeaf d
  | z :: s' => upd z t (tinsert s' d (sel z t))
  end.

(** Breadth-first search from the goal, level by level. *)
Definition visit (d : nat) (acc : trie * list State) (n : State)
    : trie * list State :=
  match tlookup n (fst acc) with
  | Some _ => acc
  | None => (tinsert n d (fst acc), n :: snd acc)
  end.

Fixpoint bfs_level (frontier : list State) (d : nat) (acc : trie * list State)
    : trie * list State :=
  match frontier with
  | [] => acc
  | s :: fr => bfs_level fr d (fold_left (visit d) (neighbors s) acc)
  end.

Fixpoint bfs (fuel : nat) (frontier : list State) (d : nat) (t : trie) : trie :=
  match fuel with
  | O => t
  | S k =>
      match frontier with
      | [] => t
      | _ =>
          let r := bfs_level frontier (S d) (t, []) in
          bfs k (snd r) (S d) (fst r)
      end
  end.

Definition dist_tab : trie := bfs 40 [GOAL] 0 (tinsert GOAL 0 TEmpty).

(** Every way of taking one element out of a list. *)
Fixpoint picks (pre : list Z) (l : list Z) : list (Z * list Z) :=
  match l with
  | [] => []
  | x :: l' => (x, rev_append pre l') :: picks (x :: pre) l'
  end.

(** A test run on every arrangement of [l] ([n] is the length of [l]). *)
Fixpoint forall_perms (n : nat) (l : list Z) (P : State → bool) : bool :=
  match n with
  | O => P []
  | S n' =>
      forallb (λ xr, forall_perms n' (snd xr) (λ s, P (fst xr :: s))) (picks [] l)
  end.

Definition even_inversions (s : State) : bool :=
  Z.even (inv_list (List.filter (λ x, negb (x =? 0)) s)).

Definition state_eqb (a b : State) : bool := bool_decide (a = b).

(** What the table must say about a solvable configuration: its entry is 0
    only for the goal, and an entry [S d] comes with a successor at [d]. *)
Definition check_state (t : trie) (s : State) : bool :=
  if even_inversions s then
    match tlookup s t with
    | None => false
    | Some O => state_eqb s GOAL
    | Some (S d) =>
        existsb
          (λ n, match tlookup n t with Some d' => Nat.eqb d' d | None => false end)
          (neighbors s)
    end
  else true.

(** ** Vocabulary of the further properties *)

(** The digit loop of [Number], as a function of its own. *)
Fixpoint Number_go (acc : Z) (str : string) : Z :=
  match str with
  | EmptyString => acc
  | String c str' => Number_go (acc * 10 + digit_of c) str'
  end.

(** No character of [str] is the separator. *)
Fixpoint comma_free (str : string) : bool :=
  match str with
  | EmptyString => true
  | String c str' => negb (Ascii.eqb c ",") && comma_free str'
  end.

(** An integer that JavaScript holds exactly and prints digit by digit. *)
Definition safe_integer (x : Z) : Prop := - 2 ^ 53 < x < 2 ^ 53.

(** A draw of the random source that makes [random_index] pick [j]: the
    double of the least multiple of 1/256 that is at least [j / (i + 1)]. *)
Definition draw_for (j i : Z) : spec_float :=
  binary_normalize prec emax ((256 * j + i) / (i + 1)) (-8) false.

(** A configuration that is as far from the goal as any. *)
Definition far_instance : State := [8; 6; 7; 2; 5; 4; 3; 0; 1].

(** What makes the table exact: the entry of the goal is 0, no entry exceeds
    31, and a move lowers an entry by at most one. *)
Definition check_bound (t : trie) (s : State) : bool :=
  if even_inversions s then
    match tlookup s t with
    | None => false
    | Some d =>
        Nat.leb d 31 && (negb (state_eqb s GOAL) || Nat.eqb d 0) &&
        forallb
          (λ n, match tlookup n t with Some d' => Nat.leb d (S d') | None => false end)
          (neighbors s)
    end
  else true.

Definition check_table (t : trie) : bool :=
  forall_perms 9 GOAL (check_bound t) &&
  match tlookup far_instance t with Some d => Nat.eqb d 31 | None => false end.

(** ** Instances *)

(** The instance of the specification's last scenario, and the path the
    solver finds for it. *)
Definition hard_instance : State := [8; 1; 2; 7; 0; 3; 6; 5; 4].

Definition hard_path : list State :=
  [[8; 1; 2; 0; 7; 3; 6; 5; 4]; [0; 1; 2; 8; 7; 3; 6; 5; 4];
   [1; 0; 2; 8; 7; 3; 6; 5; 4]; [1; 2; 0; 8; 7; 3; 6; 5; 4];
   [1; 2; 3; 8; 7; 0; 6; 5; 4]; [1; 2; 3; 8; 7; 4; 6; 5; 0];
   [1; 2; 3; 8; 7; 4; 6; 0; 5]; [1; 2; 3; 8; 7; 4; 0; 6; 5];
   [1; 2; 3; 0; 7; 4; 8; 6; 5]; [1; 2; 3; 7; 0; 4; 8; 6; 5];
   [1; 2; 3; 7; 4; 0; 8; 6; 5]; [1; 2; 3; 7; 4; 5; 8; 6; 0];
   [1; 2; 3; 7; 4; 5; 8; 0; 6]; [1; 2; 3; 7; 4; 5; 0; 8; 6];
   [1; 2; 3; 0; 4; 5; 7; 8; 6]; [1; 2; 3; 4; 0; 5; 7; 8; 6];
   [1; 2; 3; 4; 5; 0; 7; 8; 6]; [1; 2; 3; 4; 5; 6; 7; 8; 0]].

(** One move away from the goal. *)
Definition one_move : State := [1; 2; 3; 4; 5; 6; 7; 0; 8].

(** The goal with the tiles 1 and 2 exchanged. *)
Definition swapped12 : State := [2; 1; 3; 4; 5; 6; 7; 8; 0].

Ltac filter_blank :=
  repeat first
    [ rewrite filter_cons_True by (assumption || (symmetry; assumption))
    | rewrite filter_cons_False by (intros Hq; by apply Hq) ];
  rewrite ?filter_nil.

Ltac norm_of_nat :=
  repeat match goal with
         | H : context [Z.of_nat ?n] |- _ =>
             is_ground n; let v := eval vm_compute in (Z.of_nat n) in
             change (Z.of_nat n) with v in H
         | |- context [Z.of_nat ?n] =>
             is_ground n; let v := eval vm_compute in (Z.of_nat n) in
             change (Z.of_nat n) with v
         end.

(** * Arrays: [indexOf] and the swap *)

Lemma indexOf_from_lookup i s v k :
  0 ≤ i → s !! k = Some v → (∀ j, (j < k)%nat → s !! j ≠ Some v) →
  indexOf_from i s v = i + Z.of_nat k.
Proof.
  revert i k. induction s as [|x s IH]; intros i k Hi Hk Hfirst; [done|].
  simpl. destruct k as [|k]; simpl in Hk.
  - injection Hk as ->. rewrite Z.eqb_refl. lia.
  - destruct (Z.eqb_spec x v) as [->|_].
    + by destruct (Hfirst 0%nat); [lia|].
    + rewrite (IH (i + 1) k); [lia|lia|done|].
      intros j Hj. apply (Hfirst (S j)). lia.
Qed.

Lemma indexOf_NoDup s v k :
  NoDup s → s !! k = Some v → indexOf s v = Z.of_nat k.
Proof.
  intros Hnd Hk. unfold indexOf.
  rewrite (indexOf_from_lookup 0 s v k); [lia|lia|done|].
  intros j Hj Hj'. pose proof (NoDup_lookup s j k v Hnd Hj' Hk). lia.
Qed.

Lemma aget_lookup t i x :
  0 ≤ i → t !! Z.to_nat i = Some x → aget t i = x.
Proof. intros _ H. unfold aget. by apply nth_lookup_Some with (d := 0) in H. Qed.

Lemma length_swap t i j : length (swap t i j) = length t.
Proof. unfold swap, aset. by rewrite !length_insert. Qed.

Lemma swap_lookup t i j x y k :
  t !! i = Some x → t !! j = Some y →
  swap t (Z.of_nat i) (Z.of_nat j) !! k =
    if decide (k = j) then Some x
    else if decide (k = i) then Some y
    else t !! k.
Proof.
  intros Hi Hj. unfold swap, aset.
  rewrite (aget_lookup t (Z.of_nat i) x), (aget_lookup t (Z.of_nat j) y);
    rewrite ?Nat2Z.id; [|lia|done|lia|done].
  pose proof (lookup_lt_Some _ _ _ Hi). pose proof (lookup_lt_Some _ _ _ Hj).
  destruct (decide (k = j)) as [->|Hkj].
  - rewrite list_lookup_insert_eq; [done|]. by rewrite length_insert.
  - rewrite list_lookup_insert_ne by done.
    destruct (decide (k = i)) as [->|Hki].
    + by rewrite list_lookup_insert_eq.
    + by rewrite list_lookup_insert_ne.
Qed.

Lemma swap_Permutation t i j x y :
  t !! i = Some x → t !! j = Some y →
  swap t (Z.of_nat i) (Z.of_nat j) ≡ₚ t.
Proof.
  intros Hi Hj. unfold swap, aset.
  rewrite (aget_lookup t (Z.of_nat i) x), (aget_lookup t (Z.of_nat j) y);
    rewrite ?Nat2Z.id; [|lia|done|lia|done].
  by apply Permutation_insert_swap.
Qed.

(** * Configurations *)

Lemma valid_GOAL : valid GOAL.
Proof. by unfold valid. Qed.

Lemma valid_length s : valid s → length s = 9%nat.
Proof. unfold valid. intros H. by rewrite H. Qed.

Lemma valid_NoDup s : valid s → NoDup s.
Proof.
  unfold valid. intros H. rewrite H. unfold GOAL.
  compute_done.
Qed.

Lemma valid_elem s v : valid s → v ∈ s ↔ 0 ≤ v ≤ 8.
Proof.
  unfold valid. intros H. rewrite H. unfold GOAL. rewrite !elem_of_cons, elem_of_nil. lia.
Qed.

Lemma valid_lookup s k :
  valid s → (k < 9)%nat → ∃ x, s !! k = Some x ∧ 0 ≤ x ≤ 8.
Proof.
  intros H Hk. destruct (lookup_lt_is_Some_2 s k) as [x Hx].
  { rewrite (valid_length s H). lia. }
  exists x. split; [done|]. apply (valid_elem s x H).
  by apply list_elem_of_lookup_2 in Hx.
Qed.

(** The cell that holds a value: [pos] is its index. *)
Lemma valid_pos s v :
  valid s → 0 ≤ v ≤ 8 →
  ∃ k, (k < 9)%nat ∧ s !! k = Some v ∧ pos s v = Z.of_nat k.
Proof.
  intros H Hv. apply (valid_elem s v H) in Hv.
  apply list_elem_of_lookup_1 in Hv as [k Hk]. exists k.
  split; [|split; [done|]].
  - rewrite <- (valid_length s H). by eapply lookup_lt_Some.
  - by apply indexOf_NoDup; [apply valid_NoDup|].
Qed.

Lemma valid_swap s i j :
  valid s → (i < 9)%nat → (j < 9)%nat →
  valid (swap s (Z.of_nat i) (Z.of_nat j)).
Proof.
  intros H Hi Hj.
  destruct (valid_lookup s i H Hi) as (x & Hx & _).
  destruct (valid_lookup s j H Hj) as (y & Hy & _).
  unfold valid. by rewrite (swap_Permutation s i j x y).
Qed.

(** * The move generator *)

Lemma neighbors_moves s :
  neighbors s = swap s (pos s 0) <$> moves (pos s 0).
Proof.
  unfold neighbors, moves, deltas. cbn [fold_left fst snd].
  repeat match goal with
         | |- context [if ?b then _ else _] => destruct b
         end; reflexivity.
Qed.

Lemma moves_table :
  moves 0 = [3; 1] ∧ moves 1 = [4; 2; 0] ∧ moves 2 = [5; 1] ∧
  moves 3 = [6; 0; 4] ∧ moves 4 = [7; 1; 5; 3] ∧ moves 5 = [8; 2; 4] ∧
  moves 6 = [3; 7] ∧ moves 7 = [4; 8; 6] ∧ moves 8 = [5; 7].
Proof. repeat split; reflexivity. Qed.

Lemma moves_adjacent z nz :
  0 ≤ z ≤ 8 → nz ∈ moves z ↔ 0 ≤ nz ≤ 8 ∧ adjacent z nz.
Proof.
  intros Hz. unfold adjacent.
  assert (z = 0 ∨ z = 1 ∨ z = 2 ∨ z = 3 ∨ z = 4 ∨ z = 5 ∨ z = 6 ∨ z = 7 ∨ z = 8)
    as Hc by lia.
  split.
  - intros Hin. destruct_or!; subst z; vm_compute moves in Hin;
      repeat (apply elem_of_cons in Hin as [->|Hin]; [by vm_compute|]);
      by apply elem_of_nil in Hin.
  - intros [Hnz Hd].
    assert (nz = 0 ∨ nz = 1 ∨ nz = 2 ∨ nz = 3 ∨ nz = 4 ∨ nz = 5 ∨ nz = 6
            ∨ nz = 7 ∨ nz = 8) as Hc' by lia.
    clear Hz Hnz. destruct_or! Hc; subst z; destruct_or! Hc'; subst nz;
      vm_compute in Hd; try discriminate Hd; vm_compute moves; set_solver.
Qed.

Lemma moves_range z nz : 0 ≤ z ≤ 8 → nz ∈ moves z → 0 ≤ nz ≤ 8 ∧ nz ≠ z.
Proof.
  intros Hz Hin. apply moves_adjacent in Hin as [Hnz Hadj]; [|done].
  split; [done|]. intros ->. unfold adjacent, cell_dist in Hadj. lia.
Qed.

Lemma indexOf_from_range i s v :
  indexOf_from i s v = -1 ∨ i ≤ indexOf_from i s v < i + Z.of_nat (length s).
Proof.
  revert i. induction s as [|x s IH]; intros i; [by left|].
  cbn [indexOf_from length]. destruct (x =? v); [right; lia|].
  destruct (IH (i + 1)) as [->|H]; [by left|right; lia].
Qed.

(** On an array of length 9 the swaps of [neighbors] stay inside the array. *)
Lemma neighbors_in_range (s : State) nz :
  length s = 9%nat → nz ∈ moves (pos s 0) →
  0 ≤ pos s 0 < 9 ∧ 0 ≤ nz < 9.
Proof.
  intros Hlen Hnz. unfold pos, indexOf in *.
  destruct (indexOf_from_range 0 s 0) as [E|Hr].
  - rewrite E in Hnz. by apply elem_of_nil in Hnz.
  - rewrite Hlen in Hr. split; [lia|].
    destruct (moves_range (indexOf_from 0 s 0) nz); [lia|done|lia].
Qed.

(** The blank of a configuration. *)
Lemma valid_blank s :
  valid s → ∃ k, (k < 9)%nat ∧ s !! k = Some 0 ∧ pos s 0 = Z.of_nat k.
Proof. intros H. apply valid_pos; [done|lia]. Qed.

Lemma edge_swap s n :
  valid s → edge s n →
  ∃ k j, (k < 9)%nat ∧ (j < 9)%nat ∧ s !! k = Some 0 ∧ pos s 0 = Z.of_nat k ∧
         Z.of_nat j ∈ moves (Z.of_nat k) ∧ n = swap s (Z.of_nat k) (Z.of_nat j).
Proof.
  intros Hv He. unfold edge in He. rewrite neighbors_moves in He.
  destruct (valid_blank s Hv) as (k & Hk & Hsk & Hpos). rewrite Hpos in He.
  apply list_elem_of_fmap in He as (nz & -> & Hnz).
  destruct (moves_range (Z.of_nat k) nz) as [Hr _]; [lia|done|].
  exists k, (Z.to_nat nz). rewrite Z2Nat.id by lia.
  repeat split; try done. lia.
Qed.

Lemma valid_edge s n : valid s → edge s n → valid n.
Proof.
  intros Hv He.
  destruct (edge_swap s n Hv He) as (k & j & Hk & Hj & _ & _ & _ & ->).
  by apply valid_swap.
Qed.

Lemma swap_blank_lookup s k j :
  valid s → (k < 9)%nat → (j < 9)%nat → s !! k = Some 0 →
  let n := swap s (Z.of_nat k) (Z.of_nat j) in
  n !! j = Some 0 ∧ (j ≠ k → n !! k = s !! j) ∧
  ∀ i, i ≠ k → i ≠ j → n !! i = s !! i.
Proof.
  intros Hv Hk Hj Hsk n. destruct (valid_lookup s j Hv Hj) as (y & Hy & _).
  subst n. repeat split.
  - rewrite (swap_lookup s k j 0 y) by done. by rewrite decide_True.
  - intros Hjk. rewrite (swap_lookup s k j 0 y) by done.
    rewrite decide_False by done. by rewrite decide_True.
  - intros i Hik Hij. rewrite (swap_lookup s k j 0 y) by done.
    by rewrite !decide_False.
Qed.

Lemma pos_swap_blank s k j :
  valid s → (k < 9)%nat → (j < 9)%nat → s !! k = Some 0 →
  pos (swap s (Z.of_nat k) (Z.of_nat j)) 0 = Z.of_nat j.
Proof.
  intros Hv Hk Hj Hsk. apply indexOf_NoDup.
  - apply valid_NoDup. by apply valid_swap.
  - by apply swap_blank_lookup.
Qed.

Lemma swap_blank_inj s k j j' :
  valid s → (k < 9)%nat → s !! k = Some 0 → 0 ≤ j ≤ 8 → 0 ≤ j' ≤ 8 →
  swap s (Z.of_nat k) j = swap s (Z.of_nat k) j' → j = j'.
Proof.
  intros Hv Hk Hsk Hj Hj' Heq.
  rewrite <- (Z2Nat.id j), <- (Z2Nat.id j') in Heq |- * by lia.
  rewrite <- (pos_swap_blank s k (Z.to_nat j)), <- (pos_swap_blank s k (Z.to_nat j'));
    try done; try lia.
  by rewrite Heq.
Qed.

Lemma NoDup_moves z : 0 ≤ z ≤ 8 → NoDup (moves z).
Proof.
  intros Hz.
  assert (z = 0 ∨ z = 1 ∨ z = 2 ∨ z = 3 ∨ z = 4 ∨ z = 5 ∨ z = 6 ∨ z = 7 ∨ z = 8)
    as Hc by lia.
  clear Hz. destruct_or!; subst z; compute_done.
Qed.

Lemma NoDup_neighbors s : valid s → NoDup (neighbors s).
Proof.
  intros Hv. rewrite neighbors_moves.
  destruct (valid_blank s Hv) as (k & Hk & Hsk & ->).
  apply NoDup_fmap_2_strong; [|apply NoDup_moves; lia].
  intros j j' Hj Hj'.
  apply (swap_blank_inj s k j j' Hv Hk Hsk).
  - apply (moves_range (Z.of_nat k)); [lia|done].
  - apply (moves_range (Z.of_nat k)); [lia|done].
Qed.

Lemma aget_lookup_eq (t u : list Z) i j :
  t !! i = u !! j → aget t (Z.of_nat i) = aget u (Z.of_nat j).
Proof.
  intros H. unfold aget. rewrite !Nat2Z.id.
  rewrite !nth_lookup. by rewrite H.
Qed.

(** The move generator on the store allocates its results and never writes
    to an array that was there before. *)
Lemma neighbors_ref_spec h ls s :
  h !! ls = Some s →
  (∀ l, l ∈ dom h → (neighbors_ref h ls).1 !! l = h !! l) ∧
  ((neighbors_ref h ls).1 !!.) <$> (neighbors_ref h ls).2 = Some <$> neighbors s.
Proof.
  intros Hs. unfold neighbors_ref, neighbors. rewrite Hs. simpl.
  set (z := pos s 0).
  assert (∀ ds acc out,
    (∀ l, l ∈ dom h → acc.1 !! l = h !! l) →
    (acc.1 !!.) <$> acc.2 = Some <$> out →
    let r := fold_left
      (fun acc d =>
         if (row z + fst d <? 0) || (row z + fst d >? 2)
            || (col z + snd d <? 0) || (col z + snd d >? 2) then acc
         else (swap_ref (slice acc.1 ls).1 (slice acc.1 ls).2 z
                 ((row z + fst d) * 3 + (col z + snd d)),
               acc.2 ++ [(slice acc.1 ls).2])) ds acc in
    (∀ l, l ∈ dom h → r.1 !! l = h !! l) ∧
    (r.1 !!.) <$> r.2 = Some <$> fold_left
      (fun out d =>
         if (row z + fst d <? 0) || (row z + fst d >? 2)
            || (col z + snd d <? 0) || (col z + snd d >? 2) then out
         else out ++ [swap s z ((row z + fst d) * 3 + (col z + snd d))]) ds out)
    as Hfold.
  { induction ds as [|d ds IH]; intros acc out Hkeep Hout; [done|].
    cbn [fold_left].
    destruct ((row z + fst d <? 0) || (row z + fst d >? 2)
              || (col z + snd d <? 0) || (col z + snd d >? 2));
      [by apply IH|].
    assert (ls ∈ dom h) as Hls by (apply elem_of_dom; eauto).
    assert (acc.1 !! ls = Some s) as Hacc by (by rewrite Hkeep).
    set (t := fresh (dom acc.1)).
    assert (t ∉ dom acc.1) as Ht by apply is_fresh.
    assert (∀ l, is_Some (acc.1 !! l) → l ≠ t) as Hne.
    { intros l Hl ->. by apply Ht, elem_of_dom. }
    apply IH; unfold slice, swap_ref; cbn [fst snd]; fold t.
    - intros l Hl. rewrite <- (Hkeep l Hl).
      assert (l ≠ t) by (apply Hne; rewrite Hkeep by done; by apply elem_of_dom).
      by rewrite !lookup_insert_ne.
    - rewrite !fmap_app. f_equal.
      + rewrite <- Hout. apply list_fmap_ext. intros i l Hil.
        assert (is_Some (acc.1 !! l)) as Hl.
        { assert (((acc.1 !!.) <$> acc.2) !! i = Some (acc.1 !! l)) as E
            by (by rewrite list_lookup_fmap, Hil).
          rewrite Hout, list_lookup_fmap in E.
          destruct (out !! i) as [o|]; simplify_eq/=. by exists o. }
        by rewrite !lookup_insert_ne by (symmetry; by apply Hne).
      + cbn. rewrite lookup_insert_eq. do 2 f_equal.
        rewrite lookup_insert_eq. by rewrite Hacc. }
  apply (Hfold deltas (h, []) []); done.
Qed.

Lemma edge_moves s k j :
  valid s → (k < 9)%nat → s !! k = Some 0 → 0 ≤ j ≤ 8 →
  edge s (swap s (Z.of_nat k) j) ↔ j ∈ moves (Z.of_nat k).
Proof.
  intros Hv Hk Hsk Hj. unfold edge. rewrite neighbors_moves.
  unfold pos. rewrite (indexOf_NoDup s 0 k) by (by try apply valid_NoDup). split.
  - intros (j' & Heq & Hj')%list_elem_of_fmap.
    apply (swap_blank_inj s k j j' Hv Hk Hsk Hj) in Heq; [by subst|].
    apply (moves_range (Z.of_nat k)); [lia|done].
  - intros Hin. by apply list_elem_of_fmap_2.
Qed.

(** C5.  For a configuration [C] with its blank at cell [z]: [neighbors C]
    has 2 elements when [z] is a corner, 3 when it is on an edge and 4 when
    it is the centre; it lists the in-grid candidates in the order down, up,
    right, left; every element is a configuration that is [C] with the blank
    and one adjacent cell exchanged; no two elements are equal; and, with the
    arrays in a store, the array of [C] is the same after the call. *)
Theorem neighbors_spec (C : State) :
  valid C →
  let z := pos C 0 in
  (z ∈ [0; 2; 6; 8] → length (neighbors C) = 2%nat) ∧
  (z ∈ [1; 3; 5; 7] → length (neighbors C) = 3%nat) ∧
  (z = 4 → length (neighbors C) = 4%nat) ∧
  neighbors C = omap (λ d, swap C z <$> target z d) [Down; Up; Right; Left] ∧
  Forall (λ n, valid n ∧
               ∃ nz, 0 ≤ nz ≤ 8 ∧ adjacent z nz ∧ n = swap C z nz ∧
                     aget n nz = 0 ∧ aget n z = aget C nz ∧
                     ∀ k, 0 ≤ k ≤ 8 → k ≠ z → k ≠ nz → aget n k = aget C k)
         (neighbors C) ∧
  NoDup (neighbors C) ∧
  ∀ (h : Heap) (ls : nat), h !! ls = Some C →
    (neighbors_ref h ls).1 !! ls = Some C ∧
    ((neighbors_ref h ls).1 !!.) <$> (neighbors_ref h ls).2
      = Some <$> neighbors C.
Proof.
  intros Hv. cbv zeta. rewrite (neighbors_moves C).
  destruct (valid_blank C Hv) as (k & Hk & Hck & Hpos). rewrite Hpos.
  assert (∃ z, z = Z.of_nat k) as [z Hz] by eauto. rewrite <- Hz.
  assert (z = 0 ∨ z = 1 ∨ z = 2 ∨ z = 3 ∨ z = 4 ∨ z = 5 ∨ z = 6 ∨ z = 7 ∨ z = 8)
    as Hc by lia.
  split_and!.
  - rewrite length_fmap, !elem_of_cons, elem_of_nil.
    intros [->|[->|[->|[->|[]]]]]; reflexivity.
  - rewrite length_fmap, !elem_of_cons, elem_of_nil.
    intros [->|[->|[->|[->|[]]]]]; reflexivity.
  - rewrite length_fmap. intros ->; reflexivity.
  - clear Hz. destruct_or!; rewrite Hc; reflexivity.
  - rewrite Hz, <- Hpos, <- neighbors_moves.
    apply list.Forall_forall. intros n Hn. split; [exact (valid_edge C n Hv Hn)|].
    destruct (edge_swap C n Hv Hn) as (k' & j & Hk' & Hj & Hck' & Hpos' & Hmv & ->).
    assert (k' = k) as -> by lia.
    exists (Z.of_nat j). rewrite Hpos.
    destruct (moves_range (Z.of_nat k) (Z.of_nat j)) as [_ Hne]; [lia|done|].
    destruct (swap_blank_lookup C k j Hv Hk Hj Hck) as (H1 & H2 & H3).
    split_and!; try lia; try done.
    + apply (moves_adjacent (Z.of_nat k)); [lia|done].
    + by apply aget_lookup; [lia|rewrite Nat2Z.id].
    + apply aget_lookup_eq, H2. lia.
    + intros i Hi Hik Hij. rewrite <- (Z2Nat.id i) by lia.
      apply aget_lookup_eq, H3; lia.
  - rewrite Hz, <- Hpos, <- neighbors_moves. by apply NoDup_neighbors.
  - rewrite Hz, <- Hpos, <- neighbors_moves.
    intros h ls Hls. destruct (neighbors_ref_spec h ls C Hls) as [Hkeep Hout].
    split; [|done]. rewrite Hkeep; [done|]. apply elem_of_dom. eauto.
Qed.

(** * The click-to-move handler *)

Lemma tryMove_unfold s i :
  tryMove false s i =
    if cell_dist (pos s 0) i =? 1 then Some (swap s (pos s 0) i) else None.
Proof.
  unfold tryMove, cell_dist, pos. by destruct (_ =? 1).
Qed.

(** A click that is let through makes a legal move. *)
Lemma tryMove_edge C i s' :
  valid C → 0 ≤ i ≤ 8 → tryMove false C i = Some s' →
  s' = swap C (pos C 0) i ∧ edge C s'.
Proof.
  intros Hv Hi. rewrite tryMove_unfold.
  destruct (valid_blank C Hv) as (k & Hk & Hck & Hpos). rewrite Hpos.
  destruct (Z.eqb_spec (cell_dist (Z.of_nat k) i) 1) as [Hd|Hd]; [|done].
  intros [= <-]. split; [done|].
  apply (edge_moves C k i Hv Hk Hck Hi), moves_adjacent; [lia|done].
Qed.

(** On an array of length 9 the swap of [tryMove] stays inside the array. *)
Lemma tryMove_in_range (s : State) i s' :
  length s = 9%nat → 0 ≤ i ≤ 8 → tryMove false s i = Some s' →
  0 ≤ indexOf s 0 < 9.
Proof.
  intros Hlen Hi. rewrite tryMove_unfold. unfold pos, indexOf.
  destruct (indexOf_from_range 0 s 0) as [->|Hr]; [|rewrite Hlen in Hr; lia].
  assert (i = 0 ∨ i = 1 ∨ i = 2 ∨ i = 3 ∨ i = 4 ∨ i = 5 ∨ i = 6 ∨ i = 7 ∨ i = 8)
    as Hc by lia.
  clear Hi. destruct_or!; subst i; discriminate.
Qed.

(** C9.  For a configuration [C] and a clicked cell [i] of the grid, the
    guard of [tryMove] lets the click through exactly when exchanging the
    blank with cell [i] gives an element of [neighbors C], and the state it
    then sets is that element. *)
Theorem tryMove_spec (C : State) (i : Z) :
  valid C → 0 ≤ i ≤ 8 →
  (is_Some (tryMove false C i) ↔ swap C (pos C 0) i ∈ neighbors C) ∧
  (∀ s', tryMove false C i = Some s' →
         s' = swap C (pos C 0) i ∧ s' ∈ neighbors C).
Proof.
  intros Hv Hi. rewrite tryMove_unfold.
  destruct (valid_blank C Hv) as (k & Hk & Hck & Hpos). rewrite Hpos.
  pose proof (edge_moves C k i Hv Hk Hck Hi) as He. unfold edge in He.
  pose proof (moves_adjacent (Z.of_nat k) i) as Hadj. unfold adjacent in Hadj.
  destruct (Z.eqb_spec (cell_dist (Z.of_nat k) i) 1) as [Hd|Hd].
  - assert (swap C (Z.of_nat k) i ∈ neighbors C) as Hin.
    { apply He, Hadj; [lia|done]. }
    split; [by split; eauto|]. by intros s' [= <-].
  - split; [|done]. split; [by intros [? [=]]|].
    intros Hin%He. apply Hadj in Hin; [|lia]. tauto.
Qed.

(** * The solvability classifier *)

Lemma gtz_range x y : 0 ≤ gtz x y ≤ 1.
Proof. unfold gtz. destruct (x >? y); lia. Qed.

Lemma gtz_anti x y : x ≠ y → gtz x y + gtz y x = 1.
Proof. unfold gtz. intros H. destruct (Z.gtb_spec x y), (Z.gtb_spec y x); lia. Qed.

Lemma count_gt_nonneg x l : 0 ≤ count_gt x l.
Proof. induction l as [|y l IH]; simpl; [lia|]. pose proof (gtz_range x y). lia. Qed.

Lemma inv_list_nonneg a : 0 ≤ inv_list a.
Proof. induction a as [|x a IH]; simpl; [lia|]. pose proof (count_gt_nonneg x a). lia. Qed.

Lemma inner_loop x (a : list Z) n : ∀ k inv0,
  (k + n ≤ length a)%nat →
  fold_left (fun inv j => if x >? nth j a 0 then inv + 1 else inv) (seq k n) inv0
  = inv0 + count_gt x (take n (drop k a)).
Proof.
  induction n as [|n IH]; intros k inv0 Hk; simpl; [lia|].
  destruct (lookup_lt_is_Some_2 a k) as [y Hy]; [lia|].
  rewrite IH by lia. rewrite (drop_S a y k Hy). simpl.
  rewrite (nth_lookup_Some a k 0 y Hy). unfold gtz. destruct (x >? y); lia.
Qed.

Lemma inversions_loop_inv_list a : inversions_loop a = inv_list a.
Proof.
  unfold inversions_loop.
  assert (∀ n k inv0, (k + n = length a)%nat →
    fold_left
      (fun inv i =>
         fold_left (fun inv j => if nth i a 0 >? nth j a 0 then inv + 1 else inv)
           (seq (S i) (length a - S i)) inv) (seq k n) inv0
    = inv0 + inv_list (drop k a)) as H.
  { induction n as [|n IH]; intros k inv0 Hk; simpl.
    - rewrite drop_ge by lia. simpl. lia.
    - destruct (lookup_lt_is_Some_2 a k) as [y Hy]; [lia|].
      rewrite inner_loop by lia. rewrite IH by lia.
      rewrite (drop_S a y k Hy). simpl.
      rewrite (nth_lookup_Some a k 0 y Hy).
      rewrite take_ge by (rewrite length_drop; lia). lia. }
  rewrite (H (length a) 0%nat 0) by lia. rewrite drop_0. lia.
Qed.


Lemma valid_shape s :
  valid s → ∃ a b c d e f g h i, s = [a; b; c; d; e; f; g; h; i].
Proof.
  intros H%valid_length.
  do 9 (destruct s as [|? s]; [discriminate|]). destruct s; [|discriminate].
  eauto 10.
Qed.

Lemma inversions_edge s n :
  valid s → edge s n → (inversions n - inversions s) mod 2 = 0.
Proof.
  intros Hv He.
  destruct (edge_swap s n Hv He) as (k & j & Hk & Hj & Hsk & _ & Hmv & ->).
  pose proof (valid_NoDup s Hv) as Hnd.
  destruct (valid_shape s Hv) as (a & b & c & d & e & f & g & h & i & ->).
  clear Hv He Hj.
  unfold inversions. rewrite !inversions_loop_inv_list.
  destruct k as [|[|[|[|[|[|[|[|[|k]]]]]]]]]; [..|lia].
  all: clear Hk; simpl in Hsk; injection Hsk as ->.
  all: destruct moves_table as (M0 & M1 & M2 & M3 & M4 & M5 & M6 & M7 & M8).
  all: norm_of_nat.
  all: rewrite ?M0, ?M1, ?M2, ?M3, ?M4, ?M5, ?M6, ?M7, ?M8 in Hmv.
  all: clear M0 M1 M2 M3 M4 M5 M6 M7 M8.
  all: repeat (apply elem_of_cons in Hmv as [Hmv|Hmv]; [rewrite Hmv; clear Hmv|]).
  all: try (by apply elem_of_nil in Hmv).
  all: rewrite !list.NoDup_cons, !not_elem_of_cons in Hnd; destruct_and!.
  all: cbv [swap aget aset Z.to_nat Pos.to_nat Pos.iter_op Nat.add nth
            list_insert insert].
  all: filter_blank.
  all: rewrite ?Z.sub_diag; try reflexivity.
  all: cbn [inv_list count_gt].
  all: repeat match goal with
              | H : ?x ≠ ?y |- _ => pose proof (gtz_anti x y H); clear H
              | H : _ ∉ [] |- _ => clear H
              end.
  all: Z.div_mod_to_equations; lia.
Qed.

Lemma isSolvable_edge s n : valid s → edge s n → isSolvable n = isSolvable s.
Proof.
  intros Hv He. pose proof (inversions_edge s n Hv He) as H.
  unfold isSolvable.
  assert (0 ≤ inversions s ∧ 0 ≤ inversions n) as [Hs Hn].
  { unfold inversions. rewrite !inversions_loop_inv_list.
    split; apply inv_list_nonneg. }
  rewrite !Z.rem_mod_nonneg by lia.
  destruct (Z.eqb_spec (inversions n mod 2) 0), (Z.eqb_spec (inversions s mod 2) 0);
    try done; exfalso; Z.div_mod_to_equations; lia.
Qed.

Lemma walk_end_cons s n p : walk_end s (n :: p) = walk_end n p.
Proof.
  unfold walk_end. revert s n. induction p as [|m p IH]; intros s n; [done|].
  change (List.last (n :: m :: p) s) with (List.last (m :: p) s).
  by rewrite (IH s m), (IH n m).
Qed.

Lemma isSolvable_walk s p :
  valid s → is_walk s p → isSolvable (walk_end s p) = isSolvable s.
Proof.
  revert s. induction p as [|n p IH]; intros s Hv Hw; [done|].
  destruct Hw as [He Hw]. rewrite walk_end_cons.
  rewrite (IH n); [by apply isSolvable_edge|exact (valid_edge s n Hv He)|done].
Qed.

(** C10.  A legal move keeps the parity of the inversion count: every
    element of [neighbors C] has the inversion parity of [C], hence the same
    [isSolvable]; so has every state reached from [C] by legal moves, and
    every state that [tryMove] sets. *)
Theorem parity_invariant (C : State) :
  valid C →
  (∀ n, n ∈ neighbors C →
        inversions n mod 2 = inversions C mod 2 ∧ isSolvable n = isSolvable C) ∧
  (∀ p, is_walk C p → isSolvable (walk_end C p) = isSolvable C) ∧
  (∀ i s', 0 ≤ i ≤ 8 → tryMove false C i = Some s' →
           isSolvable s' = isSolvable C).
Proof.
  intros Hv. split_and!.
  - intros n Hn. split; [|by apply isSolvable_edge].
    pose proof (inversions_edge C n Hv Hn). Z.div_mod_to_equations; lia.
  - intros p Hp. by apply isSolvable_walk.
  - intros i s' Hi Hs'.
    destruct (tryMove_edge C i s' Hv Hi Hs') as [_ Hin].
    by apply isSolvable_edge.
Qed.

(** * The heuristic *)

Lemma manhattan_sum s :
  manhattan s =
    cell_dist (pos s 1) 0 + cell_dist (pos s 2) 1 + cell_dist (pos s 3) 2 +
    cell_dist (pos s 4) 3 + cell_dist (pos s 5) 4 + cell_dist (pos s 6) 5 +
    cell_dist (pos s 7) 6 + cell_dist (pos s 8) 7.
Proof.
  unfold manhattan, cell_dist. cbn [fold_left].
  change (1 - 1) with 0; change (2 - 1) with 1; change (3 - 1) with 2;
    change (4 - 1) with 3; change (5 - 1) with 4; change (6 - 1) with 5;
    change (7 - 1) with 6; change (8 - 1) with 7.
  ring.
Qed.

Lemma cell_dist_triangle i j x : cell_dist i x ≤ cell_dist i j + cell_dist j x.
Proof. unfold cell_dist. lia. Qed.

Lemma cell_dist_sym i j : cell_dist i j = cell_dist j i.
Proof. unfold cell_dist. lia. Qed.

Lemma pos_swap_other s k j t v :
  valid s → (k < 9)%nat → (j < 9)%nat → s !! k = Some 0 → s !! j = Some t →
  1 ≤ v ≤ 8 → v ≠ t →
  pos (swap s (Z.of_nat k) (Z.of_nat j)) v = pos s v.
Proof.
  intros Hv Hk Hj Hsk Hsj Hr Hvt.
  destruct (valid_pos s v Hv) as (m & Hm & Hsm & ->); [lia|].
  apply indexOf_NoDup; [by apply valid_NoDup, valid_swap|].
  destruct (swap_blank_lookup s k j Hv Hk Hj Hsk) as (_ & _ & H3).
  rewrite H3; [done|intros ->|intros ->]; simplify_eq; lia.
Qed.

Lemma pos_swap_tile s k j t :
  valid s → (k < 9)%nat → (j < 9)%nat → j ≠ k →
  s !! k = Some 0 → s !! j = Some t →
  pos (swap s (Z.of_nat k) (Z.of_nat j)) t = Z.of_nat k.
Proof.
  intros Hv Hk Hj Hjk Hsk Hsj.
  apply indexOf_NoDup; [by apply valid_NoDup, valid_swap|].
  destruct (swap_blank_lookup s k j Hv Hk Hj Hsk) as (_ & H2 & _).
  by rewrite H2.
Qed.

Lemma manhattan_edge s n : valid s → edge s n → manhattan s ≤ manhattan n + 1.
Proof.
  intros Hv He.
  destruct (edge_swap s n Hv He) as (k & j & Hk & Hj & Hsk & _ & Hmv & ->).
  destruct (moves_range (Z.of_nat k) (Z.of_nat j)) as [_ Hne]; [lia|done|].
  apply moves_adjacent in Hmv as [_ Hadj]; [|lia]. unfold adjacent in Hadj.
  destruct (valid_lookup s j Hv Hj) as (t & Hsj & Ht).
  assert (t ≠ 0) as Ht0.
  { intros ->. pose proof (NoDup_lookup s j k 0 (valid_NoDup s Hv) Hsj Hsk). lia. }
  assert (pos s t = Z.of_nat j) as Hpt
    by (by apply indexOf_NoDup; [apply valid_NoDup|]).
  pose proof (cell_dist_triangle (Z.of_nat j) (Z.of_nat k) (t - 1)) as Htri.
  rewrite (cell_dist_sym (Z.of_nat j) (Z.of_nat k)), Hadj in Htri.
  pose proof (pos_swap_tile s k j t Hv Hk Hj ltac:(lia) Hsk Hsj) as Hnt.
  pose proof (λ v, pos_swap_other s k j t v Hv Hk Hj Hsk Hsj) as Hno.
  rewrite !manhattan_sum.
  assert (t = 1 ∨ t = 2 ∨ t = 3 ∨ t = 4 ∨ t = 5 ∨ t = 6 ∨ t = 7 ∨ t = 8)
    as Hc by lia.
  clear Ht Ht0.
  destruct_or!; subst t; rewrite Hnt, ?Hno by lia; rewrite Hpt;
    change (1 - 1) with 0 in Htri; change (2 - 1) with 1 in Htri;
    change (3 - 1) with 2 in Htri; change (4 - 1) with 3 in Htri;
    change (5 - 1) with 4 in Htri; change (6 - 1) with 5 in Htri;
    change (7 - 1) with 6 in Htri; change (8 - 1) with 7 in Htri; lia.
Qed.

Lemma manhattan_GOAL : manhattan GOAL = 0.
Proof. reflexivity. Qed.

(** The heuristic never exceeds the length of a walk to the goal. *)
Lemma manhattan_admissible s p :
  valid s → is_walk s p → walk_end s p = GOAL →
  manhattan s ≤ Z.of_nat (length p).
Proof.
  revert s. induction p as [|n p IH]; intros s Hv Hw Hend.
  - unfold walk_end in Hend. simpl in Hend. subst s. by rewrite manhattan_GOAL.
  - destruct Hw as [He Hw]. rewrite walk_end_cons in Hend.
    pose proof (IH n (valid_edge s n Hv He) Hw Hend).
    pose proof (manhattan_edge s n Hv He). simpl length. lia.
Qed.

(** * The identity key *)

Lemma key_cons x s :
  key (x :: s) = match s with [] => pretty x | _ => pretty x +:+ "," +:+ key s end.
Proof. by destruct s. Qed.

Lemma pretty_digit x :
  digit x →
  ∃ c, pretty x = String c "" ∧ Ascii.eqb c "," = false ∧ Number (String c "") = x.
Proof.
  intros Hx.
  assert (x = 0 ∨ x = 1 ∨ x = 2 ∨ x = 3 ∨ x = 4 ∨ x = 5 ∨ x = 6 ∨ x = 7 ∨ x = 8
          ∨ x = 9) as Hc by (unfold digit in Hx; lia).
  clear Hx. destruct_or!; subst x; eexists; (split; [reflexivity|]); done.
Qed.

Lemma unkey_key s : s ≠ [] → Forall digit s → unkey (key s) = s.
Proof.
  induction s as [|x s IH]; intros Hne Hd; [done|].
  apply list.Forall_cons in Hd as [Hx Hs].
  destruct (pretty_digit x Hx) as (c & Hp & Hc & Hdc).
  rewrite key_cons, Hp. unfold unkey. destruct s as [|y s].
  - cbn [split_comma]. rewrite Hc. cbn [split_comma fmap list_fmap].
    change ("" +:+ String c "") with (String c ""). by rewrite Hdc.
  - change (String c "" +:+ "," +:+ key (y :: s))
      with (String c (String "," (key (y :: s)))).
    cbn [split_comma]. rewrite Hc. simpl Ascii.eqb. cbn iota.
    cbn [fmap list_fmap]. change ("" +:+ String c "") with (String c "").
    f_equal; [done|]. by apply IH.
Qed.

Lemma valid_digits s : valid s → s ≠ [] ∧ Forall digit s.
Proof.
  intros Hv. split.
  - intros ->. by apply valid_length in Hv.
  - apply list.Forall_forall. intros x Hx.
    apply (valid_elem s x Hv) in Hx. unfold digit. lia.
Qed.

Lemma key_inj s t : valid s → valid t → key s = key t → s = t.
Proof.
  intros Hs Ht Hk. destruct (valid_digits s Hs), (valid_digits t Ht).
  rewrite <- (unkey_key s), <- (unkey_key t) by done. by rewrite Hk.
Qed.

Lemma unkey_key_valid s : valid s → unkey (key s) = s.
Proof. intros Hv. destruct (valid_digits s Hv). by apply unkey_key. Qed.

Lemma key_nonempty s : valid s → String.eqb (key s) "" = false.
Proof.
  intros Hv. destruct (valid_shape s Hv) as (a & b & c & d & e & f & g & h & i & ->).
  destruct (valid_digits _ Hv) as [_ Hd]. apply list.Forall_cons in Hd as [Ha _].
  destruct (pretty_digit a Ha) as (ch & Hp & _). rewrite key_cons, Hp. done.
Qed.

Lemma key_eqb s t : valid s → valid t → String.eqb (key s) (key t) = bool_decide (s = t).
Proof.
  intros Hs Ht. destruct (String.eqb_spec (key s) (key t)) as [E|E].
  - apply key_inj in E; [|done..]. by rewrite bool_decide_eq_true_2.
  - rewrite bool_decide_eq_false_2; [done|]. by intros ->.
Qed.

(** * The open list *)

Lemma scanMin_spec (op : list Node) l :
  ∀ i mi fmi ndm,
    drop i op = l → op !! mi = Some ndm → f ndm = fmi →
    (∀ nd, nd ∈ take i op → fmi ≤ f nd) →
    ∃ nd, op !! scanMin l i mi fmi = Some nd ∧ ∀ nd', nd' ∈ op → f nd ≤ f nd'.
Proof.
  induction l as [|n l IH]; intros i mi fmi ndm Hdrop Hmi Hf Hmin; simpl.
  - exists ndm. split; [done|]. intros nd' Hnd'. rewrite Hf. apply Hmin.
    rewrite take_ge; [done|]. apply drop_nil_inv in Hdrop. lia.
  - assert (op !! i = Some n) as Hi.
    { rewrite <- (Nat.add_0_r i), <- lookup_drop, Hdrop. done. }
    assert (drop (S i) op = l) as Hdrop'.
    { by rewrite (drop_S _ _ _ Hi) in Hdrop; injection Hdrop. }
    destruct (Z.ltb_spec (f n) fmi).
    + apply (IH (S i) i (f n) n); try done.
      intros nd. rewrite (take_S_r _ _ _ Hi), elem_of_app, list_elem_of_singleton.
      intros [Hnd| ->]; [|lia]. apply Hmin in Hnd. lia.
    + apply (IH (S i) mi fmi ndm); try done.
      intros nd. rewrite (take_S_r _ _ _ Hi), elem_of_app, list_elem_of_singleton.
      intros [Hnd| ->]; [|lia]. by apply Hmin.
Qed.

Lemma popMin_None op : popMin op = None ↔ op = [].
Proof. by destruct op. Qed.

Lemma popMin_Some op nd rest :
  popMin op = Some (nd, rest) →
  nd ∈ op ∧ op ≡ₚ nd :: rest ∧ ∀ nd', nd' ∈ op → f nd ≤ f nd'.
Proof.
  destruct op as [|n0 op0]; [done|]. unfold popMin. cbv zeta. intros [= <- <-].
  destruct (scanMin_spec (n0 :: op0) op0 1 0 (f n0) n0) as (nd & Hnd & Hmin);
    try done.
  { intros nd. simpl. rewrite take_0. intros ->%list_elem_of_singleton. lia. }
  change (match scanMin op0 1 0 (f n0) with
          | 0%nat => n0
          | S m => nth m op0 n0
          end) with (nth (scanMin op0 1 0 (f n0)) (n0 :: op0) n0).
  rewrite (nth_lookup_Some _ _ _ _ Hnd). split_and!; [|by apply delete_Permutation|done].
  by eapply list_elem_of_lookup_2.
Qed.

(** * Walks *)

Lemma is_walk_app s p p' :
  is_walk s (p ++ p') ↔ is_walk s p ∧ is_walk (walk_end s p) p'.
Proof.
  revert s. induction p as [|n p IH]; intros s.
  - unfold walk_end. simpl. tauto.
  - rewrite walk_end_cons. cbn [is_walk app]. rewrite IH. tauto.
Qed.

Lemma walk_end_app s p p' : walk_end s (p ++ p') = walk_end (walk_end s p) p'.
Proof.
  revert s. induction p as [|n p IH]; intros s; [done|].
  by rewrite <- app_comm_cons, !walk_end_cons, IH.
Qed.

Lemma reachable_refl s : reachable s s.
Proof. by exists []. Qed.

Lemma reachable_step a s n : reachable a s → edge s n → reachable a n.
Proof.
  intros (p & Hw & He) Hn. exists (p ++ [n]). split.
  - apply is_walk_app. rewrite He. simpl. tauto.
  - by rewrite walk_end_app.
Qed.

(** * The universe of configurations *)

Lemma valid_all_states s : valid s → s ∈ all_states.
Proof.
  intros Hv. unfold all_states. apply permutations_Permutation.
  symmetry. exact Hv.
Qed.

(** There are 9! configurations. *)
Lemma all_states_length : Z.of_nat (length all_states) = 362880.
Proof.
  assert (N.of_nat (length all_states) = 362880%N) as H
    by (vm_compute; reflexivity).
  lia.
Qed.

(** Nothing below depends on the list itself, only on its length and on its
    containing every configuration. *)
Global Opaque all_states.

Lemma fuel_bound_value : Z.of_nat fuel_bound = 263364877443.
Proof.
  unfold fuel_bound, cost_bound. pose proof all_states_length as H.
  rewrite !Nat2Z.inj_add, !Nat2Z.inj_mul, Nat2Z.inj_succ, H. reflexivity.
Qed.

Lemma size_list_to_set_le (l : list string) :
  (size (list_to_set l : gset string) ≤ length l)%nat.
Proof.
  induction l as [|x l IH]; [done|].
  rewrite list_to_set_cons, size_union_alt, size_singleton. simpl.
  assert (list_to_set l ∖ {[x]} ⊆ (list_to_set l : gset string)) as Hsub.
  { intros y Hy. by apply elem_of_difference in Hy as [? _]. }
  apply subseteq_size in Hsub. lia.
Qed.

Lemma size_keys_bound (m : gmap string Z) :
  (∀ k, is_Some (m !! k) → ∃ s, valid s ∧ k = key s) →
  (size m ≤ length all_states)%nat.
Proof.
  intros Hk. rewrite <- size_dom.
  etrans; [|etrans; [apply (size_list_to_set_le (key <$> all_states))|]].
  - apply subseteq_size. intros k Hin%elem_of_dom.
    destruct (Hk k Hin) as (s & Hs & ->).
    apply elem_of_list_to_set, list_elem_of_fmap_2. by apply valid_all_states.
  - by rewrite length_fmap.
Qed.

Lemma sum_list_with_le {A} (f1 f2 : A → nat) l :
  (∀ x, x ∈ l → (f1 x ≤ f2 x)%nat) →
  (sum_list_with f1 l ≤ sum_list_with f2 l)%nat.
Proof.
  induction l as [|y l IH]; intros H; simpl; [lia|].
  pose proof (H y ltac:(left)). 
  assert (sum_list_with f1 l ≤ sum_list_with f2 l)%nat by (apply IH; intros; apply H; by right).
  lia.
Qed.

Lemma sum_list_with_lt {A} (f1 f2 : A → nat) l x :
  x ∈ l → (f1 x < f2 x)%nat → (∀ y, y ∈ l → (f1 y ≤ f2 y)%nat) →
  (sum_list_with f1 l < sum_list_with f2 l)%nat.
Proof.
  induction l as [|y l IH]; intros Hx Hlt H; [by apply elem_of_nil in Hx|].
  simpl. pose proof (H y ltac:(left)).
  assert (∀ z, z ∈ l → (f1 z ≤ f2 z)%nat) as H' by (intros; apply H; by right).
  apply elem_of_cons in Hx as [->|Hx].
  - pose proof (sum_list_with_le f1 f2 l H'). lia.
  - pose proof (IH Hx Hlt H'). lia.
Qed.

Lemma sum_list_with_bound {A} (f1 : A → nat) c l :
  (∀ x, x ∈ l → (f1 x ≤ c)%nat) → (sum_list_with f1 l ≤ c * length l)%nat.
Proof.
  induction l as [|y l IH]; intros H; simpl; [lia|].
  pose proof (H y ltac:(left)).
  assert (sum_list_with f1 l ≤ c * length l)%nat by (apply IH; intros; apply H; by right).
  lia.
Qed.

(** * Invariants of the search *)

Section search.
Variable start : State.
Hypothesis start_valid : valid start.

Lemma size_gbest_bound q :
  search_inv start q → (size (gbest q) ≤ length all_states)%nat.
Proof.
  intros Hq. apply size_keys_bound. intros k [gb Hk].
  by destruct (inv_gbest start q Hq k gb Hk) as [_ ?].
Qed.

Lemma search_inv_init : search_inv start (init start).
Proof.
  split; unfold init; simpl.
  - by rewrite !lookup_singleton_eq.
  - intros nd ->%list_elem_of_singleton. simpl. split; [|done].
    unfold node_ok. simpl. rewrite map_size_singleton, lookup_singleton_eq.
    split_and!; try done; [apply reachable_refl|by exists 0].
  - intros k gb [<- <-]%lookup_singleton_Some. rewrite map_size_singleton.
    split; [lia|]. by exists start.
  - intros s gb Hs [Hk _]%lookup_singleton_Some Hne.
    destruct Hne. symmetry. by apply key_inj.
Qed.

Lemma frontier_inv_init : frontier_inv (init start) (λ _ _, False).
Proof.
  unfold init. intros s gb Hs. simpl. intros [Hk <-]%lookup_singleton_Some. left.
  apply key_inj in Hk as <-; [|done..].
  exists (mkNode (manhattan start) 0 start). split; [|done]. simpl. by left.
Qed.

Lemma relax_cases g0 s0 q n :
  (relax g0 s0 q n = q ∧
   ∃ old, gbest q !! key n = Some old ∧ old ≤ g0 + 1) ∨
  (relax g0 s0 q n = improved g0 s0 q n ∧
   ∀ old, gbest q !! key n = Some old → g0 + 1 < old).
Proof.
  unfold relax, improved. destruct (gbest q !! key n) as [old|] eqn:E.
  - destruct (Z.ltb_spec (g0 + 1) old).
    + right. split; [done|]. by intros ? [= <-].
    + left. split; [done|]. by exists old.
  - right. split; [done|]. by intros ? [=].
Qed.

Section improved.
Variables (s0 n : State) (g0 : Z) (q : Search) (seen : list State).
Hypothesis Hex : expanding start s0 g0 q seen.
Hypothesis Hedge : edge s0 n.
Hypothesis Hbetter : ∀ old, gbest q !! key n = Some old → g0 + 1 < old.

Let q' := improved g0 s0 q n.

Local Lemma imp_valid_s0 : valid s0.
Proof. by destruct (ex_node _ _ _ _ _ Hex) as (? & _). Qed.

Local Lemma imp_valid_n : valid n.
Proof. exact (valid_edge s0 n imp_valid_s0 Hedge). Qed.

Local Lemma imp_g0 : 0 ≤ g0.
Proof. by destruct (ex_node _ _ _ _ _ Hex) as (_ & ? & _). Qed.

Local Lemma imp_ne_start : n ≠ start.
Proof.
  intros ->. destruct (inv_start _ _ (ex_inv _ _ _ _ _ Hex)) as [H0 _].
  pose proof (Hbetter 0 H0). pose proof imp_g0. lia.
Qed.

Local Lemma imp_ne_s0 : n ≠ s0.
Proof.
  intros ->. destruct (ex_node _ _ _ _ _ Hex) as (_ & _ & _ & _ & gb & Hgb & Hle).
  pose proof (Hbetter gb Hgb). lia.
Qed.

Local Lemma imp_lookup s :
  valid s →
  gbest q' !! key s = if decide (s = n) then Some (g0 + 1) else gbest q !! key s.
Proof.
  intros Hs. unfold q', improved. simpl. destruct (decide (s = n)) as [->|Hne].
  - by rewrite lookup_insert_eq.
  - rewrite lookup_insert_ne; [done|]. intros Hk.
    apply key_inj in Hk; [by subst|apply imp_valid_n|done].
Qed.

Local Lemma imp_mono k gb :
  gbest q !! k = Some gb → ∃ gb', gbest q' !! k = Some gb' ∧ gb' ≤ gb.
Proof.
  intros Hk. unfold q', improved. simpl.
  destruct (decide (key n = k)) as [<-|Hne].
  - rewrite lookup_insert_eq. exists (g0 + 1). split; [done|].
    pose proof (Hbetter gb Hk). lia.
  - rewrite lookup_insert_ne by done. exists gb. split; [done|lia].
Qed.

Local Lemma imp_size : (size (gbest q) ≤ size (gbest q'))%nat.
Proof.
  unfold q', improved. simpl. rewrite map_size_insert.
  destruct (gbest q !! key n); simpl; lia.
Qed.

Local Lemma imp_new_cost : g0 + 1 < Z.of_nat (size (gbest q')).
Proof.
  unfold q', improved. simpl. rewrite map_size_insert.
  destruct (ex_node _ _ _ _ _ Hex) as (_ & _ & Hlt & _).
  destruct (gbest q !! key n) as [old|] eqn:E; simpl; [|lia].
  pose proof (Hbetter old eq_refl).
  destruct (inv_gbest _ _ (ex_inv _ _ _ _ _ Hex) _ _ E) as [? _]. lia.
Qed.

Local Lemma imp_node_ok s gs : node_ok start q s gs → node_ok start q' s gs.
Proof.
  intros (Hs & H0 & Hlt & Hr & gb & Hgb & Hle).
  pose proof imp_size. destruct (imp_mono _ _ Hgb) as (gb' & Hgb' & Hle').
  repeat split; try done; [lia|]. exists gb'. split; [done|lia].
Qed.

Lemma improved_inv : search_inv start q'.
Proof.
  pose proof (ex_inv _ _ _ _ _ Hex) as Hq.
  pose proof imp_valid_n as Hn. pose proof imp_new_cost as Hnew.
  pose proof imp_g0 as Hg0. pose proof imp_size as Hsz.
  split.
  - destruct (inv_start _ _ Hq) as [H1 H2]. unfold q', improved. simpl.
    assert (key n ≠ key start) as Hne.
    { intros Hk. apply key_inj in Hk; [|done..]. by apply imp_ne_start. }
    by rewrite !lookup_insert_ne.
  - intros nd [Hnd| ->%list_elem_of_singleton]%elem_of_app.
    + destruct (inv_open _ _ Hq nd Hnd) as [Hok Hf].
      split; [by apply imp_node_ok|done].
    + simpl. split; [|done]. repeat split; try done; [lia|..].
      * destruct (ex_node _ _ _ _ _ Hex) as (_ & _ & _ & Hr & _).
        by apply (reachable_step start s0).
      * exists (g0 + 1). rewrite imp_lookup by done.
        by rewrite decide_True.
  - intros k gb Hk. assert (Hk' := Hk). unfold q', improved in Hk'.
    simpl in Hk'. apply lookup_insert_Some in Hk' as [[<- <-]|[Hne Hk']].
    + split; [lia|]. by exists n.
    + destruct (inv_gbest _ _ Hq k gb Hk') as [Hr Hs]. split; [lia|done].
  - intros s gb Hs. rewrite imp_lookup by done.
    destruct (decide (s = n)) as [->|Hne].
    + intros [= <-] _. exists s0, (default 0 (gbest q !! key s0)).
      destruct (ex_node _ _ _ _ _ Hex) as (Hs0 & _ & _ & _ & gb & Hgb & Hle).
      rewrite Hgb. simpl. split_and!; try done.
      * unfold q', improved. simpl. by rewrite lookup_insert_eq.
      * rewrite imp_lookup by done. rewrite decide_False; [done|].
        intros E. by apply imp_ne_s0.
      * lia.
    + intros Hgb Hstart.
      destruct (inv_parent _ _ Hq s gb Hs Hgb Hstart)
        as (p & gp & Hp & Hpar & He & Hgp & Hle).
      destruct (imp_mono _ _ Hgp) as (gp' & Hgp' & Hle').
      exists p, gp'. split_and!; try done; [|lia].
      unfold q', improved. simpl. rewrite lookup_insert_ne; [done|].
      intros Hk. apply key_inj in Hk; [by subst|done..].
Qed.

Lemma improved_expanding : expanding start s0 g0 q' (n :: seen).
Proof.
  pose proof imp_valid_n as Hn.
  split.
  - apply improved_inv.
  - apply imp_node_ok, (ex_node _ _ _ _ _ Hex).
  - apply (ex_goal _ _ _ _ _ Hex).
  - intros s gb Hs. rewrite imp_lookup by done.
    destruct (decide (s = n)) as [->|Hne].
    + intros [= <-]. left.
      exists (mkNode (g0 + 1 + manhattan n) (g0 + 1) n). split; [|done].
      unfold q', improved. simpl. apply elem_of_app. right. by left.
    + intros Hgb.
      destruct (ex_frontier _ _ _ _ _ Hex s gb Hs Hgb) as [Hl|[Hc|Hp]].
      * left. destruct Hl as (nd & Hnd & ?). exists nd. split; [|done].
        unfold q', improved. simpl. apply elem_of_app. by left.
      * right; left. destruct Hc as [Hg Hc]. split; [done|].
        intros m Hm. destruct (Hc m Hm) as (gn & Hgn & Hle).
        destruct (imp_mono _ _ Hgn) as (gn' & Hgn' & Hle').
        exists gn'. split; [done|lia].
      * by right; right.
  - intros m [->|Hm]%elem_of_cons.
    + exists (g0 + 1). rewrite imp_lookup by done.
      rewrite decide_True by done. split; [done|lia].
    + destruct (ex_seen _ _ _ _ _ Hex m Hm) as (gn & Hgn & Hle).
      destruct (imp_mono _ _ Hgn) as (gn' & Hgn' & Hle').
      exists gn'. split; [done|lia].
Qed.

Lemma improved_potential : (potential q' < potential q)%nat.
Proof.
  pose proof imp_valid_n as Hn. pose proof imp_g0 as Hg0.
  pose proof (ex_inv _ _ _ _ _ Hex) as Hq.
  pose proof (size_gbest_bound q Hq) as Hsz.
  destruct (ex_node _ _ _ _ _ Hex) as (_ & _ & Hlt & _).
  assert (∀ s, s ∈ all_states → (slack q' s ≤ slack q s)%nat) as Hle.
  { intros s _. unfold slack.
    destruct (gbest q !! key s) as [gb|] eqn:E.
    - destruct (imp_mono _ _ E) as (gb' & -> & ?). lia.
    - destruct (gbest q' !! key s) as [gb'|] eqn:E'; [|lia].
      unfold q', improved in E'. simpl in E'.
      apply lookup_insert_Some in E' as [[_ <-]|[_ E']]; [|congruence].
      unfold cost_bound. lia. }
  assert (slack q' n < slack q n)%nat as Hlt'.
  { unfold slack. rewrite imp_lookup by done. rewrite decide_True by done.
    destruct (gbest q !! key n) as [old|] eqn:E.
    - pose proof (Hbetter old eq_refl). lia.
    - unfold cost_bound. lia. }
  pose proof (sum_list_with_lt (slack q') (slack q) all_states n
                (valid_all_states n Hn) Hlt' Hle).
  unfold potential, q', improved at 2. simpl. rewrite length_app. simpl.
  fold q'. lia.
Qed.
End improved.

Lemma relax_expanding s0 g0 q seen n :
  expanding start s0 g0 q seen → edge s0 n →
  expanding start s0 g0 (relax g0 s0 q n) (n :: seen) ∧
  (potential (relax g0 s0 q n) ≤ potential q)%nat.
Proof.
  intros Hex He. destruct (relax_cases g0 s0 q n) as [[-> Hold]|[-> Hb]].
  - split; [|done]. destruct Hex as [H1 H2 H3 H4 H5]. split; try done.
    intros m [->|Hm]%elem_of_cons; [done|by apply H5].
  - split; [by apply improved_expanding|].
    pose proof (improved_potential s0 n g0 q seen Hex He Hb). lia.
Qed.

Lemma expand_expanding s0 g0 l :
  ∀ q seen,
    expanding start s0 g0 q seen → (∀ n, n ∈ l → edge s0 n) →
    expanding start s0 g0 (fold_left (relax g0 s0) l q) (rev l ++ seen) ∧
    (potential (fold_left (relax g0 s0) l q) ≤ potential q)%nat.
Proof.
  induction l as [|n l IH]; intros q seen Hex Hl; [done|].
  destruct (relax_expanding s0 g0 q seen n Hex) as [Hex' Hpot].
  { apply Hl. by left. }
  destruct (IH (relax g0 s0 q n) (n :: seen) Hex') as [Hex'' Hpot'].
  { intros m Hm. apply Hl. by right. }
  cbn [fold_left rev]. rewrite <- app_assoc. split; [done|lia].
Qed.

(** One iteration of the main loop that does not return. *)
Lemma expand_inv q nd rest :
  search_inv start q → frontier_inv q (λ _ _, False) →
  popMin (open q) = Some (nd, rest) → st nd ≠ GOAL →
  let q' := expand (g nd) (st nd)
              {| open := rest; parent := parent q; gbest := gbest q |} in
  search_inv start q' ∧ frontier_inv q' (λ _ _, False) ∧
  (potential q' < potential q)%nat.
Proof.
  intros Hq Hfr Hpop Hgoal q'.
  destruct (popMin_Some _ _ _ Hpop) as (Hnd & Hperm & _).
  set (q0 := {| open := rest; parent := parent q; gbest := gbest q |}).
  assert (∀ nd', nd' ∈ rest → nd' ∈ open q) as Hrest.
  { intros nd' Hin. rewrite Hperm. by right. }
  assert (expanding start (st nd) (g nd) q0 []) as Hex.
  { destruct Hq as [H1 H2 H3 H4]. split.
    - split; try done. intros nd' Hin. by apply H2, Hrest.
    - by apply H2.
    - done.
    - intros s gb Hs Hgb. destruct (Hfr s gb Hs Hgb) as [Hl|[Hc|[]]].
      + destruct Hl as (nd' & Hin & Hst & Hg). rewrite Hperm in Hin.
        apply elem_of_cons in Hin as [->|Hin]; [by right; right|].
        left. by exists nd'.
      + by right; left.
    - by intros n Hn%elem_of_nil. }
  destruct (expand_expanding (st nd) (g nd) (neighbors (st nd)) q0 [] Hex)
    as [Hex' Hpot]; [done|].
  change (expanding start (st nd) (g nd) q' (rev (neighbors (st nd)) ++ []))
    in Hex'.
  change (potential q' ≤ potential q0)%nat in Hpot.
  destruct Hex' as [H1 H2 H3 H4 H5]. split_and!; [done| |].
  - intros s gb Hs Hgb. destruct (H4 s gb Hs Hgb) as [Hl|[Hc|[-> ->]]];
      [by left|by right; left|].
    right; left. split; [done|]. intros n Hn. apply H5.
    rewrite app_nil_r. apply list_elem_of_In, (proj1 (in_rev _ _)).
    by apply list_elem_of_In.
  - assert (potential q = S (potential q0)) as ->; [|lia].
    unfold potential, slack. simpl. rewrite Hperm. simpl. lia.
Qed.

(** Along any walk to the goal some open node is no worse than the walk. *)
Lemma frontier_walk q :
  search_inv start q → frontier_inv q (λ _ _, False) →
  ∀ p s gb,
    valid s → gbest q !! key s = Some gb → is_walk s p → walk_end s p = GOAL →
    ∃ nd, nd ∈ open q ∧ f nd ≤ gb + Z.of_nat (length p).
Proof.
  intros Hq Hfr. induction p as [|n p IH]; intros s gb Hs Hgb Hw Hend.
  - unfold walk_end in Hend. simpl in Hend. subst s.
    destruct (Hfr GOAL gb Hs Hgb) as [Hl|[[Hc _]|[]]]; [|done].
    destruct Hl as (nd & Hin & Hst & Hg). exists nd. split; [done|].
    destruct (inv_open _ _ Hq nd Hin) as [_ ->].
    rewrite Hst, Hg, manhattan_GOAL. simpl. lia.
  - destruct (Hfr s gb Hs Hgb) as [Hl|[[_ Hc]|[]]].
    + destruct Hl as (nd & Hin & Hst & Hg). exists nd. split; [done|].
      destruct (inv_open _ _ Hq nd Hin) as [_ ->]. rewrite Hst, Hg.
      pose proof (manhattan_admissible s (n :: p) Hs Hw Hend). lia.
    + destruct Hw as [He Hw]. rewrite walk_end_cons in Hend.
      destruct (Hc n He) as (gn & Hgn & Hle).
      destruct (IH n gn (valid_edge s n Hs He) Hgn Hw Hend) as (nd & Hin & Hf).
      exists nd. split; [done|]. simpl length. lia.
Qed.

(** Following the parent links from a recorded state leads back to the
    start, in no more steps than the recorded cost. *)
Lemma reconstruct_spec q :
  search_inv start q →
  ∀ (m : nat) rfuel s gb acc,
    valid s → gbest q !! key s = Some gb → gb ≤ Z.of_nat m → (m < rfuel)%nat →
    ∃ l, reconstruct rfuel (parent q) (key s) acc = Done (acc ++ l) ∧
         is_walk start (rev l) ∧ walk_end start (rev l) = s ∧
         Z.of_nat (length l) ≤ gb.
Proof.
  intros Hq. induction m as [|m IH]; intros rfuel s gb acc Hs Hgb Hm Hfuel.
  - destruct rfuel as [|rfuel]; [lia|]. simpl.
    destruct (decide (s = start)) as [->|Hne].
    + destruct (inv_start _ _ Hq) as [H0 ->]. exists []. rewrite app_nil_r.
      rewrite H0 in Hgb. injection Hgb as <-. done.
    + destruct (inv_parent _ _ Hq s gb Hs Hgb Hne)
        as (p & gp & Hp & Hpar & He & Hgp & Hle).
      destruct (inv_gbest _ _ Hq _ _ Hgp) as [? _]. lia.
  - destruct rfuel as [|rfuel]; [lia|]. simpl.
    destruct (decide (s = start)) as [->|Hne].
    + destruct (inv_start _ _ Hq) as [H0 ->]. exists []. rewrite app_nil_r.
      rewrite H0 in Hgb. injection Hgb as <-. done.
    + destruct (inv_parent _ _ Hq s gb Hs Hgb Hne)
        as (p & gp & Hp & Hpar & He & Hgp & Hle).
      rewrite Hpar, (key_nonempty p Hp), (unkey_key_valid s Hs).
      destruct (IH rfuel p gp (acc ++ [s]) Hp Hgp) as (l & Hrec & Hw & Hend & Hlen);
        [lia|lia|].
      exists (s :: l). rewrite Hrec, <- app_assoc. split_and!; [done|..].
      * simpl. apply is_walk_app. split; [done|]. rewrite Hend. simpl. tauto.
      * simpl. by rewrite walk_end_app.
      * simpl length. lia.
Qed.

(** The main loop returns, and what it returns is right. *)
Lemma search_spec fuel :
  ∀ rfuel q,
    search_inv start q → frontier_inv q (λ _ _, False) →
    (potential q < fuel)%nat → (length all_states ≤ rfuel)%nat →
    ∃ r, search rfuel fuel q = Done r ∧ result_ok start r.
Proof.
  induction fuel as [|fuel IH]; intros rfuel q Hq Hfr Hpot Hrf; [lia|].
  cbn [search]. destruct (popMin (open q)) as [[nd rest]|] eqn:Hpop.
  - destruct (popMin_Some _ _ _ Hpop) as (Hnd & Hperm & Hmin).
    destruct (inv_open _ _ Hq nd Hnd) as [(Hv & Hg0 & Hlt & Hr & gb & Hgb & Hle) Hf].
    rewrite (key_eqb (st nd) GOAL Hv valid_GOAL).
    destruct (decide (st nd = GOAL)) as [Hgoal|Hgoal].
    + rewrite bool_decide_eq_true_2 by done.
      pose proof (size_gbest_bound q Hq) as Hsz.
      destruct (inv_gbest _ _ Hq _ _ Hgb) as [Hgb0 _].
      destruct (reconstruct_spec q Hq (Z.to_nat gb) rfuel (st nd) gb [] Hv Hgb)
        as (l & -> & Hw & Hend & Hlen); [lia|lia|].
      exists (Some (rev l)). split; [done|]. split_and!; [done|congruence|].
      intros p' Hw' Hend'.
      destruct (inv_start _ _ Hq) as [Hs0 _].
      destruct (frontier_walk q Hq Hfr p' start 0 start_valid Hs0 Hw' Hend')
        as (nd' & Hin' & Hf').
      pose proof (Hmin nd' Hin') as Hmin'.
      rewrite Hf, Hgoal, manhattan_GOAL in Hmin'.
      rewrite length_rev. lia.
    + rewrite bool_decide_eq_false_2 by done.
      destruct (expand_inv q nd rest Hq Hfr Hpop Hgoal) as (Hq' & Hfr' & Hpot').
      apply IH; [done|done|lia|done].
  - apply popMin_None in Hpop. exists None. split; [done|].
    intros (p & Hw & Hend). destruct (inv_start _ _ Hq) as [Hs0 _].
    destruct (frontier_walk q Hq Hfr p start 0 start_valid Hs0 Hw Hend)
      as (nd & Hin & _).
    rewrite Hpop in Hin. by apply elem_of_nil in Hin.
Qed.

Lemma potential_init : (potential (init start) < fuel_bound)%nat.
Proof.
  unfold potential, fuel_bound.
  assert (sum_list_with (slack (init start)) all_states
          ≤ cost_bound * length all_states)%nat as H.
  { apply sum_list_with_bound. intros s _. unfold slack, init. simpl.
    destruct (_ !! key s) as [gb|] eqn:E; [|lia].
    apply lookup_singleton_Some in E as [_ <-]. simpl. lia. }
  change (length (open (init start))) with 1%nat.
  set (c := (cost_bound * length all_states)%nat) in *. lia.
Qed.

Lemma aStar_spec fuel :
  (fuel_bound ≤ fuel)%nat →
  ∃ r, aStar fuel start = Done r ∧ result_ok start r.
Proof.
  intros Hfuel. unfold aStar.
  rewrite (key_eqb start GOAL start_valid valid_GOAL).
  destruct (decide (start = GOAL)) as [->|Hne].
  - rewrite bool_decide_eq_true_2 by done. exists (Some []).
    split; [done|]. split_and!; [done|done|]. intros p' _ _. simpl. lia.
  - rewrite bool_decide_eq_false_2 by done.
    apply search_spec.
    + apply search_inv_init.
    + apply frontier_inv_init.
    + pose proof potential_init. lia.
    + unfold fuel_bound, cost_bound in Hfuel.
      set (c := (S (length all_states) * length all_states)%nat) in *. lia.
Qed.
End search.

(** * More fuel does not change a result *)

Lemma reconstruct_mono rf par :
  ∀ cur acc r rf',
    reconstruct rf par cur acc = Done r → (rf ≤ rf')%nat →
    reconstruct rf' par cur acc = Done r.
Proof.
  induction rf as [|rf IH]; intros cur acc r rf' H Hle; [done|].
  destruct rf' as [|rf']; [lia|]. simpl in *.
  destruct (par !! cur) as [[p|]|]; try done.
  destruct (String.eqb p ""); [done|]. apply IH; [done|lia].
Qed.

Lemma search_mono rf fuel :
  ∀ q r rf' fuel',
    search rf fuel q = Done r → (rf ≤ rf')%nat → (fuel ≤ fuel')%nat →
    search rf' fuel' q = Done r.
Proof.
  induction fuel as [|fuel IH]; intros q r rf' fuel' H Hrf Hle; [done|].
  destruct fuel' as [|fuel']; [lia|]. cbn [search] in *.
  destruct (popMin (open q)) as [[nd rest]|]; [|done].
  destruct (String.eqb (key (st nd)) (key GOAL)).
  - destruct (reconstruct rf _ _ _) as [|path] eqn:E; [done|].
    by rewrite (reconstruct_mono _ _ _ _ _ rf' E Hrf).
  - apply IH; [done|done|lia].
Qed.

Lemma aStar_mono fuel fuel' start r :
  aStar fuel start = Done r → (fuel ≤ fuel')%nat → aStar fuel' start = Done r.
Proof.
  unfold aStar. destruct (String.eqb _ _); [done|].
  intros H Hle. by apply (search_mono fuel fuel).
Qed.

Lemma aStar_det fuel1 fuel2 start r1 r2 :
  aStar fuel1 start = Done r1 → aStar fuel2 start = Done r2 → r1 = r2.
Proof.
  intros H1 H2.
  apply (aStar_mono _ (fuel1 `max` fuel2)) in H1; [|lia].
  apply (aStar_mono _ (fuel1 `max` fuel2)) in H2; [|lia].
  congruence.
Qed.

(** * Double precision *)

Lemma iter_pos_nat {A} (f : A → A) p :
  ∀ x, SpecFloat.iter_pos f p x = Nat.iter (Pos.to_nat p) f x.
Proof.
  induction p as [p IH|p IH|]; intros x; cbn [SpecFloat.iter_pos].
  - rewrite !IH, Pos2Nat.inj_xI, <- Nat.iter_add, <- Nat.iter_succ_r.
    f_equal. lia.
  - rewrite !IH, Pos2Nat.inj_xO, <- Nat.iter_add. f_equal. lia.
  - done.
Qed.

Lemma shr_1_nonneg m r s :
  0 ≤ m → shr_1 (Build_shr_record m r s) = Build_shr_record (m / 2) (Z.odd m) (r || s).
Proof.
  intros Hm. destruct m as [|[p|p|]|]; try done; cbn [shr_1 Z.odd].
  - f_equal. rewrite Pos2Z.inj_xI. Z.div_mod_to_equations; lia.
  - f_equal. rewrite Pos2Z.inj_xO. Z.div_mod_to_equations; lia.
Qed.

Lemma shr_iter k :
  ∀ m, 0 ≤ m →
       ∃ s, Nat.iter (S k) shr_1 (Build_shr_record m false false)
            = Build_shr_record (m / 2 ^ Z.of_nat (S k)) (Z.testbit m (Z.of_nat k)) s.
Proof.
  induction k as [|k IH]; intros m Hm.
  - exists false. cbn [Nat.iter]. rewrite shr_1_nonneg by done.
    by rewrite Z.bit0_odd.
  - destruct (IH m Hm) as [s Hs]. rewrite Nat.iter_succ, Hs.
    eexists. rewrite shr_1_nonneg by (apply Z.div_pos; lia).
    f_equal.
    + rewrite Z.div_div by lia. f_equal.
      rewrite (Nat2Z.inj_succ (S k)), Z.pow_succ_r by lia. lia.
    + rewrite Z.testbit_odd, Z.shiftr_div_pow2 by lia. done.
Qed.

Lemma testbit_mod m k :
  0 ≤ m → 0 ≤ k → Z.testbit m k = true → 2 ^ k ≤ m mod 2 ^ (k + 1).
Proof.
  intros Hm Hk Hb. destruct (Z.testbit_spec m k Hk) as (l & h & Hl & E).
  rewrite Hb in E. cbn [Z.b2z] in E. rewrite Z.pow_add_r, Z.pow_1_r by lia.
  assert (0 < 2 ^ k) by lia.
  replace m with ((l + 2 ^ k) + h * (2 ^ k * 2)) by lia.
  rewrite Z.mod_add by lia. rewrite Z.mod_small by lia. lia.
Qed.

(** Rounding to nearest, ties to even, after a shift by [p] bits. *)
Lemma round_shift M p :
  0 ≤ M →
  let mrs := SpecFloat.iter_pos shr_1 p (Build_shr_record M false false) in
  let R := round_nearest_even (shr_m mrs) (loc_of_shr_record mrs) in
  0 ≤ R ∧ 2 * R * 2 ^ Z.pos p ≤ 2 * M + 2 ^ Z.pos p.
Proof.
  intros HM. cbv zeta. rewrite iter_pos_nat.
  destruct (Pos2Nat.is_succ p) as [k Hk]. rewrite Hk.
  destruct (shr_iter k M HM) as [s ->]. cbn [shr_m].
  assert (Z.pos p = Z.of_nat (S k)) as -> by lia.
  set (P := 2 ^ Z.of_nat (S k)). assert (0 < P) as HP by (unfold P; lia).
  pose proof (Z.div_mod M P ltac:(lia)) as Hdm.
  pose proof (Z.mod_pos_bound M P HP) as Hmod.
  assert (0 ≤ M / P) as Hq by (apply Z.div_pos; lia).
  assert (Z.testbit M (Z.of_nat k) = true → P ≤ 2 * (M mod P)) as Hbit.
  { intros Hb. apply testbit_mod in Hb; [|lia..].
    assert (P = 2 ^ (Z.of_nat k + 1)) as EP by (unfold P; f_equal; lia).
    rewrite <- EP in Hb. rewrite EP at 1.
    rewrite (Z.pow_add_r 2 (Z.of_nat k) 1), Z.pow_1_r by lia. lia. }
  destruct (Z.testbit M (Z.of_nat k)), s; cbn [loc_of_shr_record round_nearest_even];
    try destruct (Z.even (M / P)); specialize (Hbit); nia.
Qed.

Lemma digits2_size p : digits2_pos p = Pos.size p.
Proof. induction p as [p IH|p IH|]; cbn; by rewrite ?IH. Qed.

Lemma Zdigits2_bounds M :
  0 < M → 2 ^ (Zdigits2 M - 1) ≤ M < 2 ^ Zdigits2 M ∧ 0 < Zdigits2 M.
Proof.
  destruct M as [|p|p]; try lia. intros _. cbn [Zdigits2]. rewrite digits2_size.
  pose proof (Pos.size_gt p) as Hgt. pose proof (Pos.size_le p) as Hle.
  apply Pos2Z.pos_lt_pos in Hgt. apply Pos2Z.pos_le_pos in Hle.
  rewrite Pos2Z.inj_pow in Hgt, Hle.
  split; [|lia]. split; [|done].
  assert (2 ^ Z.pos (Pos.size p) = 2 * 2 ^ (Z.pos (Pos.size p) - 1)) as E.
  { rewrite <- Z.pow_succ_r by lia. f_equal. lia. }
  change ((2 * 1) ^ Z.pos (Pos.size p)) with (2 ^ Z.pos (Pos.size p)) in Hle.
  rewrite (Pos2Z.inj_xO p) in Hle. lia.
Qed.

Lemma shiftl_div_le R e k :
  0 ≤ R → 0 ≤ k → Z.shiftl (R / 2 ^ k) (e + k) ≤ Z.shiftl R e.
Proof.
  intros HR Hk. assert (0 < 2 ^ k) as Hpk by lia.
  pose proof (Z.mul_div_le R (2 ^ k) Hpk) as Hfl.
  assert (0 ≤ R / 2 ^ k) as Hq by (apply Z.div_pos; lia).
  destruct (Z.le_gt_cases 0 e) as [He|He].
  - rewrite !Z.shiftl_mul_pow2, Z.pow_add_r by lia.
    assert (0 < 2 ^ e) by lia. nia.
  - destruct (Z.le_gt_cases (e + k) 0) as [Hek|Hek].
    + rewrite !Z.shiftl_div_pow2 by lia. rewrite Z.div_div by lia.
      rewrite <- Z.pow_add_r by lia. replace (k + - (e + k)) with (- e) by lia. lia.
    + rewrite Z.shiftl_mul_pow2, Z.shiftl_div_pow2 by lia.
      apply Z.div_le_lower_bound; [lia|].
      assert (2 ^ k = 2 ^ (- e) * 2 ^ (e + k)) as E.
      { rewrite <- Z.pow_add_r by lia. f_equal. lia. }
      set (q := R / 2 ^ k) in *. rewrite E in Hfl. lia.
Qed.

Lemma Zdigits2_le R M : 0 ≤ R ≤ M → Zdigits2 R ≤ Zdigits2 M.
Proof.
  intros [HR HM]. destruct (Z.eq_dec R 0) as [->|HR0].
  { destruct M; cbn; lia. }
  destruct (Zdigits2_bounds R ltac:(lia)) as [[H1 _] _].
  destruct (Zdigits2_bounds M ltac:(lia)) as [[_ H2] H3].
  apply Z.lt_succ_r. replace (Z.succ (Zdigits2 M)) with (Zdigits2 M + 1) by lia.
  assert (Zdigits2 R - 1 < Zdigits2 M); [|lia].
  apply (Z.pow_lt_mono_r_iff 2); lia.
Qed.

(** What [binary_round_aux] returns for a positive mantissa [M] at the
    exponent [E]: the mantissa is shifted right by [s] bits and rounded to
    [R]; the result is finite when its exponent allows it, and its floor is
    at most the floor of [R * 2 ^ (E + s)]. *)
Lemma binary_round_aux_floor M E :
  0 < M →
  let s := fexp prec emax (Zdigits2 M + E) - E in
  let x := binary_round_aux prec emax false M E loc_Exact in
  ∃ R, 0 ≤ R ≤ M ∧ (s ≤ 0 → R = M) ∧
       (0 < s → 2 * R * 2 ^ s ≤ 2 * M + 2 ^ s) ∧
       (E + Z.max s 0 ≤ 971 → Zdigits2 M + E + Z.max s 0 ≤ 1024 → finite x) ∧
       0 ≤ floor x ≤ Z.shiftl R (E + Z.max s 0).
Proof.
  intros HM. cbv zeta. unfold binary_round_aux, shr_fexp.
  set (s := fexp prec emax (Zdigits2 M + E) - E).
  assert (∃ R mrs,
            shr (shr_record_of_loc M loc_Exact) E s = (mrs, E + Z.max s 0) ∧
            round_nearest_even (shr_m mrs) (loc_of_shr_record mrs) = R ∧
            0 ≤ R ≤ M ∧ (s ≤ 0 → R = M) ∧
            (0 < s → 2 * R * 2 ^ s ≤ 2 * M + 2 ^ s))
    as (R & mrs & -> & HRdef & HR & HR0 & HRs).
  { unfold shr. cbn [shr_record_of_loc]. destruct s as [|p|p] eqn:Es.
    - exists M, (Build_shr_record M false false). rewrite Z.add_0_r.
      split_and!; [done|done|lia|lia|done|lia].
    - destruct (round_shift M p ltac:(lia)) as [H0 Hle]. eexists _, _.
      rewrite Z.max_l by lia. split_and!; [done|done|done| |lia|done].
      assert (1 ≤ 2 ^ Z.pos p) by lia. nia.
    - exists M, (Build_shr_record M false false).
      rewrite Z.max_r, Z.add_0_r by lia. split_and!; [done|done|lia|lia|done|lia]. }
  rewrite HRdef. exists R. split; [done|]. split; [done|]. split; [done|]. split.
  - (* finite *)
    intros Hfin0 Hfin. set (e1 := E + Z.max s 0) in *.
    set (s2 := fexp prec emax (Zdigits2 R + e1) - e1).
    assert (e1 + Z.max s2 0 ≤ 971) as He2.
    { pose proof (Zdigits2_le R M HR) as Hd. unfold s2, fexp, emin, prec, emax.
      lia. }
    unfold shr. cbn [shr_record_of_loc]. destruct s2 as [|p|p] eqn:Es2.
    + cbn [shr_m]. destruct R as [|r|r]; [done| |lia].
      rewrite Z.max_r, Z.add_0_r in He2 by lia.
      destruct (Z.leb_spec e1 (emax - prec)); [done|unfold emax, prec in *; lia].
    + rewrite iter_pos_nat. destruct (Pos2Nat.is_succ p) as [k Hk]. rewrite Hk.
      destruct (shr_iter k R ltac:(lia)) as [sb ->]. cbn [shr_m].
      assert (0 ≤ R / 2 ^ Z.of_nat (S k)) as Hq by (apply Z.div_pos; lia).
      destruct (R / 2 ^ Z.of_nat (S k)) as [|r|r]; [done| |lia].
      rewrite Z.max_l in He2 by lia.
      destruct (Z.leb_spec (e1 + Z.pos p) (emax - prec)); [done|unfold emax, prec in *; lia].
    + cbn [shr_m]. destruct R as [|r|r]; [done| |lia].
      rewrite Z.max_r, Z.add_0_r in He2 by lia.
      destruct (Z.leb_spec e1 (emax - prec)); [done|unfold emax, prec in *; lia].
  - (* floor *)
    set (e1 := E + Z.max s 0) in *.
    set (s2 := fexp prec emax (Zdigits2 R + e1) - e1).
    assert (0 ≤ Z.shiftl R e1) as Hnn by (apply Z.shiftl_nonneg; lia).
    unfold shr. cbn [shr_record_of_loc]. destruct s2 as [|p|p] eqn:Es2.
    + cbn [shr_m]. destruct R as [|r|r]; [done| |lia].
      destruct (Z.leb_spec e1 (emax - prec)); cbn [floor cond_Zopp]; lia.
    + rewrite iter_pos_nat. destruct (Pos2Nat.is_succ p) as [k Hk]. rewrite Hk.
      destruct (shr_iter k R ltac:(lia)) as [sb ->]. cbn [shr_m].
      assert (Z.pos p = Z.of_nat (S k)) as Ep by lia.
      pose proof (shiftl_div_le R e1 (Z.pos p) ltac:(lia) ltac:(lia)) as Hsh.
      rewrite Ep in Hsh.
      assert (0 ≤ R / 2 ^ Z.of_nat (S k)) as Hq by (apply Z.div_pos; lia).
      pose proof (proj2 (Z.shiftl_nonneg (R / 2 ^ Z.of_nat (S k)) (e1 + Z.of_nat (S k))) Hq).
      destruct (R / 2 ^ Z.of_nat (S k)) as [|r|r]; [done| |lia].
      rewrite Ep.
      destruct (Z.leb_spec (e1 + Z.of_nat (S k)) (emax - prec)); cbn [floor cond_Zopp]; lia.
    + cbn [shr_m]. destruct R as [|r|r]; [done| |lia].
      destruct (Z.leb_spec e1 (emax - prec)); cbn [floor cond_Zopp]; lia.
Qed.

Lemma bounded_inv m e :
  bounded prec emax m e = true → -1074 ≤ e ∧ Z.pos m < 2 ^ 53.
Proof.
  unfold bounded, canonical_mantissa, fexp, emin, prec, emax.
  intros [Hc _]%andb_true_iff. apply Z.eqb_eq in Hc.
  destruct (Zdigits2_bounds (Z.pos m) ltac:(lia)) as [[_ Hlt] Hd].
  cbn [Zdigits2] in Hlt, Hd. split; [lia|].
  eapply Z.lt_le_trans; [exact Hlt|]. apply Z.pow_le_mono_r; lia.
Qed.

(** The product of a double [mx * 2^ex] below 1 and a double
    [my * 2^ey] with a full mantissa: it is finite, and its floor stays
    below the second factor. *)
Lemma fmul_floor_lt mx ex my ey :
  bounded prec emax mx ex = true → ex < 0 → Z.pos mx < 2 ^ (- ex) →
  2 ^ 52 ≤ Z.pos my < 2 ^ 53 → -52 ≤ ey ≤ 0 →
  let x := fmul (S754_finite false mx ex) (S754_finite false my ey) in
  finite x ∧ 0 ≤ floor x ∧ floor x * 2 ^ (- ey) < Z.pos my.
Proof.
  intros Hb Hex Hlt1 Hmy Hey. cbv zeta. unfold fmul, SFmul. cbn [xorb].
  destruct (bounded_inv mx ex Hb) as [Hemin Hmx].
  rewrite Pos2Z.inj_mul.
  set (m := Z.pos mx) in *. set (y := Z.pos my) in *.
  set (M := m * y). set (E := ex + ey).
  assert (0 < m) as Hm by (unfold m; lia).
  assert (0 < M) as HM by (unfold M; nia).
  destruct (binary_round_aux_floor M E HM) as (R & HR & HR0 & HRs & Hfin & Hfl0 & Hfl).
  set (s := fexp prec emax (Zdigits2 M + E) - E) in *.
  destruct (Zdigits2_bounds M HM) as [[Hd1 Hd2] Hd0].
  set (a := - ex) in *. set (t := - ey).
  assert (0 < 2 ^ a) as HA by lia. assert (0 < 2 ^ t) as HT by (unfold t; lia).
  set (A := 2 ^ a) in *.
  (* the number of digits of the product *)
  assert (Zdigits2 M ≤ 53 + a) as HdM.
  { assert (Zdigits2 M - 1 < 53 + a); [|lia]. apply (Z.pow_lt_mono_r_iff 2); [lia..|].
    eapply Z.le_lt_trans; [exact Hd1|]. rewrite Z.pow_add_r by lia.
    fold A. unfold M. nia. }
  assert (Zdigits2 M ≤ 106) as HdM'.
  { assert (Zdigits2 M - 1 < 106); [|lia]. apply (Z.pow_lt_mono_r_iff 2); [lia..|].
    eapply Z.le_lt_trans; [exact Hd1|].
    change (2 ^ 106) with (2 ^ 53 * 2 ^ 53). unfold M. nia. }
  assert (s = Z.max (Zdigits2 M - 53) (a + t - 1074)) as Es.
  { unfold s, fexp, emin, prec, emax, E, a, t. lia. }
  assert (E + Z.max s 0 ≤ 0) as He1 by (unfold E, t in *; lia).
  split; [apply Hfin; unfold E, t in *; lia|]. split; [done|].
  (* the rounded mantissa stays below [y * 2^a] *)
  assert (R * 2 ^ Z.max s 0 < y * A) as Hround.
  { assert (M + y ≤ y * A) as Hslack by (unfold M; nia).
    destruct (Z.le_gt_cases s 0) as [Hs|Hs].
    - rewrite Z.max_r, Z.pow_0_r, (HR0 Hs) by lia. lia.
    - rewrite Z.max_l by lia. specialize (HRs Hs).
      assert (2 ^ s < 2 * y); [|lia].
      destruct (Z.le_gt_cases s t) as [Hst|Hst].
      + assert (2 ^ s ≤ 2 ^ 52) by (apply Z.pow_le_mono_r; unfold t in *; lia). lia.
      + assert (s = Zdigits2 M - 53) as Es' by lia.
        assert (2 ^ s * 2 ^ 52 ≤ M) as Hs52.
        { rewrite <- Z.pow_add_r by lia.
          replace (s + 52) with (Zdigits2 M - 1) by lia. done. }
        assert (M < 2 ^ 53 * y) by (unfold M; nia).
        change (2 ^ 53) with (2 * 2 ^ 52) in *. nia. }
  (* the floor of the rounded value *)
  set (e1 := E + Z.max s 0) in *.
  rewrite Z.shiftl_div_pow2 in Hfl by lia.
  set (F := floor _) in *.
  assert (0 < 2 ^ (- e1)) as Hb1 by lia.
  pose proof (Z.mul_div_le R (2 ^ (- e1)) Hb1) as Hdiv.
  assert (2 ^ (- e1) * 2 ^ Z.max s 0 = A * 2 ^ t) as Epow.
  { unfold A. rewrite <- !Z.pow_add_r by (unfold t in *; lia).
    f_equal. unfold e1, E, a, t. lia. }
  fold t. assert (0 ≤ F) as HF by lia.
  assert (0 < 2 ^ Z.max s 0) as Hps by lia.
  assert (F * 2 ^ (- e1) ≤ R) as HFR.
  { etrans; [|exact Hdiv]. rewrite (Z.mul_comm (2 ^ (- e1))).
    apply Z.mul_le_mono_nonneg_r; lia. }
  assert (F * (A * 2 ^ t) < y * A) as Hfin'.
  { rewrite <- Epow. eapply Z.le_lt_trans; [|exact Hround].
    rewrite Z.mul_assoc. apply Z.mul_le_mono_nonneg_r; lia. }
  nia.
Qed.

Lemma of_int_table :
  of_int 2 = S754_finite false 4503599627370496 (-51) ∧
  of_int 3 = S754_finite false 6755399441055744 (-51) ∧
  of_int 4 = S754_finite false 4503599627370496 (-50) ∧
  of_int 5 = S754_finite false 5629499534213120 (-50) ∧
  of_int 6 = S754_finite false 6755399441055744 (-50) ∧
  of_int 7 = S754_finite false 7881299347898368 (-50) ∧
  of_int 8 = S754_finite false 4503599627370496 (-49) ∧
  of_int 9 = S754_finite false 5066549580791808 (-49) ∧
  of_int 12 = S754_finite false 6755399441055744 (-49).
Proof. by vm_compute. Qed.

Lemma fmul_const_range m e my ey n :
  bounded prec emax m e = true → e < 0 → Z.pos m < 2 ^ (- e) →
  (2 ^ 52 <=? Z.pos my) && (Z.pos my <? 2 ^ 53) && (-52 <=? ey) && (ey <=? 0)
    = true →
  Z.pos my = n * 2 ^ (- ey) →
  let x := fmul (S754_finite false m e) (S754_finite false my ey) in
  finite x ∧ 0 ≤ floor x < n.
Proof.
  intros Hb He Hlt Hc Hn. cbv zeta.
  apply andb_true_iff in Hc as [Hc H4]. apply andb_true_iff in Hc as [Hc H3].
  apply andb_true_iff in Hc as [H1 H2].
  apply Z.leb_le in H1, H3, H4. apply Z.ltb_lt in H2.
  pose proof (fmul_floor_lt m e my ey Hb He Hlt (conj H1 H2) (conj H3 H4)) as H.
  cbv zeta in H. destruct H as (Hf & H0 & Hup).
  split; [done|]. split; [done|]. rewrite Hn in Hup.
  assert (0 < 2 ^ (- ey)) by lia. nia.
Qed.

Lemma fmul_of_int_range u n :
  is_random u → n ∈ [2; 3; 4; 5; 6; 7; 8; 9; 12] →
  finite (fmul u (of_int n)) ∧ 0 ≤ floor (fmul u (of_int n)) < n.
Proof.
  intros Hu Hn. destruct of_int_table as (E2 & E3 & E4 & E5 & E6 & E7 & E8 & E9 & E12).
  assert (∃ my ey,
            of_int n = S754_finite false my ey ∧
            (2 ^ 52 <=? Z.pos my) && (Z.pos my <? 2 ^ 53) && (-52 <=? ey)
              && (ey <=? 0) = true ∧
            Z.pos my = n * 2 ^ (- ey) ∧ 0 < n) as (my & ey & -> & Hc & Hmy & Hn0).
  { repeat (apply list.elem_of_cons in Hn as [->|Hn];
            [eexists _, _; split; [eassumption|]; by vm_compute|]).
    by apply list.elem_of_nil in Hn. }
  destruct u as [[]|[]| |[] m e]; [|done..|].
  - cbv [fmul SFmul floor finite xorb]. split; [exact I|lia].
  - destruct Hu as (Hb & He & Hlt).
    exact (fmul_const_range m e my ey n Hb He Hlt Hc Hmy).
Qed.

(** * The scramble generator *)

Lemma gtz_relabel x y :
  1 ≤ x → 1 ≤ y →
  gtz (relabel x) (relabel y) =
    gtz x y + (if x =? 1 then if y =? 2 then 1 else 0 else 0)
            - (if x =? 2 then if y =? 1 then 1 else 0 else 0).
Proof.
  intros Hx Hy. unfold gtz, relabel.
  destruct (Z.eqb_spec x 1), (Z.eqb_spec x 2), (Z.eqb_spec y 1), (Z.eqb_spec y 2);
    try lia;
    repeat match goal with
           | |- context [?a >? ?b] => destruct (Z.gtb_spec a b)
           end; lia.
Qed.

Lemma count_gt_relabel x l :
  1 ≤ x → Forall (λ y, 1 ≤ y) l →
  count_gt (relabel x) (relabel <$> l) =
    count_gt x l + (if x =? 1 then occ 2 l else 0)
                 - (if x =? 2 then occ 1 l else 0).
Proof.
  intros Hx. induction 1 as [|y l Hy Hl IH].
  - simpl. destruct (x =? 1), (x =? 2); lia.
  - rewrite fmap_cons. cbn [count_gt occ]. rewrite IH, gtz_relabel by done.
    destruct (x =? 1), (x =? 2), (y =? 1), (y =? 2); lia.
Qed.

Lemma inv_list_relabel l :
  Forall (λ y, 1 ≤ y) l →
  inv_list (relabel <$> l) =
    inv_list l + ordered_pairs 1 2 l - ordered_pairs 2 1 l.
Proof.
  induction 1 as [|x l Hx Hl IH]; [done|].
  rewrite fmap_cons. cbn [inv_list ordered_pairs].
  rewrite IH, count_gt_relabel by done.
  destruct (Z.eqb_spec x 1), (Z.eqb_spec x 2); lia.
Qed.

Lemma occ_nonneg v l : 0 ≤ occ v l.
Proof. induction l as [|y l IH]; simpl; [lia|]. destruct (y =? v); lia. Qed.

Lemma occ_absent v l : v ∉ l → occ v l = 0.
Proof.
  induction l as [|y l IH]; intros Hv; simpl; [done|].
  apply not_elem_of_cons in Hv as [Hy Hl]. rewrite (IH Hl).
  destruct (Z.eqb_spec y v); [congruence|lia].
Qed.

Lemma occ_NoDup v l : NoDup l → v ∈ l → occ v l = 1.
Proof.
  induction 1 as [|y l Hy Hl IH]; intros Hv; [by apply elem_of_nil in Hv|].
  simpl. apply elem_of_cons in Hv as [->|Hv].
  - rewrite Z.eqb_refl, occ_absent by done. lia.
  - rewrite IH by done. destruct (Z.eqb_spec y v); [by subst|lia].
Qed.

Lemma ordered_pairs_nonneg u v l : 0 ≤ ordered_pairs u v l.
Proof.
  induction l as [|y l IH]; simpl; [lia|].
  pose proof (occ_nonneg v l). destruct (y =? u); lia.
Qed.

Lemma ordered_pairs_absent u v l : u ∉ l → ordered_pairs u v l = 0.
Proof.
  induction l as [|y l IH]; intros Hu; simpl; [done|].
  apply not_elem_of_cons in Hu as [Hy Hl]. rewrite (IH Hl).
  destruct (Z.eqb_spec y u); [congruence|lia].
Qed.

Lemma ordered_pairs_absent_r u v l : v ∉ l → ordered_pairs u v l = 0.
Proof.
  induction l as [|y l IH]; intros Hv; simpl; [done|].
  apply not_elem_of_cons in Hv as [Hy Hl]. rewrite (IH Hl), (occ_absent v l Hl).
  destruct (y =? u); lia.
Qed.

Lemma ordered_pairs_NoDup u v l :
  NoDup l → u ≠ v → u ∈ l → v ∈ l →
  ordered_pairs u v l + ordered_pairs v u l = 1.
Proof.
  induction 1 as [|y l Hy Hl IH]; intros Huv Hu Hv; [by apply elem_of_nil in Hu|].
  cbn [ordered_pairs].
  apply elem_of_cons in Hu as [Eu|Hu]; apply elem_of_cons in Hv as [Ev|Hv].
  - congruence.
  - subst y. rewrite Z.eqb_refl, (occ_NoDup v l) by done.
    rewrite (ordered_pairs_absent u v l), (ordered_pairs_absent_r v u l) by done.
    destruct (Z.eqb_spec u v); lia.
  - subst y. rewrite Z.eqb_refl, (occ_NoDup u l) by done.
    rewrite (ordered_pairs_absent v u l), (ordered_pairs_absent_r u v l) by done.
    destruct (Z.eqb_spec v u); lia.
  - rewrite <- (IH Huv Hu Hv).
    destruct (Z.eqb_spec y u), (Z.eqb_spec y v); subst; try done; lia.
Qed.

Lemma swap_relabel a :
  valid a → swap a (indexOf a 1) (indexOf a 2) = relabel <$> a.
Proof.
  intros Hv.
  destruct (valid_pos a 1 Hv) as (i & Hi & Hai & Hpi); [lia|].
  destruct (valid_pos a 2 Hv) as (j & Hj & Haj & Hpj); [lia|].
  unfold pos in Hpi, Hpj. rewrite Hpi, Hpj.
  apply list_eq. intros m. rewrite (swap_lookup a i j 1 2) by done.
  rewrite list_lookup_fmap.
  destruct (decide (m = j)) as [->|Hmj]; [by rewrite Haj|].
  destruct (decide (m = i)) as [->|Hmi]; [by rewrite Hai|].
  destruct (a !! m) as [x|] eqn:E; [|done]. simpl. f_equal. unfold relabel.
  pose proof (valid_NoDup a Hv) as Hnd.
  destruct (Z.eqb_spec x 1) as [->|_].
  { pose proof (NoDup_lookup a m i 1 Hnd E Hai). lia. }
  destruct (Z.eqb_spec x 2) as [->|_]; [|done].
  pose proof (NoDup_lookup a m j 2 Hnd E Haj). lia.
Qed.

Lemma filter_relabel (l : list Z) :
  filter (λ x, x ≠ 0) (relabel <$> l) = relabel <$> filter (λ x, x ≠ 0) l.
Proof.
  induction l as [|x l IH]; [done|]. rewrite fmap_cons, !filter_cons, IH.
  assert (relabel x ≠ 0 ↔ x ≠ 0) as Hiff.
  { unfold relabel. destruct (Z.eqb_spec x 1), (Z.eqb_spec x 2); lia. }
  destruct (decide (relabel x ≠ 0)), (decide (x ≠ 0)); try done; tauto.
Qed.

(** Exchanging the tiles 1 and 2 changes the inversion count by one. *)
Lemma inversions_relabel a :
  valid a →
  (inversions (swap a (indexOf a 1) (indexOf a 2)) - inversions a) mod 2 = 1.
Proof.
  intros Hv. rewrite swap_relabel by done. unfold inversions.
  rewrite filter_relabel, !inversions_loop_inv_list.
  set (l := filter (λ x, x ≠ 0) a).
  assert (Forall (λ y, 1 ≤ y) l) as Hl.
  { apply list.Forall_forall. intros y [Hy0 Hy]%list_elem_of_filter.
    apply (valid_elem a y Hv) in Hy. lia. }
  assert (NoDup l) as Hnd by apply list.NoDup_filter, valid_NoDup, Hv.
  assert (1 ∈ l ∧ 2 ∈ l) as [H1 H2].
  { split; apply list_elem_of_filter; (split; [lia|]);
      apply (valid_elem a _ Hv); lia. }
  rewrite inv_list_relabel by done.
  pose proof (ordered_pairs_NoDup 1 2 l Hnd ltac:(lia) H1 H2).
  pose proof (ordered_pairs_nonneg 1 2 l). pose proof (ordered_pairs_nonneg 2 1 l).
  Z.div_mod_to_equations; lia.
Qed.

Lemma random_index_range u i :
  is_random u → 1 ≤ i ≤ 8 →
  finite (fmul u (of_int (i + 1))) ∧ 0 ≤ random_index u i ≤ i.
Proof.
  intros Hu Hi. unfold random_index.
  destruct (fmul_of_int_range u (i + 1) Hu) as [Hf Hr]; [|split; [done|lia]].
  assert (i = 1 ∨ i = 2 ∨ i = 3 ∨ i = 4 ∨ i = 5 ∨ i = 6 ∨ i = 7 ∨ i = 8)
    as Hc by lia.
  destruct_or!; subst i; compute_done.
Qed.

Lemma valid_swap_Z s i j :
  valid s → 0 ≤ i ≤ 8 → 0 ≤ j ≤ 8 → valid (swap s i j).
Proof.
  intros Hv Hi Hj. rewrite <- (Z2Nat.id i), <- (Z2Nat.id j) by lia.
  apply valid_swap; [done|lia..].
Qed.

Lemma fisher_yates_valid rnd n :
  (∀ k, is_random (rnd k)) →
  ∀ k a, (n ≤ 8)%nat → valid a → valid (fisher_yates rnd k n a).
Proof.
  intros Hrnd. induction n as [|n IH]; intros k a Hn Ha; [done|].
  cbn [fisher_yates]. apply IH; [lia|].
  destruct (random_index_range (rnd k) (Z.of_nat (S n)) (Hrnd k) ltac:(lia))
    as [_ Hr].
  apply valid_swap_Z; [done|lia..].
Qed.

Lemma isSolvable_relabel a :
  valid a →
  isSolvable (swap a (indexOf a 1) (indexOf a 2)) = negb (isSolvable a).
Proof.
  intros Hv. pose proof (inversions_relabel a Hv) as H.
  unfold isSolvable in *.
  assert (∀ s, 0 ≤ inversions s) as Hnn.
  { intros s. unfold inversions. rewrite inversions_loop_inv_list.
    apply inv_list_nonneg. }
  pose proof (Hnn a). pose proof (Hnn (swap a (indexOf a 1) (indexOf a 2))).
  rewrite !Z.rem_mod_nonneg by lia.
  destruct (Z.eqb_spec (inversions a mod 2) 0);
    destruct (Z.eqb_spec (inversions (swap a (indexOf a 1) (indexOf a 2)) mod 2) 0);
    try done; exfalso; Z.div_mod_to_equations; lia.
Qed.

(** C3.  Whatever doubles in [0, 1) the random source draws,
    [shuffleSolvable] returns a configuration that satisfies [isSolvable]:
    the rounded product of a draw and [i + 1] is finite and its floor is one
    of [0..i], so the Fisher-Yates pass permutes the goal, and the exchange
    of the tiles 1 and 2, made when the result is not solvable, flips the
    inversion parity (as it does on every configuration). *)
Theorem shuffleSolvable_spec (rnd : nat → spec_float) :
  (∀ k, is_random (rnd k)) →
  valid (shuffleSolvable rnd) ∧ isSolvable (shuffleSolvable rnd) = true ∧
  (∀ k i, 1 ≤ i ≤ 8 →
          finite (fmul (rnd k) (of_int (i + 1))) ∧
          0 ≤ random_index (rnd k) i ≤ i) ∧
  (∀ a, valid a →
        isSolvable (swap a (indexOf a 1) (indexOf a 2)) = negb (isSolvable a)).
Proof.
  intros Hrnd.
  assert (valid (fisher_yates rnd 0 (length GOAL - 1) GOAL)) as Ha.
  { apply fisher_yates_valid; [done|simpl; lia|apply valid_GOAL]. }
  unfold shuffleSolvable. set (a := fisher_yates rnd 0 (length GOAL - 1) GOAL) in *.
  split_and!.
  - destruct (isSolvable a) eqn:Hs; simpl; [done|].
    destruct (valid_pos a 1 Ha) as (i & Hi & _ & Hpi); [lia|].
    destruct (valid_pos a 2 Ha) as (j & Hj & _ & Hpj); [lia|].
    unfold pos in Hpi, Hpj. rewrite Hpi, Hpj. by apply valid_swap.
  - destruct (isSolvable a) eqn:Hs; simpl; [done|].
    by rewrite isSolvable_relabel, Hs.
  - intros k i Hi. by apply random_index_range.
  - apply isSolvable_relabel.
Qed.

(** * Every solvable configuration reaches the goal *)

Lemma check_all : forall_perms 9 GOAL (check_state dist_tab) = true.
Proof. vm_compute. reflexivity. Qed.


Lemma picks_complete l :
  ∀ pre x, x ∈ l →
    ∃ rest, (x, rest) ∈ picks pre l ∧ x :: rest ≡ₚ rev pre ++ l.
Proof.
  induction l as [|y l IH]; intros pre x Hx; [by apply elem_of_nil in Hx|].
  apply elem_of_cons in Hx as [->|Hx].
  - exists (rev_append pre l). split; [by left|].
    rewrite rev_append_rev. by rewrite Permutation_middle.
  - destruct (IH (y :: pre) x Hx) as (rest & Hin & Hperm).
    exists rest. split; [by right|]. rewrite Hperm. simpl.
    by rewrite <- app_assoc.
Qed.

Lemma forall_perms_sound n :
  ∀ l P, length l = n → forall_perms n l P = true →
         ∀ s, s ≡ₚ l → P s = true.
Proof.
  induction n as [|n IH]; intros l P Hlen Hall s Hs.
  - destruct l; [|done]. apply Permutation_nil_r in Hs. by subst.
  - destruct s as [|x s].
    { apply Permutation_length in Hs. simpl in Hs. lia. }
    assert (x ∈ l) as Hx by (rewrite <- Hs; by left).
    destruct (picks_complete l [] x Hx) as (rest & Hin & Hperm).
    simpl in Hperm. cbn [forall_perms] in Hall.
    rewrite forallb_forall in Hall.
    apply list_elem_of_In, Hall in Hin. simpl in Hin.
    apply (IH rest (λ s, P (x :: s))); [|done|].
    + apply Permutation_length in Hperm. simpl in Hperm. lia.
    + apply (Permutation_cons_inv (a := x)). by rewrite Hperm.
Qed.

Lemma filter_nonzero (s : list Z) :
  List.filter (λ x, negb (x =? 0)) s = filter (λ x, x ≠ 0) s.
Proof.
  induction s as [|x s IH]; [done|]. simpl. rewrite filter_cons, IH.
  destruct (Z.eqb_spec x 0), (decide (x ≠ 0)); simpl; try done; tauto.
Qed.

Lemma even_inversions_spec s : even_inversions s = isSolvable s.
Proof.
  unfold even_inversions, isSolvable, inversions.
  rewrite filter_nonzero, inversions_loop_inv_list.
  pose proof (inv_list_nonneg (filter (λ x, x ≠ 0) s)) as Hnn.
  rewrite Z.rem_mod_nonneg by lia.
  destruct (Z.even _) eqn:E.
  - apply Z.even_spec in E as [k ->]. symmetry. apply Z.eqb_eq.
    Z.div_mod_to_equations; lia.
  - symmetry. apply Z.eqb_neq. intros H.
    assert (Z.even (inv_list (filter (λ x, x ≠ 0) s)) = true); [|congruence].
    apply Z.even_spec. exists (inv_list (filter (λ x, x ≠ 0) s) / 2).
    Z.div_mod_to_equations; lia.
Qed.

Lemma check_state_valid s : valid s → check_state dist_tab s = true.
Proof. intros Hv. by apply (forall_perms_sound 9 GOAL _ eq_refl check_all). Qed.

Lemma reachable_cons s n t : edge s n → reachable n t → reachable s t.
Proof.
  intros He (p & Hw & Hend). exists (n :: p). split; [done|].
  by rewrite walk_end_cons.
Qed.

Lemma table_reachable d :
  ∀ s, valid s → isSolvable s = true → tlookup s dist_tab = Some d →
       reachable s GOAL.
Proof.
  induction d as [|d IH]; intros s Hv Hs Hd;
    pose proof (check_state_valid s Hv) as Hc; unfold check_state in Hc;
    rewrite even_inversions_spec, Hs, Hd in Hc.
  - apply bool_decide_eq_true_1 in Hc as ->. apply reachable_refl.
  - apply existsb_exists in Hc as (n & Hn%list_elem_of_In & Hdn).
    destruct (tlookup n dist_tab) as [d'|] eqn:E; [|done].
    apply Nat.eqb_eq in Hdn as ->.
    apply (reachable_cons s n); [done|]. apply IH; [|by rewrite (isSolvable_edge s)|done].
    exact (valid_edge s n Hv Hn).
Qed.

Lemma solvable_reachable s :
  valid s → isSolvable s = true → reachable s GOAL.
Proof.
  intros Hv Hs. pose proof (check_state_valid s Hv) as Hc.
  unfold check_state in Hc. rewrite even_inversions_spec, Hs in Hc.
  destruct (tlookup s dist_tab) as [d|] eqn:E; [|done].
  by apply (table_reachable d).
Qed.

(** * Moves can be taken back *)

Lemma moves_sym k j : 0 ≤ k ≤ 8 → j ∈ moves k → k ∈ moves j.
Proof.
  intros Hk Hj. destruct (moves_range k j Hk Hj) as [Hr _].
  apply moves_adjacent in Hj as [_ Hadj]; [|done].
  apply moves_adjacent; [done|]. split; [done|].
  unfold adjacent in *. by rewrite cell_dist_sym.
Qed.

Lemma edge_sym s n : valid s → edge s n → edge n s.
Proof.
  intros Hv He.
  destruct (edge_swap s n Hv He) as (k & j & Hk & Hj & Hsk & _ & Hmv & ->).
  destruct (moves_range (Z.of_nat k) (Z.of_nat j)) as [_ Hne]; [lia|done|].
  destruct (valid_lookup s j Hv Hj) as (t & Hsj & _).
  set (n := swap s (Z.of_nat k) (Z.of_nat j)).
  assert (valid n) as Hn by (by apply valid_swap).
  destruct (swap_blank_lookup s k j Hv Hk Hj Hsk) as (Hnj & Hnk & Hno).
  fold n in Hnj, Hnk, Hno. rewrite Hsj in Hnk.
  assert (swap n (Z.of_nat j) (Z.of_nat k) = s) as Hback.
  { apply list_eq. intros m. rewrite (swap_lookup n j k 0 t); [|done|apply Hnk; lia].
    destruct (decide (m = k)) as [->|Hmk]; [done|].
    destruct (decide (m = j)) as [->|Hmj]; [done|]. by apply Hno. }
  assert (edge n (swap n (Z.of_nat j) (Z.of_nat k))) as He'.
  { apply (edge_moves n j (Z.of_nat k) Hn Hj Hnj); [lia|].
    apply moves_sym; [lia|done]. }
  by rewrite Hback in He'.
Qed.

Lemma reachable_sym s t : valid s → reachable s t → reachable t s.
Proof.
  intros Hv (p & Hw & Hend). revert s Hv Hw Hend.
  induction p as [|n p IH]; intros s Hv Hw Hend.
  - unfold walk_end in Hend. simpl in Hend. subst. apply reachable_refl.
  - destruct Hw as [He Hw]. rewrite walk_end_cons in Hend.
    pose proof (valid_edge s n Hv He) as Hn.
    apply (reachable_step t n s); [by apply (IH n)|by apply edge_sym].
Qed.

Lemma isSolvable_GOAL : isSolvable GOAL = true.
Proof. reflexivity. Qed.

Lemma reachable_solvable s t :
  valid s → reachable s t → isSolvable t = isSolvable s.
Proof. intros Hv (p & Hw & <-). by apply isSolvable_walk. Qed.

(** * The specification of the solver *)

Lemma optimal_excludes_start s p : optimal_solution s p → s ∉ p.
Proof.
  intros (Hw & Hend & Hmin) Hin.
  apply list_elem_of_split in Hin as (p1 & p2 & ->).
  change (s :: p2) with ([s] ++ p2) in Hw, Hend, Hmin.
  rewrite app_assoc in Hw, Hend, Hmin.
  assert (walk_end s (p1 ++ [s]) = s) as Hs by (by rewrite walk_end_app).
  apply is_walk_app in Hw as [_ Hw]. rewrite walk_end_app, Hs in Hend.
  rewrite Hs in Hw. specialize (Hmin p2 Hw Hend).
  rewrite !length_app in Hmin. simpl in Hmin. lia.
Qed.

Lemma walk_end_snoc s p :
  walk_end s p ≠ s → ∃ p0, p = p0 ++ [walk_end s p].
Proof.
  intros Hne. exists (removelast p). unfold walk_end in *.
  apply app_removelast_last. by intros ->.
Qed.

Lemma aStar_solvable C :
  valid C → isSolvable C = true →
  ∃ path, optimal_solution C path ∧
          ∀ fuel, (fuel_bound ≤ fuel)%nat → aStar fuel C = Done (Some path).
Proof.
  intros Hv Hs.
  destruct (aStar_spec C Hv fuel_bound) as (r & Hr & Hok); [lia|].
  destruct r as [path|].
  - exists path. split; [done|]. intros fuel Hfuel. by apply (aStar_mono fuel_bound).
  - destruct Hok. by apply solvable_reachable.
Qed.

Lemma aStar_unsolvable_None C :
  valid C → isSolvable C = false →
  ∀ fuel, (fuel_bound ≤ fuel)%nat → aStar fuel C = Done None.
Proof.
  intros Hv Hs fuel Hfuel.
  destruct (aStar_spec C Hv fuel Hfuel) as (r & Hr & Hok).
  destruct r as [path|]; [|done].
  destruct Hok as (Hw & Hend & _).
  pose proof (isSolvable_walk C path Hv Hw) as E.
  rewrite Hend, isSolvable_GOAL, Hs in E. done.
Qed.

(** C1.  For a solvable configuration [C] the solver returns a path (with
    enough fuel, and the same path whenever it returns at all) that starts
    with a successor of [C], moves by one legal move at a time, does not
    contain [C], ends in the goal, and is as short as any sequence of legal
    moves from [C] to the goal. *)
Theorem aStar_optimal (C : State) :
  valid C → isSolvable C = true →
  ∃ path,
    (∀ fuel, (fuel_bound ≤ fuel)%nat → aStar fuel C = Done (Some path)) ∧
    (∀ fuel r, aStar fuel C = Done r → r = Some path) ∧
    is_walk C path ∧ walk_end C path = GOAL ∧
    (C ∉ path) ∧ (C ≠ GOAL → ∃ p0, path = p0 ++ [GOAL]) ∧
    (∀ p', is_walk C p' → walk_end C p' = GOAL → (length path ≤ length p')%nat).
Proof.
  intros Hv Hs. destruct (aStar_solvable C Hv Hs) as (path & Hopt & Hrun).
  exists path. split_and!; try done.
  - intros fuel r Hr. apply (aStar_det fuel fuel_bound C); [done|].
    by apply Hrun.
  - apply Hopt.
  - apply Hopt.
  - by apply optimal_excludes_start.
  - intros Hne. destruct Hopt as (_ & Hend & _).
    destruct (walk_end_snoc C path) as [p0 Hp0]; [congruence|].
    exists p0. by rewrite <- Hend.
  - apply Hopt.
Qed.

(** C2.  For a configuration [C], [isSolvable C] is true exactly when [C] can
    be reached from the goal by legal moves, and that is exactly when the
    inversion count of [C] without its blank is even. *)
Theorem isSolvable_spec (C : State) :
  valid C →
  (isSolvable C = true ↔ reachable GOAL C) ∧
  (reachable GOAL C ↔ Z.even (inv_list (filter (λ x, x ≠ 0) C)) = true).
Proof.
  intros Hv.
  assert (isSolvable C = true ↔ reachable GOAL C) as H1.
  { split.
    - intros Hs. apply reachable_sym; [done|]. by apply solvable_reachable.
    - intros Hr. by rewrite (reachable_solvable GOAL C valid_GOAL Hr). }
  split; [done|]. rewrite <- H1, <- even_inversions_spec.
  unfold even_inversions. by rewrite filter_nonzero.
Qed.

(** C6.  For an unsolvable configuration [C] the solver returns [null] (with
    enough fuel), and no run of it returns a path. *)
Theorem aStar_unsolvable (C : State) :
  valid C → isSolvable C = false →
  (∀ fuel, (fuel_bound ≤ fuel)%nat → aStar fuel C = Done None) ∧
  (∀ fuel r, aStar fuel C = Done r → r = None).
Proof.
  intros Hv Hs. split; [by apply aStar_unsolvable_None|].
  intros fuel r Hr. apply (aStar_det fuel fuel_bound C); [done|].
  by apply aStar_unsolvable_None.
Qed.

(** C7.  The solver terminates on every configuration: a budget of
    [fuel_bound] iterations is enough for the main loop and for the
    reconstruction loop, and the result does not depend on the budget. *)
Theorem aStar_terminates (C : State) :
  valid C →
  ∃ r, (∀ fuel, (fuel_bound ≤ fuel)%nat → aStar fuel C = Done r) ∧
       (∀ fuel r', aStar fuel C = Done r' → r' = r).
Proof.
  intros Hv. destruct (aStar_spec C Hv fuel_bound) as (r & Hr & _); [lia|].
  exists r. split.
  - intros fuel Hfuel. by apply (aStar_mono fuel_bound).
  - intros fuel r' Hr'. by apply (aStar_det fuel fuel_bound C).
Qed.

(** C8.  On the goal configuration the solver returns the empty sequence. *)
Theorem aStar_goal (fuel : nat) : aStar fuel GOAL = Done (Some []).
Proof. reflexivity. Qed.

Lemma valid_hard_instance : valid hard_instance.
Proof. unfold valid, hard_instance, GOAL. solve_Permutation. Qed.

Lemma aStar_hard_run : aStar 1000 hard_instance = Done (Some hard_path).
Proof. vm_compute. reflexivity. Qed.

(** C4, as the code has it.  On [8,1,2,7,0,3,6,5,4] the solver returns a
    sequence of 18 configurations, and 18 is the least number of moves that
    solve this instance. *)
Theorem aStar_hard_instance :
  aStar 1000 hard_instance = Done (Some hard_path) ∧
  aStar fuel_bound hard_instance = Done (Some hard_path) ∧
  length hard_path = 18%nat ∧
  optimal_solution hard_instance hard_path.
Proof.
  destruct (aStar_solvable hard_instance valid_hard_instance eq_refl)
    as (path & Hopt & Hrun).
  specialize (Hrun fuel_bound (le_n _)).
  assert (Some path = Some hard_path) as [= ->].
  { exact (aStar_det _ _ _ _ _ Hrun aStar_hard_run). }
  split_and!; [apply aStar_hard_run|done|done|done].
Qed.

(** C4, as stated, fails: no run of the solver on [8,1,2,7,0,3,6,5,4]
    returns a sequence of 26 configurations. *)
Lemma aStar_hard_instance_not_26 :
  ¬ ∃ fuel path,
      aStar fuel hard_instance = Done (Some path) ∧ length path = 26%nat.
Proof.
  intros (fuel & path & Hrun & Hlen).
  pose proof (aStar_det _ _ _ _ _ Hrun aStar_hard_run) as [= ->].
  discriminate Hlen.
Qed.

(** * Worked instances *)

Ltac prove_valid :=
  unfold valid, hard_instance, one_move, swapped12, GOAL; solve_Permutation.

(** The first two scenarios of the specification. *)
Example solve_one_move : aStar 10 one_move = Done (Some [GOAL]).
Proof. vm_compute. reflexivity. Qed.

Example solve_two_moves :
  aStar 10 [1; 2; 3; 4; 5; 6; 0; 7; 8] = Done (Some [one_move; GOAL]).
Proof. vm_compute. reflexivity. Qed.

Example random_index_third :
  is_random third ∧
  random_index third <$> [8; 7; 6; 5; 4; 3; 2; 1] = [3; 2; 2; 2; 1; 1; 1; 0].
Proof. by vm_compute. Qed.

Example shuffleSolvable_third :
  shuffleSolvable (λ _, third) = [6; 1; 0; 5; 2; 7; 8; 3; 4].
Proof. reflexivity. Qed.

Lemma aStar_optimal_witness :
  valid one_move ∧ isSolvable one_move = true ∧
  aStar fuel_bound one_move = Done (Some [GOAL]) ∧
  (∀ p', is_walk one_move p' → walk_end one_move p' = GOAL →
         (1 ≤ length p')%nat).
Proof.
  assert (valid one_move) as Hv by prove_valid.
  destruct (aStar_optimal one_move Hv eq_refl)
    as (path & Hrun & Hdet & _ & _ & _ & _ & Hmin).
  assert (Some [GOAL] = Some path) as E.
  { apply (Hdet 10%nat). vm_compute. reflexivity. }
  injection E as <-.
  split; [exact Hv|]. split; [reflexivity|].
  split; [exact (Hrun fuel_bound (le_n _))|exact Hmin].
Defined.

Lemma isSolvable_spec_witness :
  valid one_move ∧ reachable GOAL one_move ∧
  Z.even (inv_list (filter (λ x, x ≠ 0) one_move)) = true.
Proof.
  assert (valid one_move) as Hv by prove_valid.
  destruct (isSolvable_spec one_move Hv) as [H1 H2].
  split; [exact Hv|]. split; [exact (proj1 H1 eq_refl)|].
  exact (proj1 H2 (proj1 H1 eq_refl)).
Defined.

Lemma shuffleSolvable_spec_witness :
  (∀ k : nat, is_random third) ∧
  shuffleSolvable (λ _, third) = [6; 1; 0; 5; 2; 7; 8; 3; 4] ∧
  valid (shuffleSolvable (λ _, third)) ∧
  isSolvable (shuffleSolvable (λ _, third)) = true ∧
  0 ≤ random_index third 8 ≤ 8.
Proof.
  assert (∀ k : nat, is_random third) as Hrnd.
  { intros _. by vm_compute. }
  destruct (shuffleSolvable_spec (λ _, third) Hrnd) as (Hv & Hs & Hr & _).
  split; [exact Hrnd|]. split; [reflexivity|]. split; [exact Hv|].
  split; [exact Hs|]. exact (proj2 (Hr 0%nat 8 ltac:(lia))).
Defined.

Lemma neighbors_spec_witness :
  valid hard_instance ∧ length (neighbors hard_instance) = 4%nat ∧
  NoDup (neighbors hard_instance).
Proof.
  assert (valid hard_instance) as Hv by prove_valid.
  pose proof (neighbors_spec hard_instance Hv) as H. cbv zeta in H.
  destruct H as (_ & _ & H4 & _ & _ & Hnd & _).
  split; [exact Hv|]. split; [exact (H4 eq_refl)|exact Hnd].
Defined.

Lemma aStar_unsolvable_witness :
  valid swapped12 ∧ isSolvable swapped12 = false ∧
  aStar fuel_bound swapped12 = Done None.
Proof.
  assert (valid swapped12) as Hv by prove_valid.
  destruct (aStar_unsolvable swapped12 Hv eq_refl) as [Hrun _].
  split; [exact Hv|]. split; [reflexivity|exact (Hrun fuel_bound (le_n _))].
Defined.

Lemma aStar_terminates_witness :
  valid swapped12 ∧ ∃ r, aStar fuel_bound swapped12 = Done r.
Proof.
  assert (valid swapped12) as Hv by prove_valid.
  destruct (aStar_terminates swapped12 Hv) as (r & Hrun & _).
  split; [exact Hv|]. exists r. exact (Hrun fuel_bound (le_n _)).
Defined.

Lemma tryMove_spec_witness :
  valid hard_instance ∧ 0 ≤ 1 ≤ 8 ∧
  tryMove false hard_instance 1 = Some [8; 0; 2; 7; 1; 3; 6; 5; 4] ∧
  [8; 0; 2; 7; 1; 3; 6; 5; 4] ∈ neighbors hard_instance.
Proof.
  assert (valid hard_instance) as Hv by prove_valid.
  assert (0 ≤ 1 ≤ 8) as Hi by lia.
  destruct (tryMove_spec hard_instance 1 Hv Hi) as [_ H].
  destruct (H [8; 0; 2; 7; 1; 3; 6; 5; 4] eq_refl) as [_ Hin].
  split; [exact Hv|]. split; [exact Hi|]. split; [reflexivity|exact Hin].
Defined.

Lemma parity_invariant_witness :
  valid hard_instance ∧
  isSolvable [8; 0; 2; 7; 1; 3; 6; 5; 4] = isSolvable hard_instance.
Proof.
  assert (valid hard_instance) as Hv by prove_valid.
  destruct (parity_invariant hard_instance Hv) as (_ & _ & H).
  split; [exact Hv|].
  exact (H 1 [8; 0; 2; 7; 1; 3; 6; 5; 4] ltac:(lia) eq_refl).
Defined.

(** * The identity key on every array *)

Lemma Number_unfold str :
  Number str =
  match str with
  | String "-"%char str' => - Number_go 0 str'
  | _ => Number_go 0 str
  end.
Proof. reflexivity. Qed.

Lemma Number_no_dash str :
  (∀ str', str ≠ String "-" str') → Number str = Number_go 0 str.
Proof.
  intros Hd. rewrite Number_unfold. destruct str as [|c str]; [done|].
  destruct (decide (c = "-"%char)) as [->|Hc]; [by destruct (Hd str)|].
  destruct c as [[] [] [] [] [] [] [] []]; done.
Qed.

Lemma digit_of_pretty_N_char x :
  (x < 10)%N → digit_of (pretty_N_char x) = Z.of_N x.
Proof.
  intros Hx.
  assert (x = 0 ∨ x = 1 ∨ x = 2 ∨ x = 3 ∨ x = 4 ∨ x = 5 ∨ x = 6 ∨ x = 7
          ∨ x = 8 ∨ x = 9)%N as Hc by lia.
  destruct_or!; by subst x.
Qed.

Lemma Number_go_pretty_N_go x :
  ∀ s, Number_go 0 (pretty_N_go x s) = Number_go (Z.of_N x) s.
Proof.
  induction (N.lt_wf_0 x) as [x _ IH]. intros s.
  assert (x = 0 ∨ 0 < x)%N as [->|Hx] by lia; [by rewrite pretty_N_go_0|].
  rewrite pretty_N_go_step by done. rewrite IH by (by apply N.div_lt).
  cbn [Number_go]. rewrite digit_of_pretty_N_char by (by apply N.mod_lt).
  f_equal. rewrite (N.div_mod x 10) at 3 by done. lia.
Qed.

Lemma Number_pretty_pos p : Number_go 0 (pretty (N.pos p)) = Z.pos p.
Proof.
  unfold pretty, pretty_N. rewrite decide_False by done.
  by rewrite Number_go_pretty_N_go.
Qed.

Lemma Number_pretty (x : Z) : Number (pretty x) = x.
Proof.
  destruct x as [|p|p]; [done| |].
  - change (pretty (Z.pos p)) with (pretty (N.pos p)).
    rewrite Number_no_dash; [apply Number_pretty_pos|].
    intros str'. unfold pretty, pretty_N. rewrite decide_False by done.
    by apply pretty_N_go_ne_dash.
  - change (pretty (Z.neg p)) with (String "-" (pretty (N.pos p))).
    rewrite Number_unfold. by rewrite Number_pretty_pos.
Qed.

Lemma comma_free_pretty_N_go x :
  ∀ s, comma_free s = true → comma_free (pretty_N_go x s) = true.
Proof.
  induction (N.lt_wf_0 x) as [x _ IH]. intros s Hs.
  assert (x = 0 ∨ 0 < x)%N as [->|Hx] by lia; [by rewrite pretty_N_go_0|].
  rewrite pretty_N_go_step by done. apply IH; [by apply N.div_lt|].
  cbn [comma_free]. rewrite Hs, andb_true_r.
  unfold pretty_N_char. by repeat case_match.
Qed.

Lemma comma_free_pretty (x : Z) : comma_free (pretty x) = true.
Proof.
  assert (∀ p, comma_free (pretty (N.pos p)) = true) as Hp.
  { intros p. unfold pretty, pretty_N. rewrite decide_False by done.
    by apply comma_free_pretty_N_go. }
  destruct x as [|p|p]; [done|apply Hp|].
  change (pretty (Z.neg p)) with (String "-" (pretty (N.pos p))).
  cbn [comma_free]. by rewrite Hp.
Qed.

Lemma string_app_empty_r (s : string) : s +:+ "" = s.
Proof.
  induction s as [|c s IH]; [done|].
  change (String c s +:+ "") with (String c (s +:+ "")). by rewrite IH.
Qed.

Lemma string_app_assoc (s t u : string) : (s +:+ t) +:+ u = s +:+ (t +:+ u).
Proof.
  induction s as [|c s IH]; [done|].
  change (String c (s +:+ t) +:+ u = String c (s +:+ (t +:+ u))).
  change (String c ((s +:+ t) +:+ u) = String c (s +:+ (t +:+ u))).
  by rewrite IH.
Qed.

Lemma split_comma_app str :
  ∀ acc rest,
    comma_free str = true →
    split_comma acc (str +:+ rest) = split_comma (acc +:+ str) rest.
Proof.
  induction str as [|c str IH]; intros acc rest Hc.
  - by rewrite string_app_empty_r.
  - cbn [comma_free] in Hc. apply andb_true_iff in Hc as [Hc Hs].
    apply negb_true_iff in Hc.
    change (String c str +:+ rest) with (String c (str +:+ rest)).
    cbn [split_comma]. rewrite Hc, IH by done. f_equal.
    by rewrite string_app_assoc.
Qed.

Lemma unkey_key_all (s : list Z) : s ≠ [] → unkey (key s) = s.
Proof.
  induction s as [|x s IH]; intros Hne; [done|].
  rewrite key_cons. unfold unkey. destruct s as [|y s].
  - rewrite <- (string_app_empty_r (pretty x)).
    rewrite split_comma_app by apply comma_free_pretty.
    cbn [split_comma fmap list_fmap]. change ("" +:+ pretty x) with (pretty x).
    by rewrite Number_pretty.
  - rewrite split_comma_app by apply comma_free_pretty.
    change ("," +:+ key (y :: s)) with (String "," (key (y :: s))).
    cbn [split_comma]. simpl Ascii.eqb. cbn iota. cbn [fmap list_fmap].
    change ("" +:+ pretty x) with (pretty x). rewrite Number_pretty.
    f_equal. by apply IH.
Qed.

Lemma key_inj_all (s t : list Z) : key s = key t → s = t.
Proof.
  assert (∀ t : list Z, t ≠ [] → key [] ≠ key t) as Hnil.
  { intros u Hu Hk. pose proof (unkey_key_all u Hu) as Hr.
    rewrite <- Hk in Hr. by subst u. }
  intros Hk.
  destruct (decide (s = [])) as [->|Hs], (decide (t = [])) as [->|Ht]; [done|..].
  - by destruct (Hnil t Ht).
  - by destruct (Hnil s Hs).
  - rewrite <- (unkey_key_all s), <- (unkey_key_all t) by done. by rewrite Hk.
Qed.

(** X1.  Splitting a key at its commas and reading the pieces as numbers
    gives back the array the key was made from, for every non-empty array of
    safe integers (the integers that JavaScript holds exactly and writes
    digit by digit); the key of the empty array is the empty string, which
    reads back as [[0]]. *)
Theorem key_round_trip (s : list Z) :
  Forall safe_integer s →
  unkey (key s) = match s with [] => [0] | _ => s end.
Proof. intros _. destruct s as [|x s]; [done|]. by apply unkey_key_all. Qed.

Lemma key_round_trip_witness :
  Forall safe_integer [-12; 0; 9007199254740991] ∧
  key [-12; 0; 9007199254740991] = "-12,0,9007199254740991" ∧
  unkey (key [-12; 0; 9007199254740991]) = [-12; 0; 9007199254740991].
Proof.
  assert (Forall safe_integer [-12; 0; 9007199254740991]) as Hs.
  { repeat (apply List.Forall_cons; [unfold safe_integer; lia|]). apply List.Forall_nil. }
  split; [exact Hs|]. split; [reflexivity|].
  exact (key_round_trip [-12; 0; 9007199254740991] Hs).
Defined.

(** X2.  Two arrays of safe integers have the same key exactly when they are
    the same array, so the test [key(s) === key(GOAL)] of the solver and the
    keys of its two maps identify such arrays, not only configurations. *)
Theorem key_eq_iff (s t : list Z) :
  Forall safe_integer s → Forall safe_integer t →
  (key s = key t ↔ s = t) ∧
  String.eqb (key s) (key t) = bool_decide (s = t).
Proof.
  intros _ _.
  assert (key s = key t ↔ s = t) as Hi.
  { split; [apply key_inj_all|by intros ->]. }
  split; [done|]. destruct (String.eqb_spec (key s) (key t)) as [E|E].
  - by rewrite bool_decide_eq_true_2 by (by apply Hi).
  - by rewrite bool_decide_eq_false_2 by (by rewrite <- Hi).
Qed.

Lemma key_eq_iff_witness :
  Forall safe_integer [1; 12] ∧ Forall safe_integer [11; 2] ∧
  key [1; 12] ≠ key [11; 2].
Proof.
  assert (Forall safe_integer [1; 12]) as Hs.
  { repeat (apply List.Forall_cons; [unfold safe_integer; lia|]). apply List.Forall_nil. }
  assert (Forall safe_integer [11; 2]) as Ht.
  { repeat (apply List.Forall_cons; [unfold safe_integer; lia|]). apply List.Forall_nil. }
  split; [exact Hs|]. split; [exact Ht|].
  intros E. by apply (proj1 (key_eq_iff [1; 12] [11; 2] Hs Ht)) in E.
Defined.

(** * Positions and cells *)

Lemma indexOf_from_absent i (s : list Z) v : v ∉ s → indexOf_from i s v = -1.
Proof.
  revert i. induction s as [|x s IH]; intros i Hnot; [done|].
  apply not_elem_of_cons in Hnot as [Hne Hnot]. simpl.
  destruct (Z.eqb_spec x v); [done|]. by apply IH.
Qed.

(** X3.  On a configuration [pos] and the array read are inverse to each
    other: [s[pos(s, v)] = v] for each of the values 0..8, with the position
    in range, [pos(s, s[i]) = i] for each cell, and [pos] is -1 for every
    other value. *)
Theorem pos_aget_inverse (s : State) :
  valid s →
  (∀ v, 0 ≤ v ≤ 8 → 0 ≤ pos s v ≤ 8 ∧ aget s (pos s v) = v) ∧
  (∀ i, 0 ≤ i ≤ 8 → 0 ≤ aget s i ≤ 8 ∧ pos s (aget s i) = i) ∧
  (∀ v, ¬ 0 ≤ v ≤ 8 → pos s v = -1).
Proof.
  intros Hv. split_and!.
  - intros v Hr. destruct (valid_pos s v Hv Hr) as (k & Hk & Hsk & ->).
    split; [lia|]. apply aget_lookup; [lia|]. by rewrite Nat2Z.id.
  - intros i Hi. destruct (valid_lookup s (Z.to_nat i) Hv) as (x & Hx & Hr); [lia|].
    rewrite (aget_lookup s i x) by (done || lia). split; [done|].
    unfold pos. rewrite (indexOf_NoDup s x (Z.to_nat i)); [lia|by apply valid_NoDup|done].
  - intros v Hr. apply indexOf_from_absent. by rewrite (valid_elem s v Hv).
Qed.

Lemma pos_aget_inverse_witness :
  valid hard_instance ∧ pos hard_instance (aget hard_instance 4) = 4 ∧
  aget hard_instance (pos hard_instance 7) = 7.
Proof.
  assert (valid hard_instance) as Hv by prove_valid.
  destruct (pos_aget_inverse hard_instance Hv) as (Hp & Ha & _).
  split; [exact Hv|]. split.
  - exact (proj2 (Ha 4 ltac:(lia))).
  - exact (proj2 (Hp 7 ltac:(lia))).
Defined.

(** * The heuristic, move by move *)

Lemma cell_dist_adjacent j k x :
  cell_dist j k = 1 →
  cell_dist k x = cell_dist j x + 1 ∨ cell_dist k x = cell_dist j x - 1.
Proof. unfold cell_dist. lia. Qed.

Lemma cell_dist_zero i j : 0 ≤ i ≤ 8 → 0 ≤ j ≤ 8 → cell_dist i j = 0 → i = j.
Proof.
  unfold cell_dist, row, col. intros Hi Hj H.
  assert (i `div` 3 = j `div` 3 ∧ i `rem` 3 = j `rem` 3) as [Hr Hc] by lia.
  rewrite (Z.quot_rem' i 3), (Z.quot_rem' j 3).
  rewrite !Z.quot_div_nonneg, Hr, Hc by lia. done.
Qed.

Lemma cell_dist_nonneg i j : 0 ≤ cell_dist i j.
Proof. unfold cell_dist. lia. Qed.

(** X4.  A legal move changes the heuristic by exactly one, up or down: one
    tile moves by one cell. *)
Theorem manhattan_step (s n : State) :
  valid s → n ∈ neighbors s →
  manhattan n = manhattan s + 1 ∨ manhattan n = manhattan s - 1.
Proof.
  intros Hv He.
  destruct (edge_swap s n Hv He) as (k & j & Hk & Hj & Hsk & _ & Hmv & ->).
  destruct (moves_range (Z.of_nat k) (Z.of_nat j)) as [_ Hne]; [lia|done|].
  apply moves_adjacent in Hmv as [_ Hadj]; [|lia]. unfold adjacent in Hadj.
  destruct (valid_lookup s j Hv Hj) as (t & Hsj & Ht).
  assert (t ≠ 0) as Ht0.
  { intros ->. pose proof (NoDup_lookup s j k 0 (valid_NoDup s Hv) Hsj Hsk). lia. }
  assert (pos s t = Z.of_nat j) as Hpt
    by (by apply indexOf_NoDup; [apply valid_NoDup|]).
  rewrite cell_dist_sym in Hadj.
  pose proof (cell_dist_adjacent (Z.of_nat j) (Z.of_nat k) (t - 1) Hadj) as Hstep.
  pose proof (pos_swap_tile s k j t Hv Hk Hj ltac:(lia) Hsk Hsj) as Hnt.
  pose proof (λ v, pos_swap_other s k j t v Hv Hk Hj Hsk Hsj) as Hno.
  rewrite !manhattan_sum.
  assert (t = 1 ∨ t = 2 ∨ t = 3 ∨ t = 4 ∨ t = 5 ∨ t = 6 ∨ t = 7 ∨ t = 8)
    as Hc by lia.
  clear Ht Ht0.
  destruct_or!; subst t; rewrite Hnt, ?Hno by lia; rewrite Hpt;
    change (1 - 1) with 0 in Hstep; change (2 - 1) with 1 in Hstep;
    change (3 - 1) with 2 in Hstep; change (4 - 1) with 3 in Hstep;
    change (5 - 1) with 4 in Hstep; change (6 - 1) with 5 in Hstep;
    change (7 - 1) with 6 in Hstep; change (8 - 1) with 7 in Hstep; lia.
Qed.

Lemma manhattan_step_witness :
  valid one_move ∧ GOAL ∈ neighbors one_move ∧
  (manhattan GOAL = manhattan one_move + 1 ∨
   manhattan GOAL = manhattan one_move - 1).
Proof.
  assert (valid one_move) as Hv by prove_valid.
  assert (GOAL ∈ neighbors one_move) as He by (vm_compute; set_solver).
  split; [exact Hv|]. split; [exact He|].
  exact (manhattan_step one_move GOAL Hv He).
Defined.

(** X5.  On a configuration the heuristic is never negative, it is zero at
    the goal and nowhere else, and it is at most the number of moves of any
    sequence of legal moves that ends in the goal. *)
Theorem manhattan_lower_bound (s : State) :
  valid s →
  0 ≤ manhattan s ∧ (manhattan s = 0 ↔ s = GOAL) ∧
  ∀ p, is_walk s p → walk_end s p = GOAL → manhattan s ≤ Z.of_nat (length p).
Proof.
  intros Hv. split_and!.
  - rewrite manhattan_sum.
    pose proof (λ v g, cell_dist_nonneg (pos s v) g) as Hn.
    pose proof (Hn 1 0); pose proof (Hn 2 1); pose proof (Hn 3 2);
      pose proof (Hn 4 3); pose proof (Hn 5 4); pose proof (Hn 6 5);
      pose proof (Hn 7 6); pose proof (Hn 8 7). lia.
  - split; [|by intros ->].
    rewrite manhattan_sum. intros H0.
    pose proof (λ v g, cell_dist_nonneg (pos s v) g) as Hn.
    assert (∀ v, 1 ≤ v ≤ 8 → cell_dist (pos s v) (v - 1) = 0 →
                 s !! Z.to_nat (v - 1) = Some v) as Hcell.
    { intros v Hr Hd. destruct (valid_pos s v Hv) as (k & Hk & Hsk & Hp); [lia|].
      rewrite Hp in Hd. apply cell_dist_zero in Hd; [|lia..].
      by rewrite <- Hd, Nat2Z.id. }
    pose proof (Hn 1 0); pose proof (Hn 2 1); pose proof (Hn 3 2);
      pose proof (Hn 4 3); pose proof (Hn 5 4); pose proof (Hn 6 5);
      pose proof (Hn 7 6); pose proof (Hn 8 7).
    pose proof (Hcell 1 ltac:(lia) ltac:(change (1 - 1) with 0; lia)) as E1.
    pose proof (Hcell 2 ltac:(lia) ltac:(change (2 - 1) with 1; lia)) as E2.
    pose proof (Hcell 3 ltac:(lia) ltac:(change (3 - 1) with 2; lia)) as E3.
    pose proof (Hcell 4 ltac:(lia) ltac:(change (4 - 1) with 3; lia)) as E4.
    pose proof (Hcell 5 ltac:(lia) ltac:(change (5 - 1) with 4; lia)) as E5.
    pose proof (Hcell 6 ltac:(lia) ltac:(change (6 - 1) with 5; lia)) as E6.
    pose proof (Hcell 7 ltac:(lia) ltac:(change (7 - 1) with 6; lia)) as E7.
    pose proof (Hcell 8 ltac:(lia) ltac:(change (8 - 1) with 7; lia)) as E8.
    clear Hcell Hn H0.
    destruct (valid_shape s Hv) as (a & b & c & d & e & f' & g' & h & i & ->).
    vm_compute in E1, E2, E3, E4, E5, E6, E7, E8. simplify_eq.
    assert (0 ∈ [1; 2; 3; 4; 5; 6; 7; 8; i]) as Hi
      by (apply (valid_elem _ 0 Hv); lia).
    repeat (apply list.elem_of_cons in Hi as [Hi|Hi]; [try done|]); [by subst|].
    by apply list.elem_of_nil in Hi.
  - intros p. by apply manhattan_admissible.
Qed.

Lemma manhattan_lower_bound_witness :
  valid one_move ∧ manhattan one_move = 1 ∧
  (manhattan one_move = 0 ↔ one_move = GOAL).
Proof.
  assert (valid one_move) as Hv by prove_valid.
  destruct (manhattan_lower_bound one_move Hv) as (_ & Hz & _).
  split; [exact Hv|]. split; [reflexivity|exact Hz].
Defined.

(** * The open list in order *)

Lemma scanMin_first (op : list Node) l :
  ∀ i mi fmi ndm,
    drop i op = l → op !! mi = Some ndm → f ndm = fmi → (mi < i)%nat →
    (∀ j nd, (j < mi)%nat → op !! j = Some nd → fmi < f nd) →
    (∀ j nd, (j < i)%nat → op !! j = Some nd → fmi ≤ f nd) →
    ∃ m nd, scanMin l i mi fmi = m ∧ op !! m = Some nd ∧
            (∀ j nd', (j < m)%nat → op !! j = Some nd' → f nd < f nd') ∧
            (∀ j nd', op !! j = Some nd' → f nd ≤ f nd').
Proof.
  induction l as [|n l IH]; intros i mi fmi ndm Hdrop Hmi Hf Hlt Hbefore Hmin; simpl.
  - exists mi, ndm. rewrite Hf. split_and!; [done..|].
    intros j nd' Hj. apply (Hmin j); [|done].
    apply drop_nil_inv in Hdrop. apply lookup_lt_Some in Hj. lia.
  - assert (op !! i = Some n) as Hi.
    { rewrite <- (Nat.add_0_r i), <- lookup_drop, Hdrop. done. }
    assert (drop (S i) op = l) as Hdrop'.
    { by rewrite (drop_S _ _ _ Hi) in Hdrop; injection Hdrop. }
    destruct (Z.ltb_spec (f n) fmi).
    + apply (IH (S i) i (f n) n); try done; [lia| |].
      * intros j nd Hj Hnd. specialize (Hmin j nd Hj Hnd). lia.
      * intros j nd Hj Hnd. destruct (decide (j = i)) as [->|Hne].
        { rewrite Hi in Hnd. injection Hnd as <-. lia. }
        assert (j < i)%nat as Hj' by lia. specialize (Hmin j nd Hj' Hnd). lia.
    + apply (IH (S i) mi fmi ndm); try done; [lia|].
      intros j nd Hj Hnd. destruct (decide (j = i)) as [->|Hne].
      { rewrite Hi in Hnd. injection Hnd as <-. lia. }
      apply (Hmin j); [lia|done].
Qed.

(** X6.  [popMin] takes out the first node among those of least [f] and
    leaves the others in their order: the nodes before it have a strictly
    larger [f], the nodes after it an [f] that is no smaller. *)
Theorem popMin_first (op : list Node) (nd : Node) (rest : list Node) :
  popMin op = Some (nd, rest) →
  ∃ l1 l2, op = l1 ++ nd :: l2 ∧ rest = l1 ++ l2 ∧
           Forall (λ x, f nd < f x) l1 ∧ Forall (λ x, f nd ≤ f x) l2.
Proof.
  destruct op as [|n0 op0]; [done|]. unfold popMin. cbv zeta. intros [= <- <-].
  destruct (scanMin_first (n0 :: op0) op0 1 0 (f n0) n0)
    as (m & nd & Hm & Hnd & Hbefore & Hmin); try done; [lia|lia| |].
  { intros j nd Hj Hx. assert (j = 0%nat) as -> by lia.
    injection Hx as <-. lia. }
  change (match scanMin op0 1 0 (f n0) with
          | 0%nat => n0
          | S m => nth m op0 n0
          end) with (nth (scanMin op0 1 0 (f n0)) (n0 :: op0) n0).
  rewrite Hm, (nth_lookup_Some _ _ _ _ Hnd).
  exists (take m (n0 :: op0)), (drop (S m) (n0 :: op0)). split_and!.
  - by rewrite <- (take_drop_middle _ _ _ Hnd) at 1.
  - apply delete_take_drop.
  - apply list.Forall_forall. intros x Hx.
    apply list_elem_of_lookup in Hx as [j Hj].
    pose proof (lookup_lt_Some _ _ _ Hj) as Hlen. rewrite length_take in Hlen.
    rewrite lookup_take_lt in Hj by lia. apply (Hbefore j); [lia|done].
  - apply list.Forall_forall. intros x Hx.
    apply list_elem_of_lookup in Hx as [j Hj]. rewrite lookup_drop in Hj.
    by apply (Hmin _ _ Hj).
Qed.

Lemma popMin_first_witness :
  popMin [mkNode 5 0 GOAL; mkNode 3 1 GOAL; mkNode 3 2 GOAL]
    = Some (mkNode 3 1 GOAL, [mkNode 5 0 GOAL; mkNode 3 2 GOAL]) ∧
  ∃ l1 l2,
    [mkNode 5 0 GOAL; mkNode 3 1 GOAL; mkNode 3 2 GOAL]
      = l1 ++ mkNode 3 1 GOAL :: l2 ∧
    [mkNode 5 0 GOAL; mkNode 3 2 GOAL] = l1 ++ l2 ∧
    Forall (λ x, f (mkNode 3 1 GOAL) < f x) l1 ∧
    Forall (λ x, f (mkNode 3 1 GOAL) ≤ f x) l2.
Proof.
  split; [reflexivity|].
  exact (popMin_first
           [mkNode 5 0 GOAL; mkNode 3 1 GOAL; mkNode 3 2 GOAL]
           (mkNode 3 1 GOAL) [mkNode 5 0 GOAL; mkNode 3 2 GOAL] eq_refl).
Defined.

(** * Moves and clicks taken back *)

Lemma swap_blank_back s k j :
  valid s → (k < 9)%nat → (j < 9)%nat → s !! k = Some 0 →
  swap (swap s (Z.of_nat k) (Z.of_nat j)) (Z.of_nat j) (Z.of_nat k) = s.
Proof.
  intros Hv Hk Hj Hsk.
  destruct (valid_lookup s j Hv Hj) as (t & Hsj & _).
  destruct (swap_blank_lookup s k j Hv Hk Hj Hsk) as (Hnj & Hnk & Hno).
  destruct (decide (j = k)) as [->|Hjk].
  - apply list_eq. intros m. rewrite (swap_lookup _ k k 0 0); [|done..].
    destruct (decide (m = k)) as [->|Hmk]; [done|]. by apply Hno.
  - rewrite Hsj in Hnk. apply list_eq. intros m.
    rewrite (swap_lookup _ j k 0 t); [|done|by apply Hnk].
    destruct (decide (m = k)) as [->|Hmk]; [done|].
    destruct (decide (m = j)) as [->|Hmj]; [done|]. by apply Hno.
Qed.

(** X7.  Every successor of a configuration is a configuration that
    differs from it, with the blank in another cell, and the configuration is
    in turn a successor of each of its successors. *)
Theorem neighbors_reversible (s n : State) :
  valid s → n ∈ neighbors s →
  valid n ∧ s ∈ neighbors n ∧ n ≠ s ∧ pos n 0 ≠ pos s 0.
Proof.
  intros Hv He. pose proof (valid_edge s n Hv He) as Hn.
  pose proof (edge_sym s n Hv He) as Hback.
  destruct (edge_swap s n Hv He) as (k & j & Hk & Hj & Hsk & Hpos & Hmv & ->).
  destruct (moves_range (Z.of_nat k) (Z.of_nat j)) as [_ Hne]; [lia|done|].
  assert (pos (swap s (Z.of_nat k) (Z.of_nat j)) 0 ≠ pos s 0) as Hp.
  { rewrite (pos_swap_blank s k j Hv Hk Hj Hsk), Hpos. done. }
  split_and!; [done|done| |done]. intros E. by rewrite E in Hp.
Qed.

Lemma neighbors_reversible_witness :
  valid one_move ∧ GOAL ∈ neighbors one_move ∧ one_move ∈ neighbors GOAL.
Proof.
  assert (valid one_move) as Hv by prove_valid.
  assert (GOAL ∈ neighbors one_move) as He by (vm_compute; set_solver).
  split; [exact Hv|]. split; [exact He|].
  exact (proj1 (proj2 (neighbors_reversible one_move GOAL Hv He))).
Defined.

(** X8.  When a click on cell [i] moves a tile, the new state is a
    configuration with the blank at [i], [i] was not the cell of the blank,
    and a click on the cell the blank has left gives back the state before
    the click. *)
Theorem tryMove_undo (C : State) (i : Z) (s' : State) :
  valid C → 0 ≤ i ≤ 8 → tryMove false C i = Some s' →
  valid s' ∧ pos s' 0 = i ∧ i ≠ pos C 0 ∧
  tryMove false s' (pos C 0) = Some C.
Proof.
  intros Hv Hi Hm. pose proof Hm as Hm'. rewrite tryMove_unfold in Hm'.
  destruct (Z.eqb_spec (cell_dist (pos C 0) i) 1) as [Hd|]; [|done].
  destruct (tryMove_edge C i s' Hv Hi Hm) as [-> He].
  destruct (valid_blank C Hv) as (k & Hk & Hsk & Hpos). rewrite Hpos in *.
  assert (i = Z.of_nat (Z.to_nat i)) as Hi' by lia.
  assert (Z.to_nat i < 9)%nat as Hj by lia.
  rewrite Hi'. rewrite (pos_swap_blank C k _ Hv Hk Hj Hsk).
  split_and!; [by apply valid_swap|done| |].
  - rewrite <- Hi'. intros ->. unfold cell_dist in Hd. lia.
  - rewrite tryMove_unfold, (pos_swap_blank C k _ Hv Hk Hj Hsk).
    rewrite <- Hi' at 1. rewrite cell_dist_sym, Hd. simpl.
    by rewrite (swap_blank_back C k _ Hv Hk Hj Hsk).
Qed.

Lemma tryMove_undo_witness :
  valid GOAL ∧ 0 ≤ 7 ≤ 8 ∧ tryMove false GOAL 7 = Some one_move ∧
  tryMove false one_move (pos GOAL 0) = Some GOAL.
Proof.
  assert (0 ≤ 7 ≤ 8) as Hi by lia.
  split; [exact valid_GOAL|]. split; [exact Hi|]. split; [reflexivity|].
  exact (proj2 (proj2 (proj2
           (tryMove_undo GOAL 7 one_move valid_GOAL Hi eq_refl)))).
Defined.

(** * The inversion count *)

Lemma count_gt_le x l : count_gt x l ≤ Z.of_nat (length l).
Proof.
  induction l as [|y l IH]; [done|]. cbn [count_gt length].
  pose proof (gtz_range x y). lia.
Qed.

Lemma count_gt_zero x l : count_gt x l = 0 ↔ Forall (Z.le x) l.
Proof.
  induction l as [|y l IH]; [by split|]. cbn [count_gt].
  rewrite list.Forall_cons, <- IH.
  pose proof (count_gt_nonneg x l). unfold gtz.
  destruct (Z.gtb_spec x y); lia.
Qed.

Lemma inv_list_le a :
  2 * inv_list a ≤ Z.of_nat (length a) * (Z.of_nat (length a) - 1).
Proof.
  induction a as [|x a IH]; [done|]. cbn [inv_list length].
  pose proof (count_gt_le x a). nia.
Qed.

Lemma inv_list_zero a : inv_list a = 0 ↔ StronglySorted Z.le a.
Proof.
  induction a as [|x a IH]; [split; [constructor|done]|]. cbn [inv_list].
  rewrite StronglySorted_cons, <- IH, <- count_gt_zero.
  pose proof (count_gt_nonneg x a). pose proof (inv_list_nonneg a). lia.
Qed.

Lemma valid_tiles s : valid s → filter (λ x, x ≠ 0) s ≡ₚ [1; 2; 3; 4; 5; 6; 7; 8].
Proof. intros Hv. unfold valid in Hv. by rewrite Hv. Qed.

(** X9.  [inversions] counts, for each tile, the tiles after it that are
    smaller.  It is never negative, it is zero exactly when the tiles stand
    in increasing order, and on a configuration it is at most 28 and is zero
    exactly when the tiles read 1, 2, ..., 8. *)
Theorem inversions_sorted (s : State) :
  inversions s = inv_list (filter (λ x, x ≠ 0) s) ∧
  0 ≤ inversions s ∧
  (inversions s = 0 ↔ StronglySorted Z.le (filter (λ x, x ≠ 0) s)) ∧
  (valid s →
   inversions s ≤ 28 ∧
   (inversions s = 0 ↔ filter (λ x, x ≠ 0) s = [1; 2; 3; 4; 5; 6; 7; 8])).
Proof.
  unfold inversions. rewrite inversions_loop_inv_list.
  split_and!; [done|apply inv_list_nonneg|apply inv_list_zero|].
  intros Hv. pose proof (valid_tiles s Hv) as Hp.
  assert (StronglySorted Z.le [1; 2; 3; 4; 5; 6; 7; 8]) as Hsorted.
  { by apply inv_list_zero. }
  split.
  - pose proof (inv_list_le (filter (λ x, x ≠ 0) s)) as Hle.
    rewrite (Permutation_length Hp) in Hle.
    change (length [1; 2; 3; 4; 5; 6; 7; 8]) with 8%nat in Hle. lia.
  - rewrite inv_list_zero. split.
    + intros Hs. exact (StronglySorted_unique Z.le _ _ Hs Hsorted Hp).
    + intros ->. exact Hsorted.
Qed.

(** * Arrays without a blank *)

Lemma neighbors_no_blank (s : list Z) : 0 ∉ s → neighbors s = [].
Proof.
  intros Hnot. unfold neighbors, pos, indexOf.
  by rewrite (indexOf_from_absent 0 s 0 Hnot).
Qed.

(** X10.  On an array that holds no 0, of any length: [pos] of the blank is
    -1, there are no successors, no click moves anything, and the solver
    returns [null] after one expansion. *)
Theorem no_blank (s : list Z) :
  0 ∉ s →
  pos s 0 = -1 ∧ neighbors s = [] ∧
  (∀ i, 0 ≤ i → tryMove false s i = None) ∧
  (∀ fuel, (2 ≤ fuel)%nat → aStar fuel s = Done None).
Proof.
  intros Hnot.
  assert (pos s 0 = -1) as Hp by (by apply indexOf_from_absent).
  split_and!; [done|by apply neighbors_no_blank| |].
  - intros i Hi. rewrite tryMove_unfold, Hp.
    destruct (Z.eqb_spec (cell_dist (-1) i) 1) as [Hd|]; [|done].
    unfold cell_dist, row, col in Hd.
    assert (0 ≤ i `div` 3) by (apply Z.div_pos; lia).
    assert (0 ≤ i `rem` 3) by (apply Z.rem_nonneg; lia).
    change ((-1) `div` 3) with (-1) in Hd. change ((-1) `rem` 3) with (-1) in Hd. lia.
  - intros fuel Hf. unfold aStar.
    destruct (String.eqb_spec (key s) (key GOAL)) as [E|E].
    { apply key_inj_all in E. subst s. destruct Hnot. compute_done. }
    destruct fuel as [|[|fuel]]; [lia|lia|].
    unfold init. cbn [search popMin scanMin open nth delete list_delete st g parent gbest].
    apply String.eqb_neq in E. rewrite E.
    unfold expand. rewrite (neighbors_no_blank s Hnot). done.
Qed.

Lemma no_blank_witness :
(0 ∉ [1; 2; 3; 4; 5; 6; 7; 8; 9]) ∧
  neighbors [1; 2; 3; 4; 5; 6; 7; 8; 9] = [] ∧
  aStar 2 [1; 2; 3; 4; 5; 6; 7; 8; 9] = Done None.
Proof.
  assert (0 ∉ [1; 2; 3; 4; 5; 6; 7; 8; 9]) as Hnot by compute_done.
  destruct (no_blank _ Hnot) as (_ & Hn & _ & Ha).
  split; [exact Hnot|]. split; [exact Hn|exact (Ha 2%nat (le_n _))].
Defined.

(** * The reach of the scramble *)

Lemma draw_for_spec j i :
  1 ≤ i ≤ 11 → 0 ≤ j ≤ i →
  is_random (draw_for j i) ∧ random_index (draw_for j i) i = j.
Proof.
  intros Hi Hj.
  assert (i ∈ [1; 2; 3; 4; 5; 6; 7; 8; 9; 10; 11]) as Hci.
  { assert (i = 1 ∨ i = 2 ∨ i = 3 ∨ i = 4 ∨ i = 5 ∨ i = 6 ∨ i = 7 ∨ i = 8
            ∨ i = 9 ∨ i = 10 ∨ i = 11) as Hc by lia.
    destruct_or!; subst i; compute_done. }
  assert (j ∈ [0; 1; 2; 3; 4; 5; 6; 7; 8; 9; 10; 11]) as Hcj.
  { assert (j = 0 ∨ j = 1 ∨ j = 2 ∨ j = 3 ∨ j = 4 ∨ j = 5 ∨ j = 6 ∨ j = 7
            ∨ j = 8 ∨ j = 9 ∨ j = 10 ∨ j = 11) as Hc by lia.
    destruct_or!; subst j; compute_done. }
  repeat (apply list.elem_of_cons in Hci as [->|Hci];
          [repeat (apply list.elem_of_cons in Hcj as [->|Hcj];
                   [first [lia|by vm_compute]|]);
           by apply list.elem_of_nil in Hcj|]).
  by apply list.elem_of_nil in Hci.
Qed.

Lemma fisher_yates_ext rnd rnd' n :
  ∀ k a, (∀ m, (k ≤ m)%nat → rnd m = rnd' m) →
         fisher_yates rnd k n a = fisher_yates rnd' k n a.
Proof.
  induction n as [|n IH]; intros k a Hext; [done|].
  cbn [fisher_yates]. rewrite (Hext k) by lia. apply IH.
  intros m Hm. apply Hext. lia.
Qed.

Lemma fisher_yates_onto n :
  ∀ k (a t : list Z),
    (n ≤ 8)%nat → (n < length a)%nat →
    take (S n) a ≡ₚ take (S n) t → drop (S n) a = drop (S n) t →
    ∃ rnd, (∀ m, is_random (rnd m)) ∧ fisher_yates rnd k n a = t.
Proof.
  induction n as [|n IH]; intros k a t Hn8 Hlen Htake Hdrop.
  - exists (λ _, S754_zero false). split; [done|]. cbn [fisher_yates].
    rewrite <- (take_drop 1 a), <- (take_drop 1 t), Hdrop. f_equal.
    destruct a as [|x a]; [simpl in Hlen; lia|]. destruct t as [|y t].
    + by apply Permutation_nil_r in Htake.
    + rewrite !firstn_cons, !take_0 in *. by apply Permutation_singleton_l in Htake.
  - assert (length t = length a) as Hlt.
    { rewrite <- (take_drop (S (S n)) a), <- (take_drop (S (S n)) t), !length_app.
      by rewrite Hdrop, (Permutation_length Htake). }
    destruct (lookup_lt_is_Some_2 t (S n)) as [x Hx]; [lia|].
    destruct (lookup_lt_is_Some_2 a (S n)) as [y Hy]; [lia|].
    assert (x ∈ take (S (S n)) a) as Hin.
    { rewrite Htake. apply list_elem_of_lookup. exists (S n).
      by rewrite lookup_take_lt by lia. }
    apply list_elem_of_lookup in Hin as [j Hj].
    pose proof (lookup_lt_Some _ _ _ Hj) as Hjlt. rewrite length_take in Hjlt.
    rewrite lookup_take_lt in Hj by lia.
    set (a' := swap a (Z.of_nat (S n)) (Z.of_nat j)).
    assert (∀ m, a' !! m = if decide (m = j) then Some y
                           else if decide (m = S n) then Some x else a !! m)
      as Hlook by (intros m; by apply swap_lookup).
    assert (length a' = length a) as Hlen' by apply length_swap.
    assert (drop (S (S n)) a' = drop (S (S n)) a) as Hd2.
    { apply list_eq. intros m. rewrite !lookup_drop, Hlook.
      rewrite decide_False by lia. by rewrite decide_False by lia. }
    assert (a' !! S n = Some x) as Hx'.
    { rewrite Hlook. destruct (decide (S n = j)) as [<-|_]; [congruence|].
      by rewrite decide_True. }
    assert (drop (S n) a' = drop (S n) t) as Hd1.
    { rewrite (drop_S _ _ _ Hx'), (drop_S _ _ _ Hx), Hd2, Hdrop. done. }
    assert (take (S n) a' ≡ₚ take (S n) t) as Ht1.
    { assert (take (S (S n)) a' ≡ₚ take (S (S n)) t) as Hp.
      { rewrite <- Htake. apply (Permutation_app_inv_r (drop (S (S n)) a')).
        rewrite take_drop, Hd2, take_drop.
        by apply (swap_Permutation a (S n) j y x). }
      rewrite (take_S_r _ _ _ Hx'), (take_S_r _ _ _ Hx) in Hp.
      by apply Permutation_app_inv_r in Hp. }
    destruct (IH (S k) a' t ltac:(lia) ltac:(lia) Ht1 Hd1) as (rnd' & Hok & Hrun).
    destruct (draw_for_spec (Z.of_nat j) (Z.of_nat (S n)) ltac:(lia) ltac:(lia))
      as [Hdraw Hpick].
    exists (λ m, if decide (m = k) then draw_for (Z.of_nat j) (Z.of_nat (S n))
                 else rnd' m).
    split.
    + intros m. by destruct (decide (m = k)).
    + cbn [fisher_yates]. rewrite decide_True by done.
      rewrite Hpick. fold a'.
      rewrite <- Hrun. apply fisher_yates_ext.
      intros m Hm. by rewrite decide_False by lia.
Qed.

Lemma shuffleSolvable_solvable rnd :
  (∀ k, is_random (rnd k)) →
  valid (shuffleSolvable rnd) ∧ isSolvable (shuffleSolvable rnd) = true.
Proof.
  intros Hrnd.
  assert (valid (fisher_yates rnd 0 (length GOAL - 1) GOAL)) as Ha.
  { apply fisher_yates_valid; [done|simpl; lia|apply valid_GOAL]. }
  unfold shuffleSolvable. set (a := fisher_yates rnd 0 (length GOAL - 1) GOAL) in *.
  split.
  - destruct (isSolvable a) eqn:Hs; simpl; [done|].
    destruct (valid_pos a 1 Ha) as (i & Hi & _ & Hpi); [lia|].
    destruct (valid_pos a 2 Ha) as (j & Hj & _ & Hpj); [lia|].
    unfold pos in Hpi, Hpj. rewrite Hpi, Hpj. by apply valid_swap.
  - destruct (isSolvable a) eqn:Hs; simpl; [done|].
    by rewrite isSolvable_relabel, Hs.
Qed.

(** X11.  Every solvable configuration is returned by [shuffleSolvable] for
    some sequence of draws of the random source, each of them a double in
    [0, 1), with the products rounded as double precision rounds them. *)
Theorem shuffleSolvable_onto (C : State) :
  valid C → isSolvable C = true →
  ∃ rnd, (∀ k, is_random (rnd k)) ∧ shuffleSolvable rnd = C.
Proof.
  intros Hv Hs. pose proof (valid_length C Hv) as Hlen.
  destruct (fisher_yates_onto 8 0 GOAL C) as (rnd & Hok & Hrun).
  - lia.
  - simpl. lia.
  - rewrite !take_ge by (simpl; lia). done.
  - rewrite !drop_ge by (simpl; lia). done.
  - exists rnd. split; [done|]. unfold shuffleSolvable.
    change (length GOAL - 1)%nat with 8%nat. by rewrite Hrun, Hs.
Qed.

Lemma shuffleSolvable_onto_witness :
  valid hard_instance ∧ isSolvable hard_instance = true ∧
  ∃ rnd, (∀ k, is_random (rnd k)) ∧ shuffleSolvable rnd = hard_instance.
Proof.
  assert (valid hard_instance) as Hv by prove_valid.
  split; [exact Hv|]. split; [reflexivity|].
  exact (shuffleSolvable_onto hard_instance Hv eq_refl).
Defined.

(** X12.  Whatever doubles in [0, 1) the random source draws, the solver
    run on the result of [shuffleSolvable] returns a path, the same on every
    run that returns, and the path leads from the scramble to the goal by
    legal moves. *)
Theorem shuffle_then_solve (rnd : nat → spec_float) :
  (∀ k, is_random (rnd k)) →
  ∃ path,
    (∀ fuel, (fuel_bound ≤ fuel)%nat →
             aStar fuel (shuffleSolvable rnd) = Done (Some path)) ∧
    (∀ fuel r, aStar fuel (shuffleSolvable rnd) = Done r → r = Some path) ∧
    is_walk (shuffleSolvable rnd) path ∧
    walk_end (shuffleSolvable rnd) path = GOAL.
Proof.
  intros Hrnd. destruct (shuffleSolvable_solvable rnd Hrnd) as [Hv Hs].
  destruct (aStar_solvable _ Hv Hs) as (path & (Hw & Hend & _) & Hrun).
  exists path. split_and!; [done| |done..].
  intros fuel r Hr. symmetry.
  exact (aStar_det fuel_bound fuel _ _ _ (Hrun fuel_bound (le_n _)) Hr).
Qed.

Lemma shuffle_then_solve_witness :
  (∀ k : nat, is_random third) ∧
  shuffleSolvable (λ _, third) = [6; 1; 0; 5; 2; 7; 8; 3; 4] ∧
  ∃ path, aStar fuel_bound (shuffleSolvable (λ _, third)) = Done (Some path) ∧
          walk_end (shuffleSolvable (λ _, third)) path = GOAL.
Proof.
  assert (∀ k : nat, is_random third) as Hrnd by (intros _; by vm_compute).
  split; [exact Hrnd|]. split; [reflexivity|].
  destruct (shuffle_then_solve (λ _, third) Hrnd) as (path & Hrun & _ & _ & Hend).
  exists path. split; [exact (Hrun fuel_bound (le_n _))|exact Hend].
Defined.

(** * The longest solutions *)

Lemma check_table_all : check_table dist_tab = true.
Proof. vm_compute. reflexivity. Qed.

Lemma check_table_parts t :
  check_table t = true →
  forall_perms 9 GOAL (check_bound t) = true ∧
  tlookup far_instance t = Some 31%nat.
Proof.
  unfold check_table. intros [H1 H2]%andb_prop. split; [done|].
  destruct (tlookup far_instance t) as [d|]; [|discriminate H2].
  apply Nat.eqb_eq in H2. by rewrite H2.
Qed.

Lemma check_bound_valid s : valid s → check_bound dist_tab s = true.
Proof.
  intros Hv. destruct (check_table_parts dist_tab check_table_all) as [H _].
  exact (forall_perms_sound 9 GOAL _ eq_refl H s Hv).
Qed.

Lemma table_far : tlookup far_instance dist_tab = Some 31%nat.
Proof. exact (proj2 (check_table_parts dist_tab check_table_all)). Qed.

Lemma table_walk d :
  ∀ s, valid s → isSolvable s = true → tlookup s dist_tab = Some d →
       ∃ p, is_walk s p ∧ walk_end s p = GOAL ∧ length p = d.
Proof.
  induction d as [|d IH]; intros s Hv Hs Hd;
    pose proof (check_state_valid s Hv) as Hc; unfold check_state in Hc;
    rewrite even_inversions_spec, Hs, Hd in Hc.
  - apply bool_decide_eq_true_1 in Hc as ->. clear Hd. by exists [].
  - apply existsb_exists in Hc as (n & Hn%list_elem_of_In & Hdn).
    destruct (tlookup n dist_tab) as [d'|] eqn:E; [|done].
    apply Nat.eqb_eq in Hdn as ->.
    destruct (IH n) as (p & Hw & Hend & Hlen);
      [exact (valid_edge s n Hv Hn)|by rewrite (isSolvable_edge s)|done|].
    exists (n :: p). split_and!; [done|by rewrite walk_end_cons|by rewrite <- Hlen].
Qed.

Lemma table_bound s :
  valid s → isSolvable s = true →
  ∃ d, tlookup s dist_tab = Some d ∧ (d ≤ 31)%nat ∧ (s = GOAL → d = 0%nat) ∧
       ∀ n, edge s n → ∃ d', tlookup n dist_tab = Some d' ∧ (d ≤ S d')%nat.
Proof.
  intros Hv Hs. pose proof (check_bound_valid s Hv) as Hc.
  unfold check_bound in Hc. rewrite even_inversions_spec, Hs in Hc.
  destruct (tlookup s dist_tab) as [d|]; [|done]. exists d.
  apply andb_true_iff in Hc as [Hc Hnb]. apply andb_true_iff in Hc as [Hle Hg].
  apply Nat.leb_le in Hle. split_and!; [done..| |].
  - intros ->. apply orb_true_iff in Hg as [Hg|Hg]; [|by apply Nat.eqb_eq].
    unfold state_eqb in Hg. by rewrite bool_decide_eq_true_2 in Hg.
  - intros n Hn. rewrite forallb_forall in Hnb.
    specialize (Hnb n (proj1 (list_elem_of_In _ _) Hn)).
    destruct (tlookup n dist_tab) as [d'|]; [|done]. exists d'.
    split; [done|]. by apply Nat.leb_le.
Qed.

Lemma table_lower p :
  ∀ s d, valid s → isSolvable s = true → tlookup s dist_tab = Some d →
         is_walk s p → walk_end s p = GOAL → (d ≤ length p)%nat.
Proof.
  induction p as [|n p IH]; intros s d Hv Hs Hd Hw Hend.
  - unfold walk_end in Hend. simpl in Hend. subst s.
    destruct (table_bound GOAL Hv Hs) as (d0 & Hd0 & _ & Hz & _).
    rewrite Hd in Hd0. injection Hd0 as ->. rewrite (Hz eq_refl). clear. lia.
  - destruct Hw as [He Hw]. rewrite walk_end_cons in Hend.
    destruct (table_bound s Hv Hs) as (d0 & Hd0 & _ & _ & Hnb).
    rewrite Hd in Hd0. injection Hd0 as <-.
    destruct (Hnb n He) as (d' & Hd' & Hle).
    pose proof (IH n d' (valid_edge s n Hv He)
                  ltac:(by rewrite (isSolvable_edge s)) Hd' Hw Hend).
    simpl. lia.
Qed.

Lemma optimal_suffix s n p : optimal_solution s (n :: p) → optimal_solution n p.
Proof.
  intros ((He & Hw) & Hend & Hmin). rewrite walk_end_cons in Hend.
  split_and!; [done..|]. intros p' Hw' Hend'.
  specialize (Hmin (n :: p') (conj He Hw')). rewrite walk_end_cons in Hmin.
  specialize (Hmin Hend'). simpl in Hmin. lia.
Qed.

Lemma optimal_NoDup p : ∀ s, optimal_solution s p → NoDup p.
Proof.
  induction p as [|n p IH]; intros s Hopt; [constructor|].
  pose proof (optimal_suffix s n p Hopt) as Hn.
  apply list.NoDup_cons. split; [by apply optimal_excludes_start|by apply (IH n)].
Qed.

Lemma walk_states s p :
  valid s → is_walk s p →
  Forall (λ n, valid n ∧ isSolvable n = isSolvable s) p.
Proof.
  revert s. induction p as [|n p IH]; intros s Hv Hw; [constructor|].
  destruct Hw as [He Hw]. pose proof (valid_edge s n Hv He) as Hn.
  pose proof (isSolvable_edge s n Hv He) as Hs.
  apply list.Forall_cons. split; [done|].
  rewrite <- Hs. by apply IH.
Qed.

(** X13.  A path returned by the solver for a configuration has at most 31
    states, and the configuration [far_instance] is one for which it
    returns a path of exactly 31. *)
Theorem aStar_at_most_31 :
  (∀ C fuel path, valid C → aStar fuel C = Done (Some path) →
                  (length path ≤ 31)%nat) ∧
  ∃ path, aStar fuel_bound far_instance = Done (Some path) ∧
          length path = 31%nat.
Proof.
  split.
  - intros C fuel path Hv Hrun. destruct (isSolvable C) eqn:Hs.
    + destruct (aStar_solvable C Hv Hs) as (path0 & (_ & _ & Hmin) & Hrun0).
      pose proof (aStar_det _ _ _ _ _ Hrun (Hrun0 fuel_bound (le_n _))) as [= ->].
      destruct (table_bound C Hv Hs) as (d & Hd & Hle & _).
      destruct (table_walk d C Hv Hs Hd) as (p & Hw & Hend & Hlen).
      specialize (Hmin p Hw Hend). lia.
    + pose proof (aStar_unsolvable_None C Hv Hs fuel_bound (le_n _)) as Hnone.
      by pose proof (aStar_det _ _ _ _ _ Hrun Hnone).
  - assert (valid far_instance) as Hv by prove_valid.
    assert (isSolvable far_instance = true) as Hs by reflexivity.
    destruct (aStar_solvable _ Hv Hs) as (path & (Hw & Hend & Hmin) & Hrun).
    exists path. split; [exact (Hrun fuel_bound (le_n _))|].
    pose proof (table_lower path _ _ Hv Hs table_far Hw Hend).
    destruct (table_walk _ _ Hv Hs table_far) as (p & Hw' & Hend' & Hlen).
    specialize (Hmin p Hw' Hend'). lia.
Qed.

(** X14.  When the solver returns a path for a configuration, the
    configuration is solvable, no state occurs twice among the configuration
    and the states of the path, every state of the path is a solvable
    configuration, and the path has at least as many states as the heuristic
    of the configuration says. *)
Theorem aStar_path_states (C : State) (fuel : nat) (path : list State) :
  valid C → aStar fuel C = Done (Some path) →
  isSolvable C = true ∧ NoDup (C :: path) ∧
  Forall (λ n, valid n ∧ isSolvable n = true) path ∧
  manhattan C ≤ Z.of_nat (length path).
Proof.
  intros Hv Hrun. destruct (isSolvable C) eqn:Hs.
  - destruct (aStar_solvable C Hv Hs) as (path0 & Hopt & Hrun0).
    pose proof (aStar_det _ _ _ _ _ Hrun (Hrun0 fuel_bound (le_n _))) as [= ->].
    split_and!; [done| | |].
    + apply list.NoDup_cons. split; [by apply optimal_excludes_start|].
      by apply (optimal_NoDup _ C).
    + destruct Hopt as (Hw & _). pose proof (walk_states C path0 Hv Hw) as Hall.
      by rewrite Hs in Hall.
    + destruct Hopt as (Hw & Hend & _). by apply manhattan_admissible.
  - pose proof (aStar_unsolvable_None C Hv Hs fuel_bound (le_n _)) as Hnone.
    by pose proof (aStar_det _ _ _ _ _ Hrun Hnone).
Qed.

Lemma aStar_path_states_witness :
  valid hard_instance ∧ aStar 1000 hard_instance = Done (Some hard_path) ∧
  NoDup (hard_instance :: hard_path).
Proof.
  assert (valid hard_instance) as Hv by prove_valid.
  split; [exact Hv|]. split; [exact aStar_hard_run|].
  exact (proj1 (proj2 (aStar_path_states hard_instance 1000 hard_path Hv
                         aStar_hard_run))).
Defined.

(** * The component *)

Import Component.

Lemma tryMove_valid b s i s' :
  valid s → 0 ≤ i < Z.of_nat (length s) → tryMove b s i = Some s' →
  valid s' ∧ isSolvable s' = isSolvable s.
Proof.
  intros Hv Hi Hm. destruct b; [done|]. rewrite (valid_length s Hv) in Hi.
  destruct (tryMove_edge s i s' Hv ltac:(lia) Hm) as [_ He].
  split; [exact (valid_edge s s' Hv He)|exact (isSolvable_edge s s' Hv He)].
Qed.

Lemma aStar_result C fuel r :
  valid C → isSolvable C = true → aStar fuel C = Done r →
  ∃ path, r = Some path ∧ optimal_solution C path.
Proof.
  intros Hv Hs Hrun. destruct (aStar_solvable C Hv Hs) as (path & Hopt & Hrun0).
  exists path. split; [|done].
  exact (aStar_det _ _ _ _ _ Hrun (Hrun0 fuel_bound (le_n _))).
Qed.

Lemma step_inv a a' : app_inv a → step a a' → app_inv a'.
Proof.
  intros (Hv & Hs & Hp & Hb) Hstep. destruct Hstep as
    [a ts|a rnd Ht Hrnd|a fuel r Ht Hbusy Hrun|a Ht Hbusy|a i Hi|a Hbusy].
  - done.
  - destruct (shuffleSolvable_solvable rnd Hrnd) as [Hv' Hs'].
    by split_and!.
  - destruct (aStar_result _ _ _ Hv Hs Hrun) as (path & -> & Hw & _ & _).
    destruct path as [|s rest]; [done|]. unfold doSolve, app_inv. cbn.
    pose proof (walk_states _ _ Hv Hw) as Hall. rewrite Hs in Hall.
    apply list.Forall_cons in Hall as [[Hv' Hs'] Hall]. by split_and!.
  - split_and!; [apply valid_GOAL|apply isSolvable_GOAL|done..].
  - unfold click. destruct (tryMove (busy a) (state a) i) as [s|] eqn:E; [|done].
    destruct (tryMove_valid _ _ _ _ Hv Hi E) as [Hv' Hs'].
    unfold app_inv. cbn. split_and!; [done|by rewrite Hs'|done..].
  - unfold resume. destruct (pending a) as [|s rest] eqn:E.
    + by split_and!.
    + apply list.Forall_cons in Hp as [[Hv' Hs'] Hall].
      unfold app_inv. cbn. split_and!; [done..|]. by rewrite Hbusy.
Qed.

Lemma app_reachable_inv a : app_reachable a → app_inv a.
Proof.
  unfold app_reachable. apply (rtc_ind_r (λ a, app_inv a)).
  - split_and!; [apply valid_GOAL|apply isSolvable_GOAL|done..].
  - intros a0 a' _ Hstep IH. by apply (step_inv a0).
Qed.

Lemma last_lookup_length {A} (l : list A) (x d y : A) :
  (x :: l) !! length l = Some y → List.last (x :: l) d = y.
Proof.
  revert x. induction l as [|z l IH]; intros x Hy.
  - by injection Hy.
  - change (List.last (x :: z :: l) d) with (List.last (z :: l) d).
    by apply IH.
Qed.

(** How far a running [doSolve] is after [k] timers. *)
Lemma resume_iter k :
  ∀ a s rest,
    pending a = s :: rest → (k < length (s :: rest))%nat →
    let a' := Nat.iter (S k) resume a in
    tiles a' = tiles a ∧ busy a' = busy a ∧
    (s :: rest) !! k = Some (state a') ∧ pending a' = drop (S k) (s :: rest).
Proof.
  induction k as [|k IH]; intros a s rest Hp Hk.
  - cbn. unfold resume. rewrite Hp. cbn. by rewrite drop_0.
  - cbn [length] in Hk.
    pose proof (IH a s rest Hp ltac:(cbn [length]; lia)) as Hit.
    cbv zeta in Hit. destruct Hit as (Ht & Hb & Hs & Hd).
    destruct (lookup_lt_is_Some_2 (s :: rest) (S k) Hk) as [x Hx].
    cbv zeta. rewrite Nat.iter_succ.
    generalize dependent (Nat.iter (S k) resume a). intros a1 Ht Hb Hs Hd.
    unfold resume. rewrite Hd, (drop_S _ _ _ Hx). cbn [tiles busy state pending].
    by rewrite Ht, Hb, Hx.
Qed.

(** X15.  In every state the component can reach from its mounting, by
    loading an image, by the buttons that are enabled, by clicks on the grid
    and by the timer of a running [doSolve], the state shown is a solvable
    configuration, and so is each state a running [doSolve] has yet to show;
    nothing is left to show when [busy] is off; and the solver, run on the
    state shown, returns a path: the [null] branch of [doSolve] is never
    taken. *)
Theorem app_solvable (a : App) :
  app_reachable a →
  valid (state a) ∧ isSolvable (state a) = true ∧
  Forall (λ s, valid s ∧ isSolvable s = true) (pending a) ∧
  (busy a = false → pending a = []) ∧
  (∀ fuel, (fuel_bound ≤ fuel)%nat → ∃ path, aStar fuel (state a) = Done (Some path)) ∧
  (∀ fuel, aStar fuel (state a) ≠ Done None).
Proof.
  intros Hr. destruct (app_reachable_inv a Hr) as (Hv & Hs & Hp & Hb).
  split_and!; [done..| |].
  - intros fuel Hf. destruct (aStar_solvable _ Hv Hs) as (path & _ & Hrun).
    exists path. by apply Hrun.
  - intros fuel Hrun. by destruct (aStar_result _ _ _ Hv Hs Hrun) as (path & ? & _).
Qed.

Lemma app_reachable_shuffled :
  app_reachable (doShuffle (λ _, third)
                   {| tiles := Some []; state := GOAL; busy := false;
                      pending := [] |}).
Proof.
  eapply rtc_r; [apply rtc_once, (step_tiles mounted [])|].
  apply step_shuffle; [by eexists|intros _; by vm_compute].
Qed.

Lemma app_solvable_witness :
  app_reachable (doShuffle (λ _, third)
                   {| tiles := Some []; state := GOAL; busy := false;
                      pending := [] |}) ∧
  isSolvable (shuffleSolvable (λ _, third)) = true.
Proof.
  split; [exact app_reachable_shuffled|].
  exact (proj1 (proj2 (app_solvable _ app_reachable_shuffled))).
Defined.

(** X16.  In a reachable state with [busy] off the solver returns a path
    for the state shown, the same on every run that returns, and a [doSolve]
    that runs on it with nothing else happening shows the states of the path
    one after the other, with [busy] on; after as many timers as the path
    has states the goal is shown, [busy] is off and the tiles are as
    before. *)
Theorem doSolve_run (a : App) :
  app_reachable a → busy a = false →
  ∃ path,
    (∀ fuel, (fuel_bound ≤ fuel)%nat → aStar fuel (state a) = Done (Some path)) ∧
    (∀ fuel r, aStar fuel (state a) = Done r → r = Some path) ∧
    optimal_solution (state a) path ∧
    (∀ k s, path !! k = Some s →
            let a' := Nat.iter k resume (doSolve (Some path) a) in
            state a' = s ∧ busy a' = true ∧ pending a' = drop (S k) path) ∧
    let a' := Nat.iter (length path) resume (doSolve (Some path) a) in
    state a' = GOAL ∧ busy a' = false ∧ pending a' = [] ∧ tiles a' = tiles a.
Proof.
  intros Hr Hbusy. destruct (app_reachable_inv a Hr) as (Hv & Hs & Hp & Hb).
  destruct (aStar_solvable _ Hv Hs) as (path & Hopt & Hrun).
  exists path. split; [done|]. split.
  { intros fuel r Hrun'.
    exact (aStar_det _ _ _ _ _ Hrun' (Hrun fuel_bound (le_n _))). }
  split; [done|]. split.
  - intros k s Hk. destruct path as [|s0 rest]; [done|].
    destruct k as [|k]; [by injection Hk as <-|].
    change ((s0 :: rest) !! S k) with (rest !! k) in Hk.
    pose proof (lookup_lt_Some _ _ _ Hk) as Hlt.
    destruct rest as [|s1 rest]; [done|].
    pose proof (resume_iter k (doSolve (Some (s0 :: s1 :: rest)) a) s1 rest
                  eq_refl Hlt) as Hit.
    cbv zeta in Hit. destruct Hit as (_ & Hb' & Hs' & Hd'). cbv zeta.
    rewrite Hk in Hs'. rewrite Hb', Hd'. split_and!; [congruence|done..].
  - destruct Hopt as (Hw & Hend & _). destruct path as [|s0 rest].
    { cbn. unfold walk_end in Hend. cbn in Hend. by rewrite Hb. }
    assert (List.last (s0 :: rest) (state a) = GOAL) as Hlast by done.
    clear Hend. cbn [length].
    destruct rest as [|s1 rest].
    + cbn in *. by subst s0.
    + cbn [length]. rewrite Nat.iter_succ.
      pose proof (resume_iter (length rest) (doSolve (Some (s0 :: s1 :: rest)) a)
                    s1 rest eq_refl ltac:(cbn; lia)) as Hit.
      cbv zeta in Hit. destruct Hit as (Ht' & Hb' & Hs' & Hd'). cbv zeta.
      generalize dependent (Nat.iter (S (length rest)) resume
                              (doSolve (Some (s0 :: s1 :: rest)) a)).
      intros a1 Ht' Hb' Hs' Hd'.
      unfold resume. rewrite Hd'. rewrite drop_ge by (cbn; lia).
      cbn [tiles busy state pending].
      split_and!; [|done..].
      change (List.last (s0 :: s1 :: rest) (state a))
        with (List.last (s1 :: rest) (state a)) in Hlast.
      rewrite <- Hlast. symmetry. by apply last_lookup_length.
Qed.

Lemma doSolve_run_witness :
  app_reachable (doShuffle (λ _, third)
                   {| tiles := Some []; state := GOAL; busy := false;
                      pending := [] |}) ∧
  ∃ path,
    aStar fuel_bound (shuffleSolvable (λ _, third)) = Done (Some path) ∧
    state (Nat.iter (length path) resume
             (doSolve (Some path)
                (doShuffle (λ _, third)
                   {| tiles := Some []; state := GOAL; busy := false;
                      pending := [] |}))) = GOAL.
Proof.
  split; [exact app_reachable_shuffled|].
  destruct (doSolve_run _ app_reachable_shuffled eq_refl)
    as (path & Hrun & _ & _ & _ & Hend).
  exists path. split; [exact (Hrun fuel_bound (le_n _))|exact (proj1 Hend)].
Defined.

(** * The image and the grid *)

Lemma slice_urls_value :
  slice_urls =
    [Slice (mkRect 0 0 200 200); Slice (mkRect 200 0 200 200);
     Slice (mkRect 400 0 200 200); Slice (mkRect 0 200 200 200);
     Slice (mkRect 200 200 200 200); Slice (mkRect 400 200 200 200);
     Slice (mkRect 0 400 200 200); Slice (mkRect 200 400 200 200);
     Slice (mkRect 400 400 200 200)].
Proof. reflexivity. Qed.

Lemma ratio_above_1 (w h : Q) : (0 < h)%Q → (1 < w / h)%Q ↔ (h < w)%Q.
Proof.
  intros Hh.
  assert (w / h * h == w)%Q as E by (field; lra).
  split; intros H.
  - apply (Qmult_lt_compat_r _ _ h Hh) in H. rewrite E in H. lra.
  - apply Qlt_shift_div_l; [done|lra].
Qed.

(** X20.  For an image with positive sides the crop of [sliceImage] is a
    square whose side is the shorter side of the image; it lies inside the
    image and leaves equal margins on both sides. *)
Theorem crop_square (width height : Z) :
  0 < width → 0 < height →
  ∃ sx sy sw sh,
    crop width height = (sx, sy, sw, sh) ∧
    (sw == sh)%Q ∧ (sw == inject_Z (Z.min width height))%Q ∧
    (0 <= sx)%Q ∧ (0 <= sy)%Q ∧
    (sx + sw <= inject_Z width)%Q ∧ (sy + sh <= inject_Z height)%Q ∧
    (sx + sw + sx == inject_Z width)%Q ∧ (sy + sh + sy == inject_Z height)%Q.
Proof.
  intros Hw Hh. unfold crop. cbv zeta.
  assert (0 < inject_Z width)%Q as Hwq
    by (change 0%Q with (inject_Z 0); rewrite <- Zlt_Qlt; lia).
  assert (0 < inject_Z height)%Q as Hhq
    by (change 0%Q with (inject_Z 0); rewrite <- Zlt_Qlt; lia).
  destruct (Qlt_le_dec 1 (inject_Z width / inject_Z height)) as [Hlt|Hle].
  - apply (proj1 (ratio_above_1 _ _ Hhq)) in Hlt.
    assert (height < width) as Hlt' by (by rewrite <- Zlt_Qlt in Hlt).
    eexists _, _, _, _. split; [reflexivity|].
    rewrite Z.min_r by lia. split_and!; try reflexivity; try lra; try (apply Qle_shift_div_l; lra);
      unfold Qdiv; change (/ 2)%Q with (1 # 2)%Q; lra.
  - assert (inject_Z width <= inject_Z height)%Q as Hle'q.
    { apply Qnot_lt_le. intros H. apply (proj2 (ratio_above_1 _ _ Hhq)) in H. lra. }
    assert (width ≤ height) as Hle' by (by rewrite <- Zle_Qle in Hle'q).
    eexists _, _, _, _. split; [reflexivity|].
    rewrite Z.min_l by lia. split_and!; try reflexivity; try lra; try (apply Qle_shift_div_l; lra);
      unfold Qdiv; change (/ 2)%Q with (1 # 2)%Q; lra.
Qed.

Lemma crop_square_witness :
  0 < 800 ∧ 0 < 600 ∧ crop 800 600 = (((800 - 600) / 2)%Q, 0%Q, 600%Q, 600%Q) ∧
  ∃ sx sy sw sh, crop 800 600 = (sx, sy, sw, sh) ∧ (sw == sh)%Q.
Proof.
  assert (0 < 800) as Hw by lia. assert (0 < 600) as Hh by lia.
  split; [exact Hw|]. split; [exact Hh|]. split; [reflexivity|].
  destruct (crop_square 800 600 Hw Hh) as (sx & sy & sw & sh & E & Hsq & _).
  exists sx, sy, sw, sh. split; [exact E|exact Hsq].
Defined.

(** X19.  The nine squares that [sliceImage] cuts tile the canvas: every
    point of the canvas lies in the square of its row and column, and in no
    other. *)
Theorem slice_urls_tiling (x y : Z) :
  0 ≤ x < size → 0 ≤ y < size →
  ∃ rect,
    slice_urls !! Z.to_nat (3 * (y / (size / 3)) + x / (size / 3))
      = Some (Slice rect) ∧
    inside rect x y ∧
    ∀ k rect', slice_urls !! k = Some (Slice rect') → inside rect' x y →
               k = Z.to_nat (3 * (y / (size / 3)) + x / (size / 3)).
Proof.
  unfold size. change (600 / 3) with 200. intros Hx Hy.
  assert (x / 200 = 0 ∨ x / 200 = 1 ∨ x / 200 = 2) as Hcx
    by (Z.div_mod_to_equations; lia).
  assert (y / 200 = 0 ∨ y / 200 = 1 ∨ y / 200 = 2) as Hcy
    by (Z.div_mod_to_equations; lia).
  rewrite slice_urls_value.
  assert (∀ k rect',
            [Slice (mkRect 0 0 200 200); Slice (mkRect 200 0 200 200);
             Slice (mkRect 400 0 200 200); Slice (mkRect 0 200 200 200);
             Slice (mkRect 200 200 200 200); Slice (mkRect 400 200 200 200);
             Slice (mkRect 0 400 200 200); Slice (mkRect 200 400 200 200);
             Slice (mkRect 400 400 200 200)] !! k = Some (Slice rect') →
            inside rect' x y →
            Z.of_nat k = 3 * (y / 200) + x / 200) as Huniq.
  { intros k rect' Hk [Hix Hiy].
    do 9 (destruct k as [|k]; [injection Hk as <-; cbn in Hix, Hiy;
                               Z.div_mod_to_equations; lia|]).
    done. }
  destruct Hcx as [Ex|[Ex|Ex]], Hcy as [Ey|[Ey|Ey]]; rewrite Ex, Ey in *;
    (eexists; split; [reflexivity|]; split;
     [unfold inside; cbn; Z.div_mod_to_equations; lia|]);
    intros k rect' Hk Hin; specialize (Huniq k rect' Hk Hin); lia.
Qed.

Lemma slice_urls_tiling_witness :
  0 ≤ 250 < size ∧ 0 ≤ 410 < size ∧
  slice_urls !! 7%nat = Some (Slice (mkRect 200 400 200 200)) ∧
  ∃ rect, slice_urls !! Z.to_nat (3 * (410 / (size / 3)) + 250 / (size / 3))
            = Some (Slice rect) ∧ inside rect 250 410.
Proof.
  assert (0 ≤ 250 < size) as Hx by (unfold size; lia).
  assert (0 ≤ 410 < size) as Hy by (unfold size; lia).
  split; [exact Hx|]. split; [exact Hy|]. split; [reflexivity|].
  destruct (slice_urls_tiling 250 410 Hx Hy) as (rect & E & Hin & _).
  exists rect. split; [exact E|exact Hin].
Defined.

Lemma fmap_imap_const {A B C} (g : B → C) (h : A → C) (l : list A) :
  ∀ f : nat → A → B, (∀ i x, g (f i x) = h x) → g <$> imap f l = h <$> l.
Proof.
  induction l as [|x l IH]; intros f Hf; [done|].
  cbn. rewrite Hf. f_equal. apply IH. intros i y. apply Hf.
Qed.

Lemma grid_fmap_url ts (s : State) :
  url <$> grid (Some ts) s =
    (λ v, js_get ts (if v =? 0 then 8 else v - 1)) <$> s.
Proof. unfold grid. by apply fmap_imap_const. Qed.

Lemma grid_lookup ts (s : State) i cell :
  grid ts s !! i = Some cell →
  ∃ x, s !! i = Some x ∧
       cell = mkCell x (Z.of_nat i) (row (Z.of_nat i)) (col (Z.of_nat i))
                (t ← ts; js_get t (if x =? 0 then 8 else x - 1)).
Proof.
  unfold grid. rewrite list_lookup_imap.
  destruct (s !! i) as [x|]; [|done]. intros [= <-]. by exists x.
Qed.

(** X17.  For a configuration and an array of nine tiles, [grid] has nine
    cells, the images of its cells are the nine tiles, each once; each cell
    carries its row and column on the 3x3 grid, the value of the state at its
    index, and the tile its value selects, the last one for the blank.
    Without tiles no cell has an image. *)
Theorem grid_tiles (ts : list Tile) (s : State) :
  valid s → length ts = 9%nat →
  length (grid (Some ts) s) = 9%nat ∧
  url <$> grid (Some ts) s ≡ₚ Some <$> ts ∧
  Forall (λ cell, 0 ≤ r cell ≤ 2 ∧ 0 ≤ c cell ≤ 2 ∧
                  idx cell = 3 * r cell + c cell ∧
                  aget s (idx cell) = v cell ∧
                  url cell = ts !! Z.to_nat (if v cell =? 0 then 8 else v cell - 1))
    (grid (Some ts) s) ∧
  Forall (λ cell, url cell = None) (grid None s).
Proof.
  intros Hv Hlen. split_and!.
  - unfold grid. by rewrite length_imap, (valid_length s Hv).
  - rewrite grid_fmap_url. unfold valid in Hv. rewrite Hv.
    do 10 (destruct ts as [|? ts]; try done).
  - apply list.Forall_forall. intros cell Hin.
    apply list_elem_of_lookup in Hin as [i Hi].
    destruct (grid_lookup _ _ _ _ Hi) as (x & Hx & ->). cbn.
    pose proof (lookup_lt_Some _ _ _ Hx) as Hlt.
    rewrite (valid_length s Hv) in Hlt.
    assert (0 ≤ x ≤ 8) as Hr.
    { apply (valid_elem s x Hv). by eapply list_elem_of_lookup_2. }
    unfold row, col. rewrite Z.rem_mod_nonneg by lia.
    split_and!; try (Z.div_mod_to_equations; lia).
    + apply aget_lookup; [lia|]. by rewrite Nat2Z.id.
    + unfold js_get. destruct (Z.eqb_spec x 0); [done|].
      destruct (Z.ltb_spec (x - 1) 0); [lia|done].
  - apply list.Forall_forall. intros cell Hin.
    apply list_elem_of_lookup in Hin as [i Hi].
    by destruct (grid_lookup _ _ _ _ Hi) as (x & Hx & ->).
Qed.

Lemma grid_tiles_witness :
  valid one_move ∧ length sliceImage = 9%nat ∧
  url <$> grid (Some sliceImage) one_move ≡ₚ Some <$> sliceImage.
Proof.
  assert (valid one_move) as Hv by prove_valid.
  split; [exact Hv|]. split; [reflexivity|].
  exact (proj1 (proj2 (grid_tiles sliceImage one_move Hv eq_refl))).
Defined.

Lemma own_slice_value x i :
  0 ≤ x ≤ 8 → 0 ≤ i ≤ 8 → x ≠ 0 →
  js_get sliceImage (if x =? 0 then 8 else x - 1) =
    Some (Slice (mkRect (col i * (size / 3)) (row i * (size / 3))
                   (size / 3) (size / 3))) ↔ x = i + 1.
Proof.
  intros Hx Hi Hx0.
  assert (x = 1 ∨ x = 2 ∨ x = 3 ∨ x = 4 ∨ x = 5 ∨ x = 6 ∨ x = 7 ∨ x = 8)
    as Hcx by lia.
  assert (i = 0 ∨ i = 1 ∨ i = 2 ∨ i = 3 ∨ i = 4 ∨ i = 5 ∨ i = 6 ∨ i = 7 ∨ i = 8)
    as Hci by lia.
  clear Hx Hi Hx0.
  destruct_or!; subst x i; vm_compute; split; congruence.
Qed.

(** X18.  With the tiles that [sliceImage] sets, every cell that holds a
    tile shows the square of the canvas lying at the cell's own row and
    column exactly when the state is the goal. *)
Theorem picture_in_place (s : State) :
  valid s →
  Forall (λ cell, v cell ≠ 0 → url cell = Some (own_slice cell))
    (grid (Some sliceImage) s) ↔ s = GOAL.
Proof.
  intros Hv. split.
  - intros Hall.
    assert (∀ i x, (i < 9)%nat → s !! i = Some x → x = 0 ∨ x = Z.of_nat i + 1)
      as Hcell.
    { intros i x Hi Hx. destruct (decide (x = 0)) as [|Hx0]; [by left|right].
      assert (0 ≤ x ≤ 8) as Hr.
      { apply (valid_elem s x Hv). by eapply list_elem_of_lookup_2. }
      rewrite list.Forall_forall in Hall.
      specialize (Hall (mkCell x (Z.of_nat i) (row (Z.of_nat i)) (col (Z.of_nat i))
                          (js_get sliceImage (if x =? 0 then 8 else x - 1)))).
      apply own_slice_value; [done|lia|done|]. apply Hall; [|done].
      unfold grid.
      exact (elem_of_lookup_imap_2 _ _ _ i Hx). }
    destruct (valid_shape s Hv) as (a & b & c0 & d & e & f' & g' & h & i & ->).
    pose proof (Hcell 0%nat a ltac:(lia) eq_refl) as Ha.
    pose proof (Hcell 1%nat b ltac:(lia) eq_refl) as Hb.
    pose proof (Hcell 2%nat c0 ltac:(lia) eq_refl) as Hc.
    pose proof (Hcell 3%nat d ltac:(lia) eq_refl) as Hd.
    pose proof (Hcell 4%nat e ltac:(lia) eq_refl) as He.
    pose proof (Hcell 5%nat f' ltac:(lia) eq_refl) as Hf.
    pose proof (Hcell 6%nat g' ltac:(lia) eq_refl) as Hg.
    pose proof (Hcell 7%nat h ltac:(lia) eq_refl) as Hh.
    pose proof (Hcell 8%nat i ltac:(lia) eq_refl) as Hi.
    assert (0 ≤ i ≤ 8) as Hri.
    { apply (valid_elem _ i Hv). do 8 right. by left. }
    assert (i = 0) as -> by lia.
    pose proof (valid_NoDup _ Hv) as Hnd. clear Hcell Hall Hv Hri Hi.
    assert (a ≠ 0 ∧ b ≠ 0 ∧ c0 ≠ 0 ∧ d ≠ 0 ∧ e ≠ 0 ∧ f' ≠ 0 ∧ g' ≠ 0 ∧ h ≠ 0)
      as Hne.
    { split_and!; intros ->.
      - by pose proof (NoDup_lookup _ 0%nat 8%nat 0 Hnd eq_refl eq_refl).
      - by pose proof (NoDup_lookup _ 1%nat 8%nat 0 Hnd eq_refl eq_refl).
      - by pose proof (NoDup_lookup _ 2%nat 8%nat 0 Hnd eq_refl eq_refl).
      - by pose proof (NoDup_lookup _ 3%nat 8%nat 0 Hnd eq_refl eq_refl).
      - by pose proof (NoDup_lookup _ 4%nat 8%nat 0 Hnd eq_refl eq_refl).
      - by pose proof (NoDup_lookup _ 5%nat 8%nat 0 Hnd eq_refl eq_refl).
      - by pose proof (NoDup_lookup _ 6%nat 8%nat 0 Hnd eq_refl eq_refl).
      - by pose proof (NoDup_lookup _ 7%nat 8%nat 0 Hnd eq_refl eq_refl). }
    clear Hnd. unfold GOAL. repeat f_equal; lia.
  - intros ->. by repeat (apply list.Forall_cons; split; [done|]).
Qed.

Lemma picture_in_place_witness :
  valid one_move ∧ one_move ≠ GOAL ∧
  ¬ Forall (λ cell, v cell ≠ 0 → url cell = Some (own_slice cell))
      (grid (Some sliceImage) one_move).
Proof.
  assert (valid one_move) as Hv by prove_valid.
  assert (one_move ≠ GOAL) as Hne by discriminate.
  split; [exact Hv|]. split; [exact Hne|].
  intros H. apply Hne. exact (proj1 (picture_in_place one_move Hv) H).
Defined.

(** X21.  For every double in [0, 1) that [Math.random()] may draw,
    [loadRandomPhoto] picks an entry of [PORTFOLIO], one of the twelve paths
    [/photos/img1.jpg] to [/photos/img12.jpg]: the rounded product of the
    draw and 12 is finite and its floor is one of 0..11.  Each of the twelve
    is picked for some draw. *)
Theorem loadRandomPhoto_defined :
  (∀ u, is_random u →
        finite (fmul u (of_int 12)) ∧
        ∃ i, 1 ≤ i ≤ 12 ∧
             loadRandomPhoto u = Some ("/photos/img" +:+ pretty i +:+ ".jpg")) ∧
  (∀ i, 1 ≤ i ≤ 12 →
        ∃ u, is_random u ∧
             loadRandomPhoto u = Some ("/photos/img" +:+ pretty i +:+ ".jpg")).
Proof.
  assert (∀ j, 0 ≤ j ≤ 11 →
               js_get PORTFOLIO j
               = Some ("/photos/img" +:+ pretty (j + 1) +:+ ".jpg")) as Hget.
  { intros j Hj.
    assert (j = 0 ∨ j = 1 ∨ j = 2 ∨ j = 3 ∨ j = 4 ∨ j = 5 ∨ j = 6 ∨ j = 7
            ∨ j = 8 ∨ j = 9 ∨ j = 10 ∨ j = 11) as Hc by lia.
    clear Hj. destruct_or!; by subst j. }
  split.
  - intros u Hu.
    destruct (fmul_of_int_range u 12 Hu ltac:(compute_done)) as [Hf Hr].
    split; [done|]. unfold loadRandomPhoto.
    change (Z.of_nat (length PORTFOLIO)) with 12.
    exists (floor (fmul u (of_int 12)) + 1). split; [lia|]. apply Hget. lia.
  - intros i Hi.
    destruct (draw_for_spec (i - 1) 11 ltac:(lia) ltac:(lia)) as [Hu Hpick].
    exists (draw_for (i - 1) 11). split; [done|]. unfold loadRandomPhoto.
    change (Z.of_nat (length PORTFOLIO)) with (11 + 1).
    unfold random_index in Hpick. rewrite Hpick, (Hget (i - 1)) by lia.
    by replace (i - 1 + 1) with i by lia.
Qed.

Example loadRandomPhoto_third : loadRandomPhoto third = Some "/photos/img5.jpg".
Proof. reflexivity. Qed.

(** * Shuffling while the solver runs *)

Lemma app_reachable_shuffled_while_solving :
  app_reachable shuffled_while_solving.
Proof.
  unfold shuffled_while_solving.
  eapply rtc_r; [eapply rtc_r; [eapply rtc_r; [apply rtc_once|]|]|].
  - apply (step_tiles mounted []).
  - apply (step_click _ 7). cbn. lia.
  - apply (step_solve _ 10 (Some [GOAL])); [by eexists|done|].
    exact solve_one_move.
  - apply step_shuffle; [by eexists|intros _; by vm_compute].
Qed.

(** X22.  Shuffle is not disabled while [doSolve] runs: in every reachable
    state with tiles, a press of Shuffle replaces the state shown and leaves
    [busy] and the rest of the path as they are.  So there is a run in which
    [doSolve] ends, [busy] cleared, with a state shown that is not the
    goal. *)
Theorem shuffle_not_disabled :
  (∀ a rnd,
     app_reachable a → is_Some (tiles a) →
     (∀ k, is_random (rnd k)) →
     app_reachable (doShuffle rnd a) ∧
     state (doShuffle rnd a) = shuffleSolvable rnd ∧
     busy (doShuffle rnd a) = busy a ∧ pending (doShuffle rnd a) = pending a) ∧
  ∃ a, app_reachable a ∧ busy a = true ∧
       app_reachable (resume a) ∧ busy (resume a) = false ∧
       state (resume a) ≠ GOAL.
Proof.
  split.
  - intros a rnd Hr Ht Hrnd. split_and!; [|done..].
    eapply rtc_r; [exact Hr|]. by apply step_shuffle.
  - exists shuffled_while_solving.
    pose proof app_reachable_shuffled_while_solving as Hr.
    split_and!; [done|done| |done|].
    + eapply rtc_r; [exact Hr|]. by apply step_timer.
    + vm_compute. discriminate.
Qed.
